(** * A chess rules engine and its search opponent

    Shallow embedding of [ChessGame.ts], [ChessBot.ts], [utils.ts] and
    [types.ts].  Objects that the program shares by reference (the game
    instance, its [GameState] object, the board, the [legalMoves] and
    [moveHistory] arrays) live in an explicit store of cells; every method is
    a computation over that store.  A computation answers [None] where the
    source raises a [TypeError] (indexing a row that does not exist, reading
    a field of [null]) or leaves the grid model described at [writeSq]. *)

From Stdlib Require Import ZArith QArith Qround Qpower Lia Lqa.
From stdpp Require Import base option list pmap.

Local Open Scope Z_scope.

(** ** types.ts *)

Inductive PieceType := king | queen | rook | bishop | knight | pawn.
Inductive PieceColor := white | black.
Inductive Difficulty := very_easy | easy | medium | hard | very_hard.

Record Position := { row : Z; col : Z }.

(** [hasMoved] is optional in the interface; every piece the engine builds
    carries it. *)
Record Piece := { type : PieceType; color : PieceColor; hasMoved : bool }.

(** [castling] and [enPassant] are declared in the interface and never
    written by the program; they are left out. *)
Record Move := {
  from : Position;
  to : Position;
  piece : Piece;
  capturedPiece : option Piece;
  promotion : option PieceType
}.

Abbreviation Board := (list (list (option Piece))).

#[global] Instance PieceType_eq_dec : EqDecision PieceType.
Proof. solve_decision. Defined.
#[global] Instance PieceColor_eq_dec : EqDecision PieceColor.
Proof. solve_decision. Defined.
#[global] Instance Difficulty_eq_dec : EqDecision Difficulty.
Proof. solve_decision. Defined.
#[global] Instance Position_eq_dec : EqDecision Position.
Proof. solve_decision. Defined.
#[global] Instance Piece_eq_dec : EqDecision Piece.
Proof. solve_decision. Defined.
#[global] Instance Move_eq_dec : EqDecision Move.
Proof. solve_decision. Defined.

(** ** utils.ts *)

Definition isValidPosition (pos : Position) : bool :=
  (0 <=? row pos) && (row pos <? 8) && (0 <=? col pos) && (col pos <? 8).

Definition isSamePosition (pos1 pos2 : Position) : bool :=
  (row pos1 =? row pos2) && (col pos1 =? col pos2).

Definition getOppositeColor (c : PieceColor) : PieceColor :=
  match c with white => black | black => white end.

(** [piece ? { ...piece } : null], cell by cell. *)
Definition copyBoard (b : Board) : Board :=
  map (fun rw => map (fun p => match p with Some q => Some q | None => None end) rw) b.

(** [a !== b] on colours. *)
Definition color_neq (a b : PieceColor) : bool := negb (bool_decide (a = b)).

(** ** Reading the grid

    [b[r][c]]: a missing row makes the read throw ([None]); a missing column
    or a [null] entry reads as "no piece" ([Some None]). *)
Definition rd (b : Board) (pos : Position) : option (option Piece) :=
  if row pos <? 0 then None
  else match b !! Z.to_nat (row pos) with
       | None => None
       | Some rw =>
           Some (if col pos <? 0 then None
                 else match rw !! Z.to_nat (col pos) with
                      | Some (Some p) => Some p
                      | _ => None
                      end)
       end.

(** [b[r][c]!]: the entry, then a field access that throws on [null]. *)
Definition rd_piece (b : Board) (pos : Position) : option Piece :=
  match rd b pos with
  | Some (Some p) => Some p
  | _ => None
  end.

(** ** Pseudo-legal generators (ChessGame.ts, lines 157-275)

    Each generator reads [this.gameState.board] only; it is a function of the
    board found there.  The source pushes onto one [moves] array; here every
    loop returns the squares it pushed, in push order. *)

(** The "forward move" block of [getPawnMoves]. *)
Definition pawnForward (b : Board) (position : Position) (direction startRow : Z)
  : option (list Position) :=
  let oneForward := {| row := row position + direction; col := col position |} in
  if isValidPosition oneForward then
    t ← rd b oneForward;
    match t with
    | Some _ => Some []
    | None =>
        if row position =? startRow then
          let twoForward := {| row := row position + 2 * direction; col := col position |} in
          if isValidPosition twoForward then
            t2 ← rd b twoForward;
            match t2 with
            | Some _ => Some [oneForward]
            | None => Some [oneForward; twoForward]
            end
          else Some [oneForward]
        else Some [oneForward]
    end
  else Some [].

(** The body of the loop [for (const colOffset of [-1, 1])]. *)
Definition pawnCapture (b : Board) (position : Position) (p : Piece) (direction colOffset : Z)
  : option (list Position) :=
  let capturePos := {| row := row position + direction; col := col position + colOffset |} in
  if isValidPosition capturePos then
    t ← rd b capturePos;
    match t with
    | Some targetPiece =>
        Some (if color_neq (color targetPiece) (color p) then [capturePos] else [])
    | None => Some []
    end
  else Some [].

Definition getPawnMoves (b : Board) (position : Position) : option (list Position) :=
  p ← rd_piece b position;
  let direction := match color p with white => -1 | black => 1 end in
  let startRow := match color p with white => 6 | black => 1 end in
  forward ← pawnForward b position direction startRow;
  captures ← mapM (pawnCapture b position p direction) [-1; 1];
  Some (forward ++ concat captures).

(** The inner loop [for (let i = 1; i < 8; i++)] of the rook and bishop
    generators, for one direction; [steps] is the list of the remaining
    values of [i]. *)
Fixpoint slide (b : Board) (position : Position) (rowDir colDir : Z) (steps : list Z)
  : option (list Position) :=
  match steps with
  | [] => Some []
  | i :: rest =>
      let newPos := {| row := row position + i * rowDir; col := col position + i * colDir |} in
      if isValidPosition newPos then
        t ← rd b newPos;
        match t with
        | None => more ← slide b position rowDir colDir rest; Some (newPos :: more)
        | Some targetPiece =>
            own ← rd_piece b position;
            Some (if color_neq (color targetPiece) (color own) then [newPos] else [])
        end
      else Some []
  end.

Definition slideAll (b : Board) (position : Position) (directions : list (Z * Z))
  : option (list Position) :=
  segs ← mapM (fun d => slide b position (fst d) (snd d) [1; 2; 3; 4; 5; 6; 7]) directions;
  Some (concat segs).

Definition getRookMoves (b : Board) (position : Position) : option (list Position) :=
  slideAll b position [(0, 1); (0, -1); (1, 0); (-1, 0)].

Definition getBishopMoves (b : Board) (position : Position) : option (list Position) :=
  slideAll b position [(1, 1); (1, -1); (-1, 1); (-1, -1)].

Definition getQueenMoves (b : Board) (position : Position) : option (list Position) :=
  r ← getRookMoves b position;
  d ← getBishopMoves b position;
  Some (r ++ d).

(** The loop body shared by the knight and the king: one step by the
    offset [d]. *)
Definition stepOne (b : Board) (position : Position) (d : Z * Z) : option (list Position) :=
  let newPos := {| row := row position + fst d; col := col position + snd d |} in
  if isValidPosition newPos then
    t ← rd b newPos;
    match t with
    | None => Some [newPos]
    | Some targetPiece =>
        own ← rd_piece b position;
        Some (if color_neq (color targetPiece) (color own) then [newPos] else [])
    end
  else Some [].

Definition stepAll (b : Board) (position : Position) (offsets : list (Z * Z))
  : option (list Position) :=
  segs ← mapM (stepOne b position) offsets;
  Some (concat segs).

Definition getKnightMoves (b : Board) (position : Position) : option (list Position) :=
  stepAll b position
    [(-2, -1); (-2, 1); (-1, -2); (-1, 2); (1, -2); (1, 2); (2, -1); (2, 1)].

Definition getKingMoves (b : Board) (position : Position) : option (list Position) :=
  stepAll b position
    [(0, 1); (0, -1); (1, 0); (-1, 0); (1, 1); (1, -1); (-1, 1); (-1, -1)].

(** The [switch (piece.type)] of [getLegalMoves] and of
    [getLegalMovesIgnoringCheck]. *)
Definition movesByType (b : Board) (position : Position) (t : PieceType)
  : option (list Position) :=
  match t with
  | pawn => getPawnMoves b position
  | rook => getRookMoves b position
  | knight => getKnightMoves b position
  | bishop => getBishopMoves b position
  | queen => getQueenMoves b position
  | king => getKingMoves b position
  end.

(** The body of [getLegalMovesIgnoringCheck] once the board is read. *)
Definition pseudoMoves (b : Board) (position : Position) : option (list Position) :=
  t ← rd b position;
  match t with
  | None => Some []
  | Some p => movesByType b position (type p)
  end.

(** [createInitialBoard]. *)
Definition mk (t : PieceType) (c : PieceColor) : option Piece :=
  Some {| type := t; color := c; hasMoved := false |}.

Definition backRank : list PieceType :=
  [rook; knight; bishop; queen; king; bishop; knight; rook].

Definition createInitialBoard : Board :=
  [ map (fun t => mk t black) backRank;
    replicate 8 (mk pawn black);
    replicate 8 None; replicate 8 None; replicate 8 None; replicate 8 None;
    replicate 8 (mk pawn white);
    map (fun t => mk t white) backRank ].

(** The nested loops [for row in 0..7, for col in 0..7], flattened in the
    order in which the squares are visited. *)
Definition idx8 : list Z := [0; 1; 2; 3; 4; 5; 6; 7].
Definition allSquares : list Position :=
  flat_map (fun r => map (fun c => {| row := r; col := c |}) idx8) idx8.

(** The first loop of [isKingInCheck]: the first king of [side] in row-major
    order; both [break]s leave the scan. *)
Fixpoint findKing (b : Board) (side : PieceColor) (sqs : list Position)
  : option (option Position) :=
  match sqs with
  | [] => Some None
  | pos :: rest =>
      t ← rd b pos;
      match t with
      | Some p =>
          if bool_decide (type p = king) && bool_decide (color p = side)
          then Some (Some pos)
          else findKing b side rest
      | None => findKing b side rest
      end
  end.

(** [b[r][c] = v].  The row must exist; a column past the end extends the
    row array, the holes reading as "no piece"; a negative column would set
    a named property of the array, which the grid does not represent
    ([None]). *)
Definition setSq (b : Board) (pos : Position) (v : option Piece) : option Board :=
  if row pos <? 0 then None
  else
    rw ← b !! Z.to_nat (row pos);
    if col pos <? 0 then None
    else
      let c := Z.to_nat (col pos) in
      let rw' := if decide (c < length rw)%nat then <[c := v]> rw
                 else rw ++ replicate (c - length rw) None ++ [v] in
      Some (<[Z.to_nat (row pos) := rw']> b).

(** ** The store *)

Abbreviation loc := positive.

Record GameState := {
  board : loc;
  currentPlayer : PieceColor;
  isCheck : bool;
  isCheckmate : bool;
  isStalemate : bool;
  gameOver : bool;
  selectedSquare : option Position;
  legalMoves : loc;
  moveHistory : loc;
  difficulty : Difficulty
}.

(** Field assignments [state.f = v] on a [GameState] object. *)
Definition set_board (v : loc) (s : GameState) : GameState :=
  {| board := v; currentPlayer := currentPlayer s; isCheck := isCheck s;
     isCheckmate := isCheckmate s; isStalemate := isStalemate s; gameOver := gameOver s;
     selectedSquare := selectedSquare s; legalMoves := legalMoves s;
     moveHistory := moveHistory s; difficulty := difficulty s |}.
Definition set_currentPlayer (v : PieceColor) (s : GameState) : GameState :=
  {| board := board s; currentPlayer := v; isCheck := isCheck s;
     isCheckmate := isCheckmate s; isStalemate := isStalemate s; gameOver := gameOver s;
     selectedSquare := selectedSquare s; legalMoves := legalMoves s;
     moveHistory := moveHistory s; difficulty := difficulty s |}.
Definition set_isCheck (v : bool) (s : GameState) : GameState :=
  {| board := board s; currentPlayer := currentPlayer s; isCheck := v;
     isCheckmate := isCheckmate s; isStalemate := isStalemate s; gameOver := gameOver s;
     selectedSquare := selectedSquare s; legalMoves := legalMoves s;
     moveHistory := moveHistory s; difficulty := difficulty s |}.
Definition set_isCheckmate (v : bool) (s : GameState) : GameState :=
  {| board := board s; currentPlayer := currentPlayer s; isCheck := isCheck s;
     isCheckmate := v; isStalemate := isStalemate s; gameOver := gameOver s;
     selectedSquare := selectedSquare s; legalMoves := legalMoves s;
     moveHistory := moveHistory s; difficulty := difficulty s |}.
Definition set_isStalemate (v : bool) (s : GameState) : GameState :=
  {| board := board s; currentPlayer := currentPlayer s; isCheck := isCheck s;
     isCheckmate := isCheckmate s; isStalemate := v; gameOver := gameOver s;
     selectedSquare := selectedSquare s; legalMoves := legalMoves s;
     moveHistory := moveHistory s; difficulty := difficulty s |}.
Definition set_gameOver (v : bool) (s : GameState) : GameState :=
  {| board := board s; currentPlayer := currentPlayer s; isCheck := isCheck s;
     isCheckmate := isCheckmate s; isStalemate := isStalemate s; gameOver := v;
     selectedSquare := selectedSquare s; legalMoves := legalMoves s;
     moveHistory := moveHistory s; difficulty := difficulty s |}.
Definition set_selectedSquare (v : option Position) (s : GameState) : GameState :=
  {| board := board s; currentPlayer := currentPlayer s; isCheck := isCheck s;
     isCheckmate := isCheckmate s; isStalemate := isStalemate s; gameOver := gameOver s;
     selectedSquare := v; legalMoves := legalMoves s;
     moveHistory := moveHistory s; difficulty := difficulty s |}.
Definition set_legalMoves (v : loc) (s : GameState) : GameState :=
  {| board := board s; currentPlayer := currentPlayer s; isCheck := isCheck s;
     isCheckmate := isCheckmate s; isStalemate := isStalemate s; gameOver := gameOver s;
     selectedSquare := selectedSquare s; legalMoves := v;
     moveHistory := moveHistory s; difficulty := difficulty s |}.
Definition set_moveHistory (v : loc) (s : GameState) : GameState :=
  {| board := board s; currentPlayer := currentPlayer s; isCheck := isCheck s;
     isCheckmate := isCheckmate s; isStalemate := isStalemate s; gameOver := gameOver s;
     selectedSquare := selectedSquare s; legalMoves := legalMoves s;
     moveHistory := v; difficulty := difficulty s |}.
Definition set_difficulty (v : Difficulty) (s : GameState) : GameState :=
  {| board := board s; currentPlayer := currentPlayer s; isCheck := isCheck s;
     isCheckmate := isCheckmate s; isStalemate := isStalemate s; gameOver := gameOver s;
     selectedSquare := selectedSquare s; legalMoves := legalMoves s;
     moveHistory := moveHistory s; difficulty := v |}.

(** What a reference can point to: a [ChessGame] instance (its one field
    [gameState]), a [GameState] object, a board, a [Position[]] array or a
    [Move[]] array.  Pieces, positions and moves are never mutated in place
    by the program and are kept by value. *)
Inductive cell :=
| CGame (gs : loc)
| CState (st : GameState)
| CBoard (b : Board)
| CSquares (sqs : list Position)
| CMoves (ms : list Move).

Record heap := { cells : Pmap cell; next : loc }.

Definition M (A : Type) : Type := heap -> option (A * heap).

Definition ret {A} (a : A) : M A := fun h => Some (a, h).
Definition bind {A B} (m : M A) (f : A -> M B) : M B := fun h =>
  match m h with
  | Some (a, h') => f a h'
  | None => None
  end.

Notation "'let!' x := m 'in' k" := (bind m (fun x => k))
  (at level 10, x binder, m at level 100, k at level 200).

(** An exception, or the value. *)
Definition lift {A} (o : option A) : M A := fun h =>
  match o with Some a => Some (a, h) | None => None end.

Definition alloc (c : cell) : M loc := fun h =>
  Some (next h, {| cells := <[next h := c]> (cells h); next := Pos.succ (next h) |}).

Definition load (l : loc) : M cell := fun h =>
  match cells h !! l with Some c => Some (c, h) | None => None end.

Definition store (l : loc) (c : cell) : M unit := fun h =>
  Some (tt, {| cells := <[l := c]> (cells h); next := next h |}).

Definition readGame (l : loc) : M loc :=
  let! c := load l in match c with CGame gs => ret gs | _ => lift None end.
Definition readState (l : loc) : M GameState :=
  let! c := load l in match c with CState st => ret st | _ => lift None end.
Definition readBoard (l : loc) : M Board :=
  let! c := load l in match c with CBoard b => ret b | _ => lift None end.
Definition readSquares (l : loc) : M (list Position) :=
  let! c := load l in match c with CSquares sqs => ret sqs | _ => lift None end.
Definition readMoves (l : loc) : M (list Move) :=
  let! c := load l in match c with CMoves ms => ret ms | _ => lift None end.

(** [state.f = v] on the object at [l]. *)
Definition modifyState (l : loc) (f : GameState -> GameState) : M unit :=
  let! st := readState l in store l (CState (f st)).

(** [board[r][c] = v] on the board at [l]. *)
Definition writeSq (l : loc) (pos : Position) (v : option Piece) : M unit :=
  let! b := readBoard l in
  let! b' := lift (setSq b pos v) in
  store l (CBoard b').

(** Loops over a list with an early [return]: the body answers [Some v] to
    leave the enclosing function with [v]. *)
Fixpoint firstM {A B} (body : A -> M (option B)) (xs : list A) : M (option B) :=
  match xs with
  | [] => ret None
  | x :: rest =>
      let! r := body x in
      match r with
      | Some v => ret (Some v)
      | None => firstM body rest
      end
  end.

(** [xs.filter(f)] with an effectful predicate, left to right. *)
Fixpoint filterM {A} (f : A -> M bool) (xs : list A) : M (list A) :=
  match xs with
  | [] => ret []
  | x :: rest =>
      let! keep := f x in
      let! more := filterM f rest in
      ret (if keep then x :: more else more)
  end.

(** A loop whose body pushes onto one result array. *)
Fixpoint collectM {A B} (body : A -> M (list B)) (xs : list A) : M (list B) :=
  match xs with
  | [] => ret []
  | x :: rest =>
      let! here := body x in
      let! more := collectM body rest in
      ret (here ++ more)
  end.

(** ** ChessGame.ts

    [this] is the reference to the [ChessGame] instance. *)

Definition initializeGame : M loc :=
  let! b := alloc (CBoard createInitialBoard) in
  let! lm := alloc (CSquares []) in
  let! mh := alloc (CMoves []) in
  alloc (CState {| board := b; currentPlayer := white; isCheck := false;
                   isCheckmate := false; isStalemate := false; gameOver := false;
                   selectedSquare := None; legalMoves := lm; moveHistory := mh;
                   difficulty := medium |}).

(** [new ChessGame()]. *)
Definition newChessGame : M loc :=
  let! gs := initializeGame in
  alloc (CGame gs).

(** [{ ...this.gameState }]: a new object with the same field values; the
    fields that hold references hold the same references. *)
Definition getGameState (this : loc) : M loc :=
  let! gs := readGame this in
  let! st := readState gs in
  alloc (CState st).

Definition setDifficulty (this : loc) (d : Difficulty) : M unit :=
  let! gs := readGame this in
  modifyState gs (set_difficulty d).

Definition getLegalMovesIgnoringCheck (this : loc) (position : Position)
  : M (list Position) :=
  let! gs := readGame this in
  let! st := readState gs in
  let! b := readBoard (board st) in
  lift (pseudoMoves b position).

(** [boardArg] is the optional parameter [board]. *)
(** [board || this.gameState.board]. *)
Definition boardOrOwn (this : loc) (boardArg : option loc) : M loc :=
  match boardArg with
  | Some l => ret l
  | None => let! gs := readGame this in let! st := readState gs in ret (board st)
  end.

Definition isKingInCheck (this : loc) (side : PieceColor) (boardArg : option loc) : M bool :=
  let! boardToCheck := boardOrOwn this boardArg in
  let! b := readBoard boardToCheck in
  let! kingPos := lift (findKing b side allSquares) in
  match kingPos with
  | None => ret false
  | Some kp =>
      let! hit :=
        firstM (fun pos =>
                  let! b := readBoard boardToCheck in
                  let! t := lift (rd b pos) in
                  match t with
                  | Some p =>
                      if color_neq (color p) side then
                        let! tempGame := newChessGame in
                        let! tgs := readGame tempGame in
                        let! _ := modifyState tgs (set_board boardToCheck) in
                        let! moves := getLegalMovesIgnoringCheck tempGame pos in
                        if existsb (fun move => isSamePosition move kp) moves
                        then ret (Some tt) else ret None
                      else ret None
                  | None => ret None
                  end)
               allSquares in
      match hit with
      | Some _ => ret true
      | None => ret false
      end
  end.

Definition wouldBeInCheck (this : loc) (from to : Position) (side : PieceColor) : M bool :=
  let! gs := readGame this in
  let! st := readState gs in
  let! b := readBoard (board st) in
  let! tempBoard := alloc (CBoard (copyBoard b)) in
  let! tb := readBoard tempBoard in
  let! moved := lift (rd tb from) in
  let! _ := writeSq tempBoard to moved in
  let! _ := writeSq tempBoard from None in
  isKingInCheck this side (Some tempBoard).

Definition getLegalMoves (this : loc) (position : Position) : M (list Position) :=
  let! gs := readGame this in
  let! st := readState gs in
  let! b := readBoard (board st) in
  let! t := lift (rd b position) in
  match t with
  | None => ret []
  | Some p =>
      let! moves := lift (movesByType b position (type p)) in
      filterM (fun move =>
                 let! w := wouldBeInCheck this position move (color p) in
                 ret (negb w))
              moves
  end.

Definition updateGameStatus (this : loc) : M unit :=
  let! gs := readGame this in
  let! st := readState gs in
  let! chk := isKingInCheck this (currentPlayer st) None in
  let! _ := modifyState gs (set_isCheck chk) in
  let! found :=
    firstM (fun pos =>
              let! st := readState gs in
              let! b := readBoard (board st) in
              let! t := lift (rd b pos) in
              match t with
              | Some p =>
                  if bool_decide (color p = currentPlayer st) then
                    let! moves := getLegalMoves this pos in
                    if (0 <? Z.of_nat (length moves)) then ret (Some tt) else ret None
                  else ret None
              | None => ret None
              end)
           allSquares in
  match found with
  | Some _ => ret tt
  | None =>
      let! st := readState gs in
      if isCheck st then
        let! _ := modifyState gs (set_isCheckmate true) in
        modifyState gs (set_gameOver true)
      else
        let! _ := modifyState gs (set_isStalemate true) in
        modifyState gs (set_gameOver true)
  end.

(** The test of the "pawn promotion" block: a pawn, and the far rank of its
    colour. *)
Definition promotes (p : Piece) (to : Position) : bool :=
  bool_decide (type p = pawn)
  && ((bool_decide (color p = white) && (row to =? 0))
      || (bool_decide (color p = black) && (row to =? 7))).

Definition makeMove (this : loc) (from to : Position) : M bool :=
  let! gs := readGame this in
  let! st := readState gs in
  let! b := readBoard (board st) in
  let! t := lift (rd b from) in
  match t with
  | None => ret false
  | Some p =>
      let! captured := lift (rd b to) in
      let! _ := writeSq (board st) to
                  (Some {| type := type p; color := color p; hasMoved := true |}) in
      let! _ := writeSq (board st) from None in
      let! _ :=
        if promotes p to then
          writeSq (board st) to
            (Some {| type := queen; color := color p; hasMoved := true |})
        else ret tt in
      let move := {| from := from; to := to; piece := p; capturedPiece := captured;
                     promotion := if promotes p to then Some queen else None |} in
      let! hist := readMoves (moveHistory st) in
      let! _ := store (moveHistory st) (CMoves (hist ++ [move])) in
      let! _ := modifyState gs (fun s => set_currentPlayer (getOppositeColor (currentPlayer s)) s) in
      let! _ := modifyState gs (set_selectedSquare None) in
      let! lm := alloc (CSquares []) in
      let! _ := modifyState gs (set_legalMoves lm) in
      let! _ := updateGameStatus this in
      ret true
  end.

Definition selectSquare (this : loc) (position : Position) : M unit :=
  let! gs := readGame this in
  let! st := readState gs in
  if gameOver st || bool_decide (currentPlayer st = black) then ret tt
  else
    let! b := readBoard (board st) in
    let! t := lift (rd b position) in
    let own := match t with
               | Some p => bool_decide (color p = currentPlayer st)
               | None => false
               end in
    let select :=
      let! _ := modifyState gs (set_selectedSquare (Some position)) in
      let! moves := getLegalMoves this position in
      let! lm := alloc (CSquares moves) in
      modifyState gs (set_legalMoves lm) in
    match selectedSquare st with
    | Some sel =>
        let! lms := readSquares (legalMoves st) in
        if existsb (fun move => isSamePosition move position) lms then
          let! _ := makeMove this sel position in ret tt
        else if own then select
        else
          let! _ := modifyState gs (set_selectedSquare None) in
          let! lm := alloc (CSquares []) in
          modifyState gs (set_legalMoves lm)
    | None => if own then select else ret tt
    end.

Definition getAllLegalMoves (this : loc) (side : PieceColor) : M (list Move) :=
  let! gs := readGame this in
  collectM (fun pos =>
              let! st := readState gs in
              let! b := readBoard (board st) in
              let! t := lift (rd b pos) in
              match t with
              | Some p =>
                  if bool_decide (color p = side) then
                    let! legal := getLegalMoves this pos in
                    collectM (fun move =>
                                let! st := readState gs in
                                let! b := readBoard (board st) in
                                let! target := lift (rd b move) in
                                ret [ {| from := pos; to := move; piece := p;
                                         capturedPiece := target; promotion := None |} ])
                             legal
                  else ret []
              | None => ret []
              end)
           allSquares.

Definition resetGame (this : loc) : M unit :=
  let! gs := initializeGame in
  store this (CGame gs).

Definition emptyHeap : heap := {| cells := ∅; next := 1%positive |}.

(** ** Numbers

    A JavaScript number is an IEEE 754 double.  The integers of the program
    (coordinates, scores in tenths, array lengths) are far below [2^53] and
    are denoted exactly; where the program multiplies or compares the result
    of [Math.random], the double is the rational it denotes and the
    operation rounds. *)

(** The integer nearest to [q], the even one of two that are as near. *)
Definition roundEven (q : Q) : Z :=
  let k := Qfloor q in
  match (q - inject_Z k ?= 1 # 2)%Q with
  | Lt => k
  | Gt => k + 1
  | Eq => if Z.even k then k else k + 1
  end.

(** For [0 < q], the exponent [e] with [2^e <= q < 2^(e+1)]. *)
Definition binade (q : Q) : Z :=
  let e := Z.log2 (Qnum q) - Z.log2 (Z.pos (Qden q)) in
  if Qle_bool (2 ^ e) q then e else e - 1.

(** The double nearest to [0 < q], ties to the even significand: 53 bits
    of significand from the exponent -1022 on, multiples of [2^-1074] below
    (the subnormal numbers). *)
Definition roundPos (q : Q) : Q :=
  let e := Z.max (binade q) (-1022) in
  (inject_Z (roundEven (q * 2 ^ (52 - e))) * 2 ^ (e - 52))%Q.

(** The double nearest to [q].  Numbers of magnitude [2^1024] and more, which
    round to an infinity, do not occur: the program rounds products of a
    number below 1 and an array length. *)
Definition roundDouble (q : Q) : Q :=
  match (q ?= 0)%Q with
  | Eq => 0%Q
  | Gt => roundPos q
  | Lt => (- roundPos (- q))%Q
  end.

(** ** ChessBot.ts

    Scores are kept in tenths of a point, so that a table entry divided by
    ten stays an integer: every score the program computes is a multiple of
    0.5 of small magnitude, which doubles hold exactly.  [pts n] is the
    number [n] of the source. *)

Definition pts (n : Z) : Z := 10 * n.

(** A JavaScript number that may be [-Infinity] or [Infinity]. *)
Inductive num := NegInf | Fin (z : Z) | PosInf.

Definition num_leb (a b : num) : bool :=
  match a, b with
  | NegInf, _ => true
  | _, PosInf => true
  | Fin x, Fin y => x <=? y
  | _, _ => false
  end.
Definition num_ltb (a b : num) : bool := negb (num_leb b a).
Definition num_max (a b : num) : num := if num_leb a b then b else a.
Definition num_min (a b : num) : num := if num_leb a b then a else b.
Definition num_add (a : num) (k : Z) : num :=
  match a with Fin x => Fin (x + k) | _ => a end.

Module ChessBot.

Record ChessBot := { game : loc; difficulty : Difficulty }.

Definition setDifficulty (this : ChessBot) (d : Difficulty) : ChessBot :=
  {| game := game this; difficulty := d |}.

Definition getPieceValue (p : Piece) : Z :=
  pts match type p with
      | pawn => 100
      | knight => 320
      | bishop => 330
      | rook => 500
      | queen => 900
      | king => 20000
      end.

Definition pawnTable : list (list Z) :=
  [ [0;  0;  0;  0;  0;  0;  0;  0];
    [50; 50; 50; 50; 50; 50; 50; 50];
    [10; 10; 20; 30; 30; 20; 10; 10];
    [5;  5; 10; 25; 25; 10;  5;  5];
    [0;  0;  0; 20; 20;  0;  0;  0];
    [5; -5;-10;  0;  0;-10; -5;  5];
    [5; 10; 10;-20;-20; 10; 10;  5];
    [0;  0;  0;  0;  0;  0;  0;  0] ].

Definition knightTable : list (list Z) :=
  [ [-50;-40;-30;-30;-30;-30;-40;-50];
    [-40;-20;  0;  0;  0;  0;-20;-40];
    [-30;  0; 10; 15; 15; 10;  0;-30];
    [-30;  5; 15; 20; 20; 15;  5;-30];
    [-30;  0; 15; 20; 20; 15;  0;-30];
    [-30;  5; 10; 15; 15; 10;  5;-30];
    [-40;-20;  0;  5;  5;  0;-20;-40];
    [-50;-40;-30;-30;-30;-30;-40;-50] ].

(** [table[row][col] / 10], in tenths.  Outside the table the source either
    throws (no such row) or yields [NaN] (no such column); both are [None]. *)
Definition tableAt (table : list (list Z)) (position : Position) : option Z :=
  if (row position <? 0) || (col position <? 0) then None
  else rw ← table !! Z.to_nat (row position); rw !! Z.to_nat (col position).

Definition getPositionValue (p : Piece) (position : Position) : option Z :=
  match type p with
  | pawn => tableAt pawnTable position
  | knight => tableAt knightTable position
  | _ => Some 0
  end.

Definition isCenter (position : Position) : bool :=
  ((2 <=? row position) && (row position <=? 5))
  && ((2 <=? col position) && (col position <=? 5)).

Definition evaluateMove (this : ChessBot) (move : Move) : M Z :=
  let score := 0 in
  let score := match capturedPiece move with
               | Some c => score + getPieceValue c
               | None => score
               end in
  let! pv := lift (getPositionValue (piece move) (to move)) in
  let score := score + pv in
  let! gameState := getGameState (game this) in
  let! st := readState gameState in
  let! hist := readMoves (moveHistory st) in
  let score :=
    if Z.of_nat (length hist) <? 10 then
      let pieceMovedBefore :=
        length (filter (fun m => type (piece m) = type (piece move)
                                 /\ color (piece m) = color (piece move)) hist) in
      score - pts (Z.of_nat pieceMovedBefore * 10)
    else score in
  let score := if isCenter (to move) then score + pts 20 else score in
  let score :=
    if bool_decide (type (piece move) = king) && (Z.of_nat (length hist) <? 15)
    then score - pts 50 else score in
  ret score.

(** The two loops of [minimax] over [nextMoves]; [rec] is the recursive call
    at [depth - 1]. *)
Fixpoint maxLoop (rec : Move -> num -> num -> M num) (nextMoves : list Move)
    (maxEval alpha beta : num) : M num :=
  match nextMoves with
  | [] => ret maxEval
  | nextMove :: rest =>
      let! evaluation := rec nextMove alpha beta in
      let maxEval := num_max maxEval evaluation in
      let alpha := num_max alpha evaluation in
      if num_leb beta alpha then ret maxEval
      else maxLoop rec rest maxEval alpha beta
  end.

Fixpoint minLoop (rec : Move -> num -> num -> M num) (nextMoves : list Move)
    (minEval alpha beta : num) : M num :=
  match nextMoves with
  | [] => ret minEval
  | nextMove :: rest =>
      let! evaluation := rec nextMove alpha beta in
      let minEval := num_min minEval evaluation in
      let beta := num_min beta evaluation in
      if num_leb beta alpha then ret minEval
      else minLoop rec rest minEval alpha beta
  end.

(** The temporary game of [minimax]: a new instance whose state object is
    [{ ...currentState, board: copyBoard(currentState.board) }]. *)
Definition scratchGame (this : ChessBot) : M loc :=
  let! tempGame := newChessGame in
  let! currentState := getGameState (game this) in
  let! cs := readState currentState in
  let! b := readBoard (board cs) in
  let! nb := alloc (CBoard (copyBoard b)) in
  let! ns := alloc (CState (set_board nb cs)) in
  let! _ := store tempGame (CGame ns) in
  ret tempGame.

Fixpoint minimax (this : ChessBot) (move : Move) (depth : nat) (isMaximizing : bool)
    (alpha beta : num) : M num :=
  match depth with
  | O => let! v := evaluateMove this move in ret (Fin v)
  | S depth' =>
      let! tempGame := scratchGame this in
      let! _ := makeMove tempGame (from move) (to move) in
      let! newState := getGameState tempGame in
      let! ns := readState newState in
      if isCheckmate ns then
        ret (if isMaximizing then Fin (pts (-10000)) else Fin (pts 10000))
      else
        let nextColor := if isMaximizing then white else black in
        let! nextMoves := getAllLegalMoves tempGame nextColor in
        if isMaximizing then
          maxLoop (fun nextMove a b => minimax this nextMove depth' false a b)
                  nextMoves NegInf alpha beta
        else
          minLoop (fun nextMove a b => minimax this nextMove depth' true a b)
                  nextMoves PosInf alpha beta
  end.

(** The loop of [getHardMove] and [getVeryHardMove]: strict [>], so the
    first move with the best score is kept. *)
Fixpoint bestLoop (score : Move -> M num) (moves : list Move)
    (bestMove : option Move) (bestScore : num) : M (option Move) :=
  match moves with
  | [] => ret bestMove
  | move :: rest =>
      let! s := score move in
      if num_ltb bestScore s then bestLoop score rest (Some move) s
      else bestLoop score rest bestMove bestScore
  end.

Definition getHardMove (this : ChessBot) (moves : list Move) (depth : nat)
  : M (option Move) :=
  bestLoop (fun move => minimax this move (depth - 1) false NegInf PosInf)
           moves (head moves) NegInf.

(** [getVeryHardMove]: [moves.sort] is stable and its comparator
    [evaluateMove(b) - evaluateMove(a)] orders by descending static score:
    moves of equal score keep the order they had.  The comparator only
    allocates snapshots that nobody keeps, so the model computes each key
    once.  [insertDesc] puts a move in front of the first move, among those
    that followed it, whose score is not greater than its own. *)
Fixpoint insertDesc (k : Z) (m : Move) (sorted : list (Z * Move)) : list (Z * Move) :=
  match sorted with
  | [] => [(k, m)]
  | (k', m') :: rest =>
      if k' <=? k then (k, m) :: sorted
      else (k', m') :: insertDesc k m rest
  end.

Definition sortDesc (keyed : list (Z * Move)) : list (Z * Move) :=
  foldr (fun km acc => insertDesc (fst km) (snd km) acc) [] keyed.

(** An array of one move is sorted without a call of the comparator. *)
Definition getVeryHardMove (this : ChessBot) (moves : list Move) (depth : nat)
  : M (option Move) :=
  let! sortedMoves :=
    match moves with
    | [] | [_] => ret moves
    | _ =>
        let! keyed := collectM (fun move => let! k := evaluateMove this move in
                                            ret [(k, move)]) moves in
        ret (map snd (sortDesc keyed))
    end in
  bestLoop (fun move => minimax this move (depth - 1) false NegInf PosInf)
           sortedMoves (head sortedMoves) NegInf.

(** [moves[Math.floor(r * moves.length)]] for a draw [r] of [Math.random]:
    the product is rounded to a double, then floored. *)
Definition pick {A} (r : Q) (xs : list A) : option A :=
  let i := Qfloor (roundDouble (r * inject_Z (Z.of_nat (length xs)))) in
  if i <? 0 then None else xs !! Z.to_nat i.

Definition getRandomMove (r : Q) (moves : list Move) : option Move := pick r moves.

(** [r1] and [r2] are the values of the first and of the second call of
    [Math.random].  The literal [0.6] is the double nearest to 6/10, which
    is 5404319552844595 / 2^53, a little less than 6/10. *)
Definition getEasyMove (r1 r2 : Q) (moves : list Move) : option Move :=
  let captures := filter (fun move => is_Some (capturedPiece move)) moves in
  match captures with
  | [] => getRandomMove r1 moves
  | _ => if Qlt_le_dec r1 (roundDouble (6 # 10)) then pick r2 captures
         else getRandomMove r2 moves
  end.

Definition getMediumMove (this : ChessBot) (r1 : Q) (moves : list Move) : M (option Move) :=
  let! best :=
    foldl (fun acc move =>
             let! bestScore := acc in
             let! s := evaluateMove this move in
             ret (if num_ltb bestScore (Fin s) then Fin s else bestScore))
          (ret NegInf) moves in
  let! goodMoves :=
    filterM (fun move =>
               let! s := evaluateMove this move in
               ret (num_leb (num_add best (- pts 50)) (Fin s)))
            moves in
  ret (pick r1 goodMoves).

Definition getBestMove (this : ChessBot) (r1 r2 : Q) : M (option Move) :=
  let! gameState := getGameState (game this) in
  let! legalMoves := getAllLegalMoves (game this) black in
  match legalMoves with
  | [] => ret None
  | _ =>
      match difficulty this with
      | very_easy => ret (getRandomMove r1 legalMoves)
      | easy => ret (getEasyMove r1 r2 legalMoves)
      | medium => getMediumMove this r1 legalMoves
      | hard => getHardMove this legalMoves 3
      | very_hard => getVeryHardMove this legalMoves 4
      end
  end.

(** *** Plain minimax

    The reference of the specification: the same search with the two
    [if (beta <= alpha) break] lines removed. *)
Fixpoint plainMaxLoop (rec : Move -> num -> num -> M num) (nextMoves : list Move)
    (maxEval alpha beta : num) : M num :=
  match nextMoves with
  | [] => ret maxEval
  | nextMove :: rest =>
      let! evaluation := rec nextMove alpha beta in
      let maxEval := num_max maxEval evaluation in
      let alpha := num_max alpha evaluation in
      plainMaxLoop rec rest maxEval alpha beta
  end.

Fixpoint plainMinLoop (rec : Move -> num -> num -> M num) (nextMoves : list Move)
    (minEval alpha beta : num) : M num :=
  match nextMoves with
  | [] => ret minEval
  | nextMove :: rest =>
      let! evaluation := rec nextMove alpha beta in
      let minEval := num_min minEval evaluation in
      let beta := num_min beta evaluation in
      plainMinLoop rec rest minEval alpha beta
  end.

Fixpoint plainMinimax (this : ChessBot) (move : Move) (depth : nat) (isMaximizing : bool)
    (alpha beta : num) : M num :=
  match depth with
  | O => let! v := evaluateMove this move in ret (Fin v)
  | S depth' =>
      let! tempGame := scratchGame this in
      let! _ := makeMove tempGame (from move) (to move) in
      let! newState := getGameState tempGame in
      let! ns := readState newState in
      if isCheckmate ns then
        ret (if isMaximizing then Fin (pts (-10000)) else Fin (pts 10000))
      else
        let nextColor := if isMaximizing then white else black in
        let! nextMoves := getAllLegalMoves tempGame nextColor in
        if isMaximizing then
          plainMaxLoop (fun nextMove a b => plainMinimax this nextMove depth' false a b)
                       nextMoves NegInf alpha beta
        else
          plainMinLoop (fun nextMove a b => plainMinimax this nextMove depth' true a b)
                       nextMoves PosInf alpha beta
  end.

Definition plainHardMove (this : ChessBot) (moves : list Move) (depth : nat)
  : M (option Move) :=
  bestLoop (fun move => plainMinimax this move (depth - 1) false NegInf PosInf)
           moves (head moves) NegInf.

End ChessBot.

(** A game whose private state holds the given position, as the search
    engine builds its own through [tempGame['gameState'] = ...]. *)
Definition gameAt (b : Board) (player : PieceColor) (history : list Move) : M loc :=
  let! bl := alloc (CBoard b) in
  let! lm := alloc (CSquares []) in
  let! mh := alloc (CMoves history) in
  let! gs := alloc (CState {| board := bl; currentPlayer := player; isCheck := false;
                              isCheckmate := false; isStalemate := false; gameOver := false;
                              selectedSquare := None; legalMoves := lm; moveHistory := mh;
                              difficulty := medium |}) in
  alloc (CGame gs).

(** * Reasoning about computations *)

(** [wp m h Q]: run from [h], [m] returns a value and a store that satisfy
    [Q]; in particular it does not throw. *)
Definition wp {A} (m : M A) (h : heap) (Q : A -> heap -> Prop) : Prop :=
  match m h with
  | Some (a, h') => Q a h'
  | None => False
  end.

(** Every cell allocated in [h] is still there, unchanged, in [h']. *)
Definition heap_ext (h h' : heap) : Prop :=
  (next h <= next h')%positive
  /\ forall l, (l < next h)%positive -> cells h' !! l = cells h !! l.

(** The same, but for the cells at the locations [ls]. *)
Definition same_except (ls : list loc) (h h' : heap) : Prop :=
  (next h <= next h')%positive
  /\ forall l, (l < next h)%positive -> l ∉ ls -> cells h' !! l = cells h !! l.


(** The rows that the loops of the engine index exist. *)
Definition rows_ok (b : Board) : Prop := (8 <= length b)%nat.

(** What the generators look at on a square: whether a piece stands there,
    and its colour. *)
Definition shade (b : Board) (pos : Position) : option (option PieceColor) :=
  match rd b pos with
  | Some (Some p) => Some (Some (color p))
  | Some None => Some None
  | None => None
  end.

(** A square that [own] may move to: on the board, and free or held by the
    other colour. *)
Definition okTarget (b : Board) (own : Piece) (m : Position) : Prop :=
  isValidPosition m = true
  /\ match rd b m with
     | Some None => True
     | Some (Some t) => color t <> color own
     | None => False
     end.

(** A generator's answer: it did not throw, and every square is one [own]
    may move to. *)
Definition total_ok (b : Board) (own : Piece) (r : option (list Position)) : Prop :=
  exists ms, r = Some ms /\ Forall (okTarget b own) ms.

(** ** What the queries compute, as functions of the board *)

Definition attacksFrom (b : Board) (side : PieceColor) (kp pos : Position) : bool :=
  match rd b pos with
  | Some (Some p) =>
      color_neq (color p) side
      && match pseudoMoves b pos with
         | Some ms => existsb (fun move => isSamePosition move kp) ms
         | None => false
         end
  | _ => false
  end.

Definition attacked (b : Board) (side : PieceColor) : bool :=
  match findKing b side allSquares with
  | Some (Some kp) => existsb (attacksFrom b side kp) allSquares
  | _ => false
  end.

(** The board that [wouldBeInCheck] tests. *)
Definition rawMove (b : Board) (from to : Position) : option Board :=
  moved ← rd b from;
  b1 ← setSq b to moved;
  setSq b1 from None.

Definition selfCheck (b : Board) (from to : Position) (side : PieceColor) : bool :=
  match rawMove b from to with
  | Some b' => attacked b' side
  | None => false
  end.

Definition legalOn (b : Board) (position : Position) : list Position :=
  match rd b position with
  | Some (Some p) =>
      match movesByType b position (type p) with
      | Some ms => filter (fun move => selfCheck b position move (color p) = false) ms
      | None => []
      end
  | _ => []
  end.

Definition allLegalOn (b : Board) (side : PieceColor) : list Move :=
  flat_map (fun pos =>
              match rd b pos with
              | Some (Some p) =>
                  if bool_decide (color p = side) then
                    map (fun move =>
                           {| from := pos; to := move; piece := p;
                              capturedPiece := match rd b move with Some t => t | None => None end;
                              promotion := None |})
                        (legalOn b pos)
                  else []
              | _ => []
              end)
           allSquares.

(** Two pieces that check detection for [side] cannot tell apart: the same
    colour, and the same kind unless both are pieces of [side] other than
    its king. *)
Definition alike (side : PieceColor) (p q : Piece) : Prop :=
  color p = color q
  /\ (type p = type q \/ (color p = side /\ type p <> king /\ type q <> king)).

Definition similar (side : PieceColor) (b1 b2 : Board) : Prop :=
  forall pos,
    match rd b1 pos, rd b2 pos with
    | None, None => True
    | Some None, Some None => True
    | Some (Some p), Some (Some q) => alike side p q
    | _, _ => False
    end.

(** The result of a loop with early [return], from what its body answers on
    each element. *)
Fixpoint firstSome {A B} (f : A -> option B) (xs : list A) : option B :=
  match xs with
  | [] => None
  | x :: rest => match f x with Some v => Some v | None => firstSome f rest end
  end.

(** The engine at [this] is in one piece: its instance, its state object,
    its board and its history are allocated cells of the right kinds, and
    the board has its rows. *)
Record game_ok (h : heap) (this gs : loc) (st : GameState) (b : Board) (hist : list Move)
  : Prop := {
  ok_game : cells h !! this = Some (CGame gs);
  ok_state : cells h !! gs = Some (CState st);
  ok_board : cells h !! board st = Some (CBoard b);
  ok_hist : cells h !! moveHistory st = Some (CMoves hist);
  ok_this_lt : (this < next h)%positive;
  ok_gs_lt : (gs < next h)%positive;
  ok_board_lt : (board st < next h)%positive;
  ok_hist_lt : (moveHistory st < next h)%positive;
  ok_rows : rows_ok b
}.

(** ** What the commands leave behind *)

Definition hasLegalMove (b : Board) (player : PieceColor) (pos : Position) : bool :=
  match rd b pos with
  | Some (Some p) =>
      bool_decide (color p = player) && (0 <? Z.of_nat (length (legalOn b pos)))
  | _ => false
  end.

(** The state object after [updateGameStatus]. *)
Definition statusAfter (b : Board) (st : GameState) : GameState :=
  let st1 := set_isCheck (attacked b (currentPlayer st)) st in
  if existsb (hasLegalMove b (currentPlayer st)) allSquares then st1
  else if isCheck st1 then set_gameOver true (set_isCheckmate true st1)
       else set_gameOver true (set_isStalemate true st1).

(** The board after the writes of [makeMove]. *)
Definition movedBoard (b : Board) (from to : Position) (p : Piece) : option Board :=
  b1 ← setSq b to (Some {| type := type p; color := color p; hasMoved := true |});
  b2 ← setSq b1 from None;
  if promotes p to
  then setSq b2 to (Some {| type := queen; color := color p; hasMoved := true |})
  else Some b2.

(** The [Move] that [makeMove] pushes onto the history. *)
Definition recorded (b : Board) (from to : Position) (p : Piece) : Move :=
  {| from := from; to := to; piece := p;
     capturedPiece := match rd b to with Some t => t | None => None end;
     promotion := if promotes p to then Some queen else None |}.

(** The state object after an accepted [makeMove]; [lm] is the new, empty
    [legalMoves] array. *)
Definition movedState (b' : Board) (lm : loc) (st : GameState) : GameState :=
  statusAfter b'
    (set_legalMoves lm
       (set_selectedSquare None
          (set_currentPlayer (getOppositeColor (currentPlayer st)) st))).

(** The piece that [makeMove] puts on the destination square. *)
Definition placed (p : Piece) (to : Position) : Piece :=
  {| type := if promotes p to then queen else type p; color := color p; hasMoved := true |}.

(** [side] has a king somewhere on the grid. *)
Definition hasKing (b : Board) (side : PieceColor) : Prop :=
  exists pos p, rd b pos = Some (Some p) /\ type p = king /\ color p = side.

(** The board that [isKingInCheck] looks at is [b]: the one passed, or the
    engine's own. *)
Definition checks (h : heap) (this : loc) (boardArg : option loc) (b : Board) : Prop :=
  match boardArg with
  | Some l => cells h !! l = Some (CBoard b) /\ (l < next h)%positive
  | None =>
      exists gs st,
        cells h !! this = Some (CGame gs) /\ cells h !! gs = Some (CState st)
        /\ cells h !! board st = Some (CBoard b) /\ (board st < next h)%positive
  end.

(** Everything the engine at [this] owns: the fields of its state object and
    the contents of its board, of its [legalMoves] and of its history. *)
Definition view (this : loc) (h : heap)
  : option (GameState * Board * list Position * list Move) :=
  match cells h !! this with
  | Some (CGame gs) =>
      match cells h !! gs with
      | Some (CState st) =>
          match cells h !! board st, cells h !! legalMoves st, cells h !! moveHistory st with
          | Some (CBoard b), Some (CSquares lms), Some (CMoves hist) => Some (st, b, lms, hist)
          | _, _, _ => None
          end
      | _ => None
      end
  | _ => None
  end.

(** The heap after [new ChessGame()] in the empty store: the instance is at
    5, its state object at 4, the board at 1, [legalMoves] at 2 and the
    history at 3. *)
Definition freshHeap : heap :=
  match newChessGame emptyHeap with
  | Some (_, h) => h
  | None => emptyHeap
  end.

Definition freshState : GameState :=
  {| board := 1%positive; currentPlayer := white; isCheck := false; isCheckmate := false;
     isStalemate := false; gameOver := false; selectedSquare := None;
     legalMoves := 2%positive; moveHistory := 3%positive; difficulty := medium |}.

(** [this.gameState.moveHistory.length], as the interface shows it. *)
Definition historyLength (this : loc) : M nat :=
  let! gs := readGame this in
  let! st := readState gs in
  let! hist := readMoves (moveHistory st) in
  ret (length hist).

(** A position with four pieces: black pawns on a6 and g3, the black king
    on e3, the white king on h1. *)
Definition bp : option Piece := Some {| type := pawn; color := black; hasMoved := true |}.
Definition bk : option Piece := Some {| type := king; color := black; hasMoved := true |}.
Definition wk : option Piece := Some {| type := king; color := white; hasMoved := true |}.
Definition fourPieces : Board :=
  [ replicate 8 None;
    replicate 8 None;
    [bp; None; None; None; None; None; None; None];
    replicate 8 None;
    replicate 8 None;
    [None; None; None; None; bk; None; bp; None];
    replicate 8 None;
    [None; None; None; None; None; None; None; wk] ].

(** The square named by its row and column. *)
Definition sq (r c : Z) : Position := {| row := r; col := c |}.

(** ** Vocabulary for the geometry of the generators *)

(** The square [i] steps from [position] in direction [d]. *)
Definition ray (position : Position) (d : Z * Z) (i : Z) : Position :=
  {| row := row position + i * fst d; col := col position + i * snd d |}.

(** The squares strictly between [position] and its [i]-th square in
    direction [d] are on the board and empty. *)
Definition clearTo (b : Board) (position : Position) (d : Z * Z) (i : Z) : Prop :=
  forall j, 1 <= j < i ->
            isValidPosition (ray position d j) = true /\ rd b (ray position d j) = Some None.

(** A sliding move of [own] from [position]: some number of steps along one
    of [directions], over empty squares, onto a square [own] may take. *)
Definition slidesTo (b : Board) (position : Position) (own : Piece)
    (directions : list (Z * Z)) (m : Position) : Prop :=
  exists d i, d ∈ directions /\ 1 <= i <= 7 /\ m = ray position d i
              /\ clearTo b position d i /\ okTarget b own m.

(** A single step of [own] from [position] by one of [offsets]. *)
Definition stepsTo (b : Board) (position : Position) (own : Piece)
    (offsets : list (Z * Z)) (m : Position) : Prop :=
  exists d, d ∈ offsets /\ m = ray position d 1 /\ okTarget b own m.

(** The direction in which pawns of a colour advance, and their starting
    row. *)
Definition pawnDirection (c : PieceColor) : Z := match c with white => -1 | black => 1 end.
Definition pawnStartRow (c : PieceColor) : Z := match c with white => 6 | black => 1 end.

(** The three kinds of pawn move from [position]: one square forward onto
    an empty square; two squares forward from the starting row over and onto
    empty squares; one square diagonally forward onto an opposing piece. *)
Definition pawnMovesTo (b : Board) (position : Position) (own : Piece) (m : Position) : Prop :=
  let dir := pawnDirection (color own) in
  let one := {| row := row position + dir; col := col position |} in
  let two := {| row := row position + 2 * dir; col := col position |} in
  (m = one /\ isValidPosition one = true /\ rd b one = Some None)
  \/ (m = two /\ row position = pawnStartRow (color own)
      /\ isValidPosition one = true /\ rd b one = Some None
      /\ isValidPosition two = true /\ rd b two = Some None)
  \/ (exists off, (off = -1 \/ off = 1)
                  /\ m = {| row := row position + dir; col := col position + off |}
                  /\ isValidPosition m = true
                  /\ exists t, rd b m = Some (Some t) /\ color t <> color own).

(** The two assignments of the "select piece" branches of [selectSquare] (lines 70-71 and
    79-80 of ChessGame.ts). *)
Definition selectPiece (this gs : loc) (position : Position) : M unit :=
  let! _ := modifyState gs (set_selectedSquare (Some position)) in
  let! moves := getLegalMoves this position in
  let! lm := alloc (CSquares moves) in
  modifyState gs (set_legalMoves lm).

(** The selection is consistent: [legalMoves] is an allocated array holding
    the legal destinations of the selected square on the current board, and
    is empty when nothing is selected. *)
Definition selection_ok (h : heap) (st : GameState) (b : Board) : Prop :=
  (legalMoves st < next h)%positive
  /\ cells h !! legalMoves st
     = Some (CSquares (match selectedSquare st with
                       | Some s => legalOn b s
                       | None => []
                       end)).

(** ** Vocabulary for the search engine *)

(** What [evaluateMove] computes from the move and the history. *)
Definition staticScore (move : Move) (hist : list Move) : option Z :=
  pv ← ChessBot.getPositionValue (piece move) (to move);
  let score := match capturedPiece move with
               | Some c => ChessBot.getPieceValue c
               | None => 0
               end + pv in
  let score :=
    if Z.of_nat (length hist) <? 10 then
      score - pts (Z.of_nat (length (filter (fun m => type (piece m) = type (piece move)
                                                      /\ color (piece m) = color (piece move))
                                            hist)) * 10)
    else score in
  let score := if ChessBot.isCenter (to move) then score + pts 20 else score in
  let score :=
    if bool_decide (type (piece move) = king) && (Z.of_nat (length hist) <? 15)
    then score - pts 50 else score in
  Some score.

(** The move that the loop of [getHardMove] keeps, from the moves and the
    scores computed for them, starting with [bestMove] and [bestScore]. *)
Fixpoint bestOf (scored : list (Move * num)) (bestMove : option Move) (bestScore : num)
  : option Move :=
  match scored with
  | [] => bestMove
  | (m, s) :: rest =>
      if num_ltb bestScore s then bestOf rest (Some m) s
      else bestOf rest bestMove bestScore
  end.

(** ** utils.ts, the rest *)

(** [(row + col) % 2 === 0 ? 'light' : 'dark'] for two integers: the sum
    is the double nearest to their sum, and [%] is the remainder of the
    truncated division. *)
Inductive SquareColor := light | dark.
Definition getSquareColor (r c : Z) : SquareColor :=
  if Z.rem (Qfloor (roundDouble (inject_Z (r + c)))) 2 =? 0 then light else dark.

(** The static score of a move, [0] where [evaluateMove] would throw. *)
Definition scoreOf (hist : list Move) (move : Move) : Z :=
  match staticScore move hist with Some v => v | None => 0 end.

(** A value that [Math.random] can return: a double that is at least 0 and
    less than 1. *)
Definition isDraw (r : Q) : Prop := (0 <= r)%Q /\ (r < 1)%Q /\ (roundDouble r == r)%Q.

(** The best static score among [moves], and the moves that [getMediumMove]
    draws from: those within 50 points of it. *)
Definition bestStatic (hist : list Move) (moves : list Move) : num :=
  foldl (fun acc move =>
           if num_ltb acc (Fin (scoreOf hist move)) then Fin (scoreOf hist move) else acc)
        NegInf moves.
Definition goodMoves (hist : list Move) (moves : list Move) : list Move :=
  filter (fun m => num_leb (num_add (bestStatic hist moves) (- pts 50))
                           (Fin (scoreOf hist m)) = true)
         moves.

(** ** Further positions *)

(** The heap and the state object that [gameAt] builds from an empty heap:
    the instance is cell 5 and its state object cell 4. *)
Definition heapAt (b : Board) (player : PieceColor) : heap :=
  match gameAt b player [] emptyHeap with
  | Some (_, h) => h
  | None => emptyHeap
  end.
Definition stateAt (player : PieceColor) : GameState :=
  {| board := 1%positive; currentPlayer := player; isCheck := false; isCheckmate := false;
     isStalemate := false; gameOver := false; selectedSquare := None;
     legalMoves := 2%positive; moveHistory := 3%positive; difficulty := medium |}.

(** Black to move and stalemated: the black king on a8, the white queen on
    c7, the white king on h1. *)
Definition stalemated : Board :=
  [ [bk; None; None; None; None; None; None; None];
    [None; None; Some {| type := queen; color := white; hasMoved := true |};
     None; None; None; None; None];
    replicate 8 None;
    replicate 8 None;
    replicate 8 None;
    replicate 8 None;
    replicate 8 None;
    [None; None; None; None; None; None; None; wk] ].

(** The move with its destination reflected in the vertical axis of the
    board (columns a..h become h..a). *)
Definition mirrorMove (move : Move) : Move :=
  {| from := from move;
     to := {| row := row (to move); col := 7 - col (to move) |};
     piece := piece move;
     capturedPiece := capturedPiece move;
     promotion := promotion move |}.

(** White to move and mate in one: the black king on a8, the white king on
    b6, the white queen on h7 (Qh7-b7 mates). *)
Definition mateInOne : Board :=
  [ [bk; None; None; None; None; None; None; None];
    [None; None; None; None; None; None; None;
     Some {| type := queen; color := white; hasMoved := true |}];
    [None; wk; None; None; None; None; None; None];
    replicate 8 None;
    replicate 8 None;
    replicate 8 None;
    replicate 8 None;
    replicate 8 None ].

(** A board on which white has no king: the black king on a8, a black rook
    on e8 and a white pawn on e2. *)
Definition noWhiteKing : Board :=
  [ [bk; None; None; None;
     Some {| type := rook; color := black; hasMoved := false |}; None; None; None];
    replicate 8 None;
    replicate 8 None;
    replicate 8 None;
    replicate 8 None;
    replicate 8 None;
    [None; None; None; None; mk pawn white; None; None; None];
    replicate 8 None ].

(** ** The search as a function of the position

    Once the history holds fifteen moves [evaluateMove] no longer reads it,
    and what [minimax] returns is a function of the engine's board and state
    object.  Every node of the search applies its move to a copy of the
    engine's own board. *)

(** The board of the temporary game of a node after its [makeMove]: the
    engine's board with the move made, or unchanged when the source square
    is empty and [makeMove] answers [false]. *)
Definition scratchBoard (b : Board) (move : Move) : option Board :=
  match rd b (from move) with
  | Some (Some p) => movedBoard b (from move) (to move) p
  | Some None => Some b
  | None => None
  end.

(** The [isCheckmate] flag that [updateGameStatus] leaves on a state whose
    player has just been switched, on the board [b']. *)
Definition mateAfter (b' : Board) (st : GameState) : bool :=
  isCheckmate (statusAfter b' (set_currentPlayer (getOppositeColor (currentPlayer st)) st)).

(** [newState.isCheckmate] in a node. *)
Definition scratchMate (b : Board) (st : GameState) (move : Move) : bool :=
  match rd b (from move) with
  | Some (Some p) =>
      match movedBoard b (from move) (to move) p with
      | Some b' => mateAfter b' st
      | None => isCheckmate st
      end
  | _ => isCheckmate st
  end.

(** The two loops of [minimax], with the [break]. *)
Fixpoint pureMaxLoop (rec : Move -> num -> num -> num) (nextMoves : list Move)
    (maxEval alpha beta : num) : num :=
  match nextMoves with
  | [] => maxEval
  | nextMove :: rest =>
      let evaluation := rec nextMove alpha beta in
      let maxEval := num_max maxEval evaluation in
      let alpha := num_max alpha evaluation in
      if num_leb beta alpha then maxEval
      else pureMaxLoop rec rest maxEval alpha beta
  end.

Fixpoint pureMinLoop (rec : Move -> num -> num -> num) (nextMoves : list Move)
    (minEval alpha beta : num) : num :=
  match nextMoves with
  | [] => minEval
  | nextMove :: rest =>
      let evaluation := rec nextMove alpha beta in
      let minEval := num_min minEval evaluation in
      let beta := num_min beta evaluation in
      if num_leb beta alpha then minEval
      else pureMinLoop rec rest minEval alpha beta
  end.

(** What a node answers when the scratch state is flagged checkmate. *)
Definition mateScore (isMaximizing : bool) : num :=
  if isMaximizing then Fin (pts (-10000)) else Fin (pts 10000).

(** [minimax] with alpha-beta, on the board [b] and the state [st], with
    [leaf] for [evaluateMove]. *)
Fixpoint alphaBeta (b : Board) (st : GameState) (leaf : Move -> num)
    (depth : nat) (move : Move) (isMaximizing : bool) (alpha beta : num) : num :=
  match depth with
  | O => leaf move
  | S depth' =>
      match scratchBoard b move with
      | None => leaf move
      | Some b' =>
          if scratchMate b st move then mateScore isMaximizing
          else if isMaximizing then
            pureMaxLoop (fun nextMove a c => alphaBeta b st leaf depth' nextMove false a c)
                        (allLegalOn b' white) NegInf alpha beta
          else
            pureMinLoop (fun nextMove a c => alphaBeta b st leaf depth' nextMove true a c)
                        (allLegalOn b' black) PosInf alpha beta
      end
  end.

(** The same search without the two [break]s. *)
Fixpoint plainSearch (b : Board) (st : GameState) (leaf : Move -> num)
    (depth : nat) (move : Move) (isMaximizing : bool) : num :=
  match depth with
  | O => leaf move
  | S depth' =>
      match scratchBoard b move with
      | None => leaf move
      | Some b' =>
          if scratchMate b st move then mateScore isMaximizing
          else if isMaximizing then
            foldl (fun acc nextMove =>
                     num_max acc (plainSearch b st leaf depth' nextMove false))
                  NegInf (allLegalOn b' white)
          else
            foldl (fun acc nextMove =>
                     num_min acc (plainSearch b st leaf depth' nextMove true))
                  PosInf (allLegalOn b' black)
      end
  end.

(** The order of the numbers, as propositions. *)
Definition nle (x y : num) : Prop := num_leb x y = true.
Definition nlt (x y : num) : Prop := num_ltb x y = true.

(** What a search with the window [(alpha, beta)] tells about the true
    value [v]: its answer [r] is the value when it lies inside the window,
    a bound from above when it is at most [alpha], a bound from below when
    it is at least [beta]. *)
Definition withinWindow (r v alpha beta : num) : Prop :=
  (nle r alpha -> nle v r)
  /\ (nlt alpha r -> nlt r beta -> v = r)
  /\ (nle beta r -> nle r v).

(** A move whose two squares are on the board. *)
Definition onBoard (move : Move) : Prop :=
  isValidPosition (from move) = true /\ isValidPosition (to move) = true.

(** What [evaluateMove] answers once the history holds fifteen moves: the
    value of the captured piece, the table entry of the destination and the
    bonus for the centre. *)
Definition settledScore (move : Move) : Z :=
  match capturedPiece move with
  | Some c => ChessBot.getPieceValue c
  | None => 0
  end
  + match ChessBot.getPositionValue (piece move) (to move) with
    | Some pv => pv
    | None => 0
    end
  + (if ChessBot.isCenter (to move) then pts 20 else 0).

Definition settledLeaf (move : Move) : num := Fin (settledScore move).

(** The loop of [getHardMove] over scores given by a function. *)
Fixpoint pureBestLoop (score : Move -> num) (moves : list Move)
    (bestMove : option Move) (bestScore : num) : option Move :=
  match moves with
  | [] => bestMove
  | move :: rest =>
      if num_ltb bestScore (score move) then pureBestLoop score rest (Some move) (score move)
      else pureBestLoop score rest bestMove bestScore
  end.

(** The engine's state object is [st] and its board [b], and its history
    holds fifteen moves or more. *)
Definition settled (bot : ChessBot.ChessBot) (gs : loc) (st : GameState) (b : Board)
    (h : heap) : Prop :=
  exists hist, game_ok h (ChessBot.game bot) gs st b hist /\ (15 <= length hist)%nat.

(** A game after fifteen moves of play: both sides move a knight out and
    back three times and once more out, white the king's and black the
    queen's, then white plays e2-e4. *)
Definition knightsOutAndBack : M loc :=
  let out_and_back g :=
    let! _ := makeMove g (sq 7 6) (sq 5 5) in
    let! _ := makeMove g (sq 0 1) (sq 2 2) in
    let! _ := makeMove g (sq 5 5) (sq 7 6) in
    let! _ := makeMove g (sq 2 2) (sq 0 1) in
    ret tt in
  let! g := newChessGame in
  let! _ := out_and_back g in
  let! _ := out_and_back g in
  let! _ := out_and_back g in
  let! _ := makeMove g (sq 7 6) (sq 5 5) in
  let! _ := makeMove g (sq 0 1) (sq 2 2) in
  let! _ := makeMove g (sq 6 4) (sq 4 4) in
  ret g.

Definition afterFifteenMoves : heap :=
  match knightsOutAndBack emptyHeap with
  | Some (_, h) => h
  | None => emptyHeap
  end.
Lemma wp_elim {A} (m : M A) h Q :
  wp m h Q -> exists a h', m h = Some (a, h') /\ Q a h'.
Proof.
  unfold wp. destruct (m h) as [[a h']|]; [eauto | tauto].
Qed.

Lemma wp_intro {A} (m : M A) h a h' (Q : A -> heap -> Prop) :
  m h = Some (a, h') -> Q a h' -> wp m h Q.
Proof. unfold wp. intros ->. auto. Qed.

Lemma wp_mono {A} (m : M A) h (Q Q' : A -> heap -> Prop) :
  wp m h Q -> (forall a h', Q a h' -> Q' a h') -> wp m h Q'.
Proof.
  unfold wp. destruct (m h) as [[a h']|]; [auto | tauto].
Qed.

Lemma wp_ret {A} (a : A) h (Q : A -> heap -> Prop) : Q a h -> wp (ret a) h Q.
Proof. auto. Qed.

Lemma wp_bind {A B} (m : M A) (f : A -> M B) h Q :
  wp m h (fun a h' => wp (f a) h' Q) -> wp (bind m f) h Q.
Proof.
  unfold wp, bind. destruct (m h) as [[a h']|]; [auto | tauto].
Qed.

Lemma wp_lift {A} (o : option A) a h (Q : A -> heap -> Prop) :
  o = Some a -> Q a h -> wp (lift o) h Q.
Proof. intros ->. auto. Qed.

Lemma wp_load l c h (Q : cell -> heap -> Prop) :
  cells h !! l = Some c -> Q c h -> wp (load l) h Q.
Proof. unfold wp, load. intros ->. auto. Qed.

Lemma wp_alloc c h (Q : loc -> heap -> Prop) :
  Q (next h) {| cells := <[next h := c]> (cells h); next := Pos.succ (next h) |} ->
  wp (alloc c) h Q.
Proof. auto. Qed.

Lemma wp_store l c h (Q : unit -> heap -> Prop) :
  Q tt {| cells := <[l := c]> (cells h); next := next h |} -> wp (store l c) h Q.
Proof. auto. Qed.

Lemma wp_readGame l gs h (Q : loc -> heap -> Prop) :
  cells h !! l = Some (CGame gs) -> Q gs h -> wp (readGame l) h Q.
Proof. intros E HQ. apply wp_bind. eapply wp_load; [exact E | exact HQ]. Qed.

Lemma wp_readState l st h (Q : GameState -> heap -> Prop) :
  cells h !! l = Some (CState st) -> Q st h -> wp (readState l) h Q.
Proof. intros E HQ. apply wp_bind. eapply wp_load; [exact E | exact HQ]. Qed.

Lemma wp_readBoard l b h (Q : Board -> heap -> Prop) :
  cells h !! l = Some (CBoard b) -> Q b h -> wp (readBoard l) h Q.
Proof. intros E HQ. apply wp_bind. eapply wp_load; [exact E | exact HQ]. Qed.

Lemma wp_readSquares l sqs h (Q : list Position -> heap -> Prop) :
  cells h !! l = Some (CSquares sqs) -> Q sqs h -> wp (readSquares l) h Q.
Proof. intros E HQ. apply wp_bind. eapply wp_load; [exact E | exact HQ]. Qed.

Lemma wp_readMoves l ms h (Q : list Move -> heap -> Prop) :
  cells h !! l = Some (CMoves ms) -> Q ms h -> wp (readMoves l) h Q.
Proof. intros E HQ. apply wp_bind. eapply wp_load; [exact E | exact HQ]. Qed.

Lemma wp_modifyState l st f h (Q : unit -> heap -> Prop) :
  cells h !! l = Some (CState st) ->
  Q tt {| cells := <[l := CState (f st)]> (cells h); next := next h |} ->
  wp (modifyState l f) h Q.
Proof.
  intros E HQ. apply wp_bind. eapply wp_readState; [exact E|]. now apply wp_store.
Qed.

Lemma heap_ext_refl h : heap_ext h h.
Proof. split; [lia | auto]. Qed.

Lemma heap_ext_trans h1 h2 h3 : heap_ext h1 h2 -> heap_ext h2 h3 -> heap_ext h1 h3.
Proof.
  intros [L1 E1] [L2 E2]. split; [lia|].
  intros l Hl. rewrite E2 by lia. now apply E1.
Qed.

Lemma heap_ext_alloc h c :
  heap_ext h {| cells := <[next h := c]> (cells h); next := Pos.succ (next h) |}.
Proof.
  split; simpl; [lia|]. intros l Hl. apply lookup_insert_ne. lia.
Qed.

(** Writing a cell that [h0] had not allocated keeps [h0]'s cells. *)
Lemma heap_ext_store_new h0 h l c :
  heap_ext h0 h -> (next h0 <= l)%positive ->
  heap_ext h0 {| cells := <[l := c]> (cells h); next := next h |}.
Proof.
  intros [L E] Hl. split; simpl; [lia|].
  intros l' Hl'. rewrite lookup_insert_ne by lia. now apply E.
Qed.

Lemma heap_ext_lookup h h' l c :
  heap_ext h h' -> (l < next h)%positive -> cells h !! l = Some c -> cells h' !! l = Some c.
Proof. intros [_ E] Hl Hc. now rewrite E. Qed.

Lemma heap_ext_same_except ls h h' : heap_ext h h' -> same_except ls h h'.
Proof. intros [L E]. split; auto. Qed.

Lemma same_except_refl ls h : same_except ls h h.
Proof. split; [lia | auto]. Qed.

Lemma same_except_trans ls h1 h2 h3 :
  same_except ls h1 h2 -> same_except ls h2 h3 -> same_except ls h1 h3.
Proof.
  intros [L1 E1] [L2 E2]. split; [lia|].
  intros l' Hl Hn. rewrite E2 by (auto; lia). now apply E1.
Qed.

Lemma same_except_store ls l c h :
  l ∈ ls -> same_except ls h {| cells := <[l := c]> (cells h); next := next h |}.
Proof.
  intros Hin. split; simpl; [lia|]. intros l' _ Hn.
  apply lookup_insert_ne. intros ->. done.
Qed.

Lemma same_except_nil h h' : same_except [] h h' -> heap_ext h h'.
Proof.
  intros [L E]. split; [done|]. intros l Hl. apply E; [done|]. apply not_elem_of_nil.
Qed.

(** ** The grid *)

Lemma obind_Some {A B} (a : A) (f : A -> option B) : (Some a ≫= f) = f a.
Proof. reflexivity. Qed.

Lemma copyBoard_id b : copyBoard b = b.
Proof.
  unfold copyBoard. rewrite <- (map_id b) at 2. apply map_ext. intros rw.
  rewrite <- (map_id rw) at 2. apply map_ext. now intros [q|].
Qed.

Lemma isValidPosition_spec pos :
  isValidPosition pos = true <-> 0 <= row pos < 8 /\ 0 <= col pos < 8.
Proof. unfold isValidPosition. lia. Qed.

Lemma rd_valid b pos :
  rows_ok b -> isValidPosition pos = true -> exists t, rd b pos = Some t.
Proof.
  intros Hb Hv. apply isValidPosition_spec in Hv. unfold rd.
  destruct (Z.ltb_spec (row pos) 0); [lia|].
  destruct (lookup_lt_is_Some_2 b (Z.to_nat (row pos))) as [rw ->]; [unfold rows_ok in Hb; lia|].
  eauto.
Qed.

Lemma rd_piece_Some b pos p : rd_piece b pos = Some p <-> rd b pos = Some (Some p).
Proof.
  unfold rd_piece. destruct (rd b pos) as [[q|]|]; split; congruence.
Qed.

Lemma position_eq pos pos' :
  row pos = row pos' -> col pos = col pos' -> pos = pos'.
Proof. destruct pos, pos'; simpl; congruence. Qed.

(** Reading column [c'] of a row after the write of [v] at column [c]. *)
Lemma row_write (rw : list (option Piece)) (c c' : nat) (v : option Piece) :
  (if decide (c < length rw)%nat then <[c := v]> rw
   else rw ++ replicate (c - length rw) None ++ [v]) !! c'
  = if decide (c' = c) then Some v
    else match rw !! c' with Some x => Some x | None =>
           if decide (c' < c)%nat then Some None else None end.
Proof.
  destruct (decide (c < length rw)%nat) as [Hc|Hc].
  - destruct (decide (c' = c)) as [->|Hne].
    + now apply list_lookup_insert_eq.
    + rewrite list_lookup_insert_ne by congruence.
      destruct (rw !! c') eqn:E; [done|].
      apply lookup_ge_None_1 in E. destruct (decide (c' < c)%nat); [lia | done].
  - destruct (decide (c' < length rw)%nat) as [Hlt|Hge].
    + rewrite lookup_app_l by done.
      destruct (decide (c' = c)); [lia|].
      destruct (lookup_lt_is_Some_2 rw c' Hlt) as [x ->]. done.
    + rewrite lookup_app_r by lia.
      rewrite (lookup_ge_None_2 rw c') by lia.
      destruct (decide (c' = c)) as [->|Hne].
      * rewrite lookup_app_r by (rewrite length_replicate; lia).
        rewrite length_replicate. now replace (c - length rw - (c - length rw))%nat with 0%nat by lia.
      * destruct (decide (c' < c)%nat).
        -- rewrite lookup_app_l by (rewrite length_replicate; lia).
           apply lookup_replicate_2. lia.
        -- apply lookup_ge_None_2. rewrite length_app, length_replicate. simpl. lia.
Qed.

Lemma rd_setSq b pos v b' pos' :
  setSq b pos v = Some b' ->
  rd b' pos' = if decide (pos' = pos) then Some v else rd b pos'.
Proof.
  unfold setSq, rd.
  destruct (Z.ltb_spec (row pos) 0) as [|Hr]; [discriminate|].
  destruct (b !! Z.to_nat (row pos)) as [rw|] eqn:Erw; simpl; [|discriminate].
  destruct (Z.ltb_spec (col pos) 0) as [|Hc]; [discriminate|].
  intros [= <-].
  destruct (Z.ltb_spec (row pos') 0) as [Hr'|Hr'].
  { destruct (decide (pos' = pos)) as [->|]; [lia | done]. }
  destruct (decide (Z.to_nat (row pos') = Z.to_nat (row pos))) as [Er|Er].
  - rewrite Er, list_lookup_insert_eq by (eapply lookup_lt_Some; eauto).
    rewrite Erw.
    destruct (Z.ltb_spec (col pos') 0) as [Hc'|Hc'].
    { destruct (decide (pos' = pos)) as [->|]; [lia | done]. }
    rewrite row_write.
    destruct (decide (Z.to_nat (col pos') = Z.to_nat (col pos))) as [Ec|Ec].
    + destruct (decide (pos' = pos)) as [_|N]; [|destruct N; apply position_eq; lia].
      now destruct v.
    + destruct (decide (pos' = pos)) as [E|_]; [destruct Ec; now rewrite E|].
      destruct (rw !! Z.to_nat (col pos')) as [[x|]|]; try done.
      now destruct (decide _).
  - rewrite list_lookup_insert_ne by congruence.
    destruct (decide (pos' = pos)) as [E|_]; [destruct Er; now rewrite E | done].
Qed.

Lemma setSq_rows_ok b pos v b' : setSq b pos v = Some b' -> rows_ok b -> rows_ok b'.
Proof.
  unfold setSq, rows_ok.
  destruct (row pos <? 0); [discriminate|].
  destruct (b !! Z.to_nat (row pos)); simpl; [|discriminate].
  destruct (col pos <? 0); [discriminate|].
  intros [= <-]. now rewrite length_insert.
Qed.

(** A write succeeds on a square whose row exists and whose column is not
    negative. *)
Lemma setSq_total b pos v t :
  rd b pos = Some t -> 0 <= col pos -> exists b', setSq b pos v = Some b'.
Proof.
  unfold rd, setSq.
  destruct (row pos <? 0); [discriminate|].
  destruct (b !! Z.to_nat (row pos)); simpl; [|discriminate].
  intros _ Hc. destruct (Z.ltb_spec (col pos) 0); [lia|]. eauto.
Qed.

Lemma rd_Some_col b pos p : rd b pos = Some (Some p) -> 0 <= col pos.
Proof.
  unfold rd.
  destruct (row pos <? 0); [discriminate|].
  destruct (b !! Z.to_nat (row pos)); [|discriminate].
  destruct (Z.ltb_spec (col pos) 0); [discriminate | lia].
Qed.
(** ** Rounding to double *)

Lemma two_pow_pos e : (0 < 2 ^ e)%Q.
Proof. now apply Qpower_0_lt. Qed.

Lemma two_pow_add a b : (2 ^ (a + b) == 2 ^ a * 2 ^ b)%Q.
Proof. now apply Qpower_plus. Qed.

Lemma two_pow_inject n : 0 <= n -> (inject_Z (2 ^ n) == 2 ^ n)%Q.
Proof. intros Hn. now rewrite Zpower_Qpower. Qed.

Lemma two_pow_le a b : a <= b -> (2 ^ a <= 2 ^ b)%Q.
Proof. intros H. now apply Qpower_le_compat_l. Qed.

Lemma two_pow_lt_inv a b : (2 ^ a < 2 ^ b)%Q -> a < b.
Proof. intros H. now apply (Qpower_lt_compat_l_inv 2). Qed.

Lemma two_pow_cancel a : (2 ^ a * 2 ^ (- a) == 1)%Q.
Proof. rewrite <- two_pow_add. now replace (a + - a) with 0 by lia. Qed.

Lemma roundEven_bounds q :
  (q - (1 # 2) <= inject_Z (roundEven q) /\ inject_Z (roundEven q) <= q + (1 # 2))%Q.
Proof.
  unfold roundEven.
  pose proof (Qfloor_le q) as Hlo. pose proof (Qlt_floor q) as Hhi.
  rewrite inject_Z_plus in Hhi.
  assert (H1 : (inject_Z 1 == 1)%Q) by reflexivity.
  destruct (q - inject_Z (Qfloor q) ?= 1 # 2)%Q eqn:E.
  - apply Qeq_alt in E.
    destruct (Z.even (Qfloor q)); rewrite ?inject_Z_plus; change (inject_Z 1) with 1%Q in *; lra.
  - apply Qlt_alt in E. change (inject_Z 1) with 1%Q in *. lra.
  - apply Qgt_alt in E. rewrite inject_Z_plus. change (inject_Z 1) with 1%Q in *. lra.
Qed.

Lemma roundEven_inject q z : (q == inject_Z z)%Q -> roundEven q = z.
Proof.
  intros H. unfold roundEven.
  assert (Hf : Qfloor q = z) by (rewrite H; apply Qfloor_Z).
  rewrite Hf.
  assert (E : (q - inject_Z z ?= 1 # 2)%Q = Lt).
  { apply Qlt_alt. rewrite H. unfold Qminus. rewrite Qplus_opp_r. reflexivity. }
  now rewrite E.
Qed.

Lemma roundEven_le q z : (q <= inject_Z z)%Q -> roundEven q <= z.
Proof.
  intros H. destruct (Qlt_le_dec q (inject_Z z)) as [Hlt|Hge].
  - pose proof (Qfloor_le q) as Hlo.
    assert (Hfl : Qfloor q < z).
    { rewrite Zlt_Qlt. lra. }
    unfold roundEven.
    destruct (q - inject_Z (Qfloor q) ?= 1 # 2)%Q; [destruct (Z.even _)| |]; lia.
  - rewrite (roundEven_inject q z); [lia|]. lra.
Qed.

Lemma roundEven_ge q z : (inject_Z z <= q)%Q -> z <= roundEven q.
Proof.
  intros H. assert (Hfl : z <= Qfloor q).
  { rewrite <- (Qfloor_Z z). now apply Qfloor_resp_le. }
  unfold roundEven.
  destruct (q - inject_Z (Qfloor q) ?= 1 # 2)%Q; [destruct (Z.even _)| |]; lia.
Qed.

Lemma binade_bounds q : (0 < q)%Q -> (2 ^ binade q <= q /\ q < 2 ^ (binade q + 1))%Q.
Proof.
  intros Hq. destruct q as [a b]. unfold binade. cbn [Qnum Qden].
  assert (Ha : 0 < a) by (unfold Qlt in Hq; simpl in Hq; lia).
  set (la := Z.log2 a). set (lb := Z.log2 (Z.pos b)).
  pose proof (Z.log2_nonneg a) as Hla0. pose proof (Z.log2_nonneg (Z.pos b)) as Hlb0.
  destruct (Z.log2_spec a Ha) as [Hla1 Hla2].
  destruct (Z.log2_spec (Z.pos b) ltac:(lia)) as [Hlb1 Hlb2].
  fold la in Hla0, Hla1, Hla2. fold lb in Hlb0, Hlb1, Hlb2.
  replace (Z.succ la) with (la + 1) in Hla2 by lia.
  replace (Z.succ lb) with (lb + 1) in Hlb2 by lia.
  assert (Hab : (a # b == inject_Z a / inject_Z (Z.pos b))%Q) by apply Qmake_Qdiv.
  assert (Hb0 : (0 < inject_Z (Z.pos b))%Q) by (unfold Qlt; simpl; lia).
  assert (HA : (2 ^ (la - lb - 1) < a # b)%Q).
  { rewrite Hab. apply Qlt_shift_div_l; [exact Hb0|].
    apply Qlt_le_trans with (2 ^ (la - lb - 1) * 2 ^ (lb + 1))%Q.
    - apply Qmult_lt_l; [apply two_pow_pos|].
      rewrite <- two_pow_inject by lia. now rewrite <- Zlt_Qlt.
    - rewrite <- two_pow_add. replace (la - lb - 1 + (lb + 1)) with la by lia.
      rewrite <- two_pow_inject by lia. now rewrite <- Zle_Qle. }
  assert (HB : (a # b < 2 ^ (la - lb + 1))%Q).
  { rewrite Hab. apply Qlt_shift_div_r; [exact Hb0|].
    apply Qlt_le_trans with (2 ^ (la - lb + 1) * 2 ^ lb)%Q.
    - rewrite <- two_pow_add. replace (la - lb + 1 + lb) with (la + 1) by lia.
      rewrite <- two_pow_inject by lia. now rewrite <- Zlt_Qlt.
    - apply Qmult_le_l; [apply two_pow_pos|].
      rewrite <- two_pow_inject by lia. now rewrite <- Zle_Qle. }
  destruct (Qle_bool (2 ^ (la - lb)) (a # b)) eqn:E.
  - apply Qle_bool_iff in E. split; [exact E | exact HB].
  - assert (Hlt : (a # b < 2 ^ (la - lb))%Q).
    { apply Qnot_le_lt. intros H. apply Qle_bool_iff in H. congruence. }
    split; [now apply Qlt_le_weak|]. now replace (la - lb - 1 + 1) with (la - lb) by lia.
Qed.

Lemma roundPos_nonneg q : (0 < q)%Q -> (0 <= roundPos q)%Q.
Proof.
  intros Hq. unfold roundPos. apply Qmult_le_0_compat; [|apply Qlt_le_weak, two_pow_pos].
  change 0%Q with (inject_Z 0). rewrite <- Zle_Qle. apply roundEven_ge.
  change (inject_Z 0) with 0%Q. apply Qmult_le_0_compat; [lra|apply Qlt_le_weak, two_pow_pos].
Qed.

(** Rounding moves a number by at most half a unit in the last place. *)
Lemma roundPos_upper q :
  (0 < q)%Q ->
  let e := Z.max (binade q) (-1022) in
  (roundPos q <= q + 2 ^ (e - 53))%Q.
Proof.
  intros Hq e. unfold roundPos. fold e.
  destruct (roundEven_bounds (q * 2 ^ (52 - e))) as [_ Hhi].
  apply Qle_trans with ((q * 2 ^ (52 - e) + (1 # 2)) * 2 ^ (e - 52))%Q.
  - apply Qmult_le_r; [apply two_pow_pos | exact Hhi].
  - assert (H1 : (2 ^ (52 - e) * 2 ^ (e - 52) == 1)%Q).
    { rewrite <- two_pow_add. now replace (52 - e + (e - 52)) with 0 by lia. }
    assert (H2 : ((1 # 2) * 2 ^ (e - 52) == 2 ^ (e - 53))%Q).
    { replace (e - 52) with (1 + (e - 53)) by lia. rewrite two_pow_add.
      change (2 ^ 1)%Q with 2%Q. field. }
    rewrite Qmult_plus_distr_l, H2, <- Qmult_assoc, H1. lra.
Qed.

(** A double below 1 is at most [1 - 2^-53]. *)
Lemma double_below_one r :
  (0 <= r)%Q -> (r < 1)%Q -> (roundDouble r == r)%Q -> (r <= 1 - 2 ^ (-53))%Q.
Proof.
  intros H0 H1 Hr.
  assert (Hsmall : (2 ^ (-53) <= 1 # 2)%Q) by (vm_compute; discriminate).
  unfold roundDouble in Hr. destruct (r ?= 0)%Q eqn:E.
  - apply Qeq_alt in E. lra.
  - apply Qlt_alt in E. lra.
  - apply Qgt_alt in E. destruct (binade_bounds r E) as [Hlo Hhi].
    assert (Hneg : binade r < 0).
    { apply two_pow_lt_inv. change (2 ^ 0)%Q with 1%Q. lra. }
    unfold roundPos in Hr. set (e := Z.max (binade r) (-1022)) in *.
    set (k := roundEven (r * 2 ^ (52 - e))) in *.
    destruct (Z.max_spec (binade r) (-1022)) as [[Hlt He]|[Hge He]]; fold e in He.
    + (* subnormal: below 2^-1022 *)
      assert (Hb : (2 ^ (binade r + 1) <= 2 ^ (-1022))%Q) by (apply two_pow_le; lia).
      assert (Ht : (2 ^ (-1022) <= 1 # 2)%Q).
      { apply Qle_trans with (2 ^ (-1))%Q; [apply two_pow_le; lia | vm_compute; discriminate]. }
      lra.
    + assert (Hk : k <= 2 ^ 53 - 1).
      { assert (Hk' : k <= 2 ^ 53); [apply roundEven_le|].
        - rewrite two_pow_inject by lia.
          apply Qle_trans with (2 ^ (e + 1) * 2 ^ (52 - e))%Q.
          + apply Qmult_le_r; [apply two_pow_pos|]. rewrite He. now apply Qlt_le_weak.
          + rewrite <- two_pow_add. apply two_pow_le. lia.
        - destruct (Z.eq_dec k (2 ^ 53)) as [Hk53|]; [|lia]. exfalso.
          rewrite Hk53, two_pow_inject, <- two_pow_add in Hr by lia.
          replace (53 + (e - 52)) with (e + 1) in Hr by lia. rewrite He in Hr. lra. }
      rewrite <- Hr.
      apply Qle_trans with (inject_Z (2 ^ 53 - 1) * 2 ^ (e - 52))%Q.
      * apply Qmult_le_r; [apply two_pow_pos|]. now rewrite <- Zle_Qle.
      * unfold Z.sub. rewrite inject_Z_plus, two_pow_inject by lia.
        change (inject_Z (- (1))) with (- (1))%Q.
        assert (Hm1 : (2 ^ 53 * 2 ^ (e - 52) == 2 ^ (e + 1))%Q).
        { rewrite <- two_pow_add. now replace (53 + (e - 52)) with (e + 1) by lia. }
        assert (Hm2 : (2 ^ (e - 52) == 2 ^ (e + 1) * 2 ^ (-53))%Q).
        { rewrite <- two_pow_add. now replace (e + 1 + -53) with (e - 52) by lia. }
        assert (Hle1 : (2 ^ (e + 1) <= 1)%Q).
        { change 1%Q with (2 ^ 0)%Q. apply two_pow_le. lia. }
        pose proof (two_pow_pos (e + 1)) as Hp. pose proof (two_pow_pos (-53)) as Hp2.
        assert (Heq : ((2 ^ 53 + - (1)) * 2 ^ (e - 52) == 2 ^ (e + 1) * (1 - 2 ^ (-53)))%Q)
          by (rewrite Qmult_plus_distr_l, Hm1, Hm2; ring).
        rewrite Heq.
        assert (Hq : (0 <= 1 - 2 ^ (-53))%Q) by lra.
        apply Qle_trans with (1 * (1 - 2 ^ (-53)))%Q; [|rewrite Qmult_1_l; apply Qle_refl].
        apply Qmult_le_compat_r; assumption.
Qed.

(** [Math.floor(r * n)] is an index below [n]: the rounded product of a
    double below 1 and a positive integer stays below the integer. *)
Lemma floor_product_below r n :
  (0 <= r)%Q -> (r < 1)%Q -> (roundDouble r == r)%Q -> 0 < n ->
  0 <= Qfloor (roundDouble (r * inject_Z n)) < n.
Proof.
  intros H0 H1 Hr Hn.
  pose proof (double_below_one r H0 H1 Hr) as Hr1.
  assert (HnQ : (1 <= inject_Z n)%Q) by (change 1%Q with (inject_Z 1); rewrite <- Zle_Qle; lia).
  set (q := (r * inject_Z n)%Q).
  assert (Hq0 : (0 <= q)%Q) by (apply Qmult_le_0_compat; lra).
  pose proof (two_pow_pos (-53)) as Hp53.
  assert (Hqn : (q <= inject_Z n * (1 - 2 ^ (-53)))%Q).
  { unfold q. rewrite (Qmult_comm r). apply Qmult_le_l; lra. }
  assert (Hbound : (0 <= roundDouble q /\ roundDouble q < inject_Z n)%Q).
  { unfold roundDouble. destruct (q ?= 0)%Q eqn:E.
    - lra.
    - apply Qlt_alt in E. lra.
    - apply Qgt_alt in E. split; [now apply roundPos_nonneg|].
      pose proof (roundPos_upper q E) as Hup. cbv zeta in Hup.
      destruct (binade_bounds q E) as [Hlo Hhi].
      set (e := Z.max (binade q) (-1022)) in *.
      destruct (Z.max_spec (binade q) (-1022)) as [[Hlt He]|[Hge He]]; fold e in He.
      + assert (Hb : (2 ^ (binade q + 1) <= 2 ^ (-1022))%Q) by (apply two_pow_le; lia).
        assert (Ht : (2 ^ (-1022) <= 1 # 4)%Q).
        { apply Qle_trans with (2 ^ (-2))%Q; [apply two_pow_le; lia | vm_compute; discriminate]. }
        assert (Ht2 : (2 ^ (e - 53) <= 1 # 4)%Q).
        { apply Qle_trans with (2 ^ (-2))%Q; [apply two_pow_le; lia | vm_compute; discriminate]. }
        lra.
      + assert (Hulp : (2 ^ (e - 53) <= q * 2 ^ (-53))%Q).
        { replace (e - 53) with (e + -53) by lia. rewrite two_pow_add.
          apply Qmult_le_r; [exact Hp53|]. now rewrite He. }
        assert (Hsq : (0 < 2 ^ (-53) * 2 ^ (-53))%Q) by (apply Qmult_lt_0_compat; assumption).
        assert (Hlt : (q + q * 2 ^ (-53) < inject_Z n)%Q).
        { apply Qle_lt_trans
            with (inject_Z n * (1 - 2 ^ (-53)) * (1 + 2 ^ (-53)))%Q.
          - assert (Heq : (q + q * 2 ^ (-53) == q * (1 + 2 ^ (-53)))%Q) by ring.
            rewrite Heq. apply Qmult_le_compat_r; lra.
          - assert (Heq : (inject_Z n * (1 - 2 ^ (-53)) * (1 + 2 ^ (-53))
                           == inject_Z n - inject_Z n * (2 ^ (-53) * 2 ^ (-53)))%Q) by ring.
            rewrite Heq.
            assert (0 < inject_Z n * (2 ^ (-53) * 2 ^ (-53)))%Q
              by (apply Qmult_lt_0_compat; lra).
            lra. }
        lra. }
  destruct Hbound as [Hb0 Hbn]. split.
  - rewrite <- (Qfloor_Z 0). now apply Qfloor_resp_le.
  - rewrite Zlt_Qlt. eapply Qle_lt_trans; [apply Qfloor_le | exact Hbn].
Qed.

(** Integers below [2^53] are doubles. *)
Lemma roundDouble_integer z : Z.abs z < 2 ^ 53 -> (roundDouble (inject_Z z) == inject_Z z)%Q.
Proof.
  assert (Hpos : forall z, 0 < z < 2 ^ 53 -> (roundPos (inject_Z z) == inject_Z z)%Q).
  { clear z. intros z [Hz0 Hz].
    assert (HzQ : (0 < inject_Z z)%Q) by (change 0%Q with (inject_Z 0); now rewrite <- Zlt_Qlt).
    destruct (binade_bounds _ HzQ) as [Hlo Hhi].
    set (e := binade (inject_Z z)) in *.
    assert (He0 : 0 <= e).
    { assert (H : (2 ^ 0 < 2 ^ (e + 1))%Q).
      { eapply Qle_lt_trans; [|exact Hhi]. change (2 ^ 0)%Q with (inject_Z 1).
        rewrite <- Zle_Qle. lia. }
      apply two_pow_lt_inv in H. lia. }
    assert (He52 : e <= 52).
    { assert (H : (2 ^ e < 2 ^ 53)%Q).
      { eapply Qle_lt_trans; [exact Hlo|]. rewrite <- two_pow_inject by lia.
        now rewrite <- Zlt_Qlt. }
      apply two_pow_lt_inv in H. lia. }
    unfold roundPos. fold e. rewrite Z.max_l by lia.
    rewrite (roundEven_inject _ (z * 2 ^ (52 - e))).
    - rewrite inject_Z_mult, two_pow_inject by lia.
      rewrite <- Qmult_assoc, <- two_pow_add.
      replace (52 - e + (e - 52)) with 0 by lia. change (2 ^ 0)%Q with 1%Q. ring.
    - rewrite inject_Z_mult, two_pow_inject by lia. reflexivity. }
  intros Hz. unfold roundDouble.
  destruct (inject_Z z ?= 0)%Q eqn:E.
  - apply Qeq_alt in E. now rewrite E.
  - apply Qlt_alt in E. change 0%Q with (inject_Z 0) in E. rewrite <- Zlt_Qlt in E.
    rewrite <- inject_Z_opp, Hpos by lia. rewrite inject_Z_opp. ring.
  - apply Qgt_alt in E. change 0%Q with (inject_Z 0) in E. rewrite <- Zlt_Qlt in E.
    apply Hpos. lia.
Qed.


(** ** The generators are total on a board with its rows, and answer squares
  the piece may go to *)

Section Generators.
Variable b : Board.
Variable position : Position.
Variable own : Piece.
Hypothesis Hrows : rows_ok b.
Hypothesis Hown : rd b position = Some (Some own).

Lemma rd_piece_own : rd_piece b position = Some own.
Proof. now apply rd_piece_Some. Qed.

Lemma okTarget_free m : isValidPosition m = true -> rd b m = Some None -> okTarget b own m.
Proof. intros Hv E. split; [done|]. now rewrite E. Qed.

Lemma okTarget_enemy m t :
  isValidPosition m = true -> rd b m = Some (Some t) ->
  color_neq (color t) (color own) = true -> okTarget b own m.
Proof.
  intros Hv E Hc. split; [done|]. rewrite E.
  unfold color_neq in Hc. apply negb_true_iff, bool_decide_eq_false in Hc. done.
Qed.

Lemma total_ok_nil : total_ok b own (Some []).
Proof. exists []. split; [done | constructor]. Qed.

Ltac ok_list :=
  eexists; split; [reflexivity|];
  repeat (apply List.Forall_cons;
          [first [now apply okTarget_free | now eapply okTarget_enemy; eauto]|]);
  try apply List.Forall_nil.

Lemma pawnForward_total direction startRow :
  total_ok b own (pawnForward b position direction startRow).
Proof.
  unfold pawnForward.
  destruct (isValidPosition _) eqn:V1; [|apply total_ok_nil].
  destruct (rd_valid b _ Hrows V1) as [[t|] E1]; rewrite E1; simpl; [apply total_ok_nil|].
  destruct (row position =? startRow).
  - destruct (isValidPosition {| row := row position + 2 * direction; col := _ |}) eqn:V2.
    + destruct (rd_valid b _ Hrows V2) as [[t|] E2]; rewrite E2; simpl.
      * ok_list.
      * ok_list.
    + ok_list.
  - ok_list.
Qed.

Lemma pawnCapture_total direction colOffset :
  total_ok b own (pawnCapture b position own direction colOffset).
Proof.
  unfold pawnCapture.
  destruct (isValidPosition _) eqn:V1; [|apply total_ok_nil].
  destruct (rd_valid b _ Hrows V1) as [[t|] E1]; rewrite E1; simpl; [|apply total_ok_nil].
  destruct (color_neq _ _) eqn:C; [|apply total_ok_nil].
  ok_list.
Qed.

Lemma stepOne_total d : total_ok b own (stepOne b position d).
Proof.
  unfold stepOne.
  destruct (isValidPosition _) eqn:V1; [|apply total_ok_nil].
  destruct (rd_valid b _ Hrows V1) as [[t|] E1]; rewrite E1; simpl.
  - rewrite rd_piece_own. simpl.
    destruct (color_neq _ _) eqn:C; [|apply total_ok_nil].
    ok_list.
  - ok_list.
Qed.

Lemma slide_total rowDir colDir steps : total_ok b own (slide b position rowDir colDir steps).
Proof.
  induction steps as [|i rest IH]; simpl; [apply total_ok_nil|].
  destruct (isValidPosition _) eqn:V1; [|apply total_ok_nil].
  destruct (rd_valid b _ Hrows V1) as [[t|] E1]; rewrite E1; simpl.
  - rewrite rd_piece_own. simpl.
    destruct (color_neq _ _) eqn:C; [|apply total_ok_nil].
    ok_list.
  - destruct IH as (ms & -> & Hms). simpl.
    eexists. split; [done|]. apply List.Forall_cons; [now apply okTarget_free | done].
Qed.

(** A loop that concatenates what its body pushes. *)
Lemma mapM_total {A} (f : A -> option (list Position)) (xs : list A) :
  (forall x, total_ok b own (f x)) ->
  exists segs, mapM f xs = Some segs /\ Forall (okTarget b own) (concat segs).
Proof.
  intros Hf. induction xs as [|x xs IH]; simpl.
  - exists []. split; [done | constructor].
  - destruct (Hf x) as (ms & -> & Hms). destruct IH as (segs & -> & Hsegs). simpl.
    exists (ms :: segs). split; [done|]. simpl. apply Forall_app. auto.
Qed.

Lemma slideAll_total directions : total_ok b own (slideAll b position directions).
Proof.
  unfold slideAll.
  destruct (mapM_total (fun d => slide b position d.1 d.2 [1; 2; 3; 4; 5; 6; 7]) directions)
    as (segs & -> & H); [intros; apply slide_total|].
  simpl. eexists; eauto.
Qed.

Lemma stepAll_total offsets : total_ok b own (stepAll b position offsets).
Proof.
  unfold stepAll.
  destruct (mapM_total (stepOne b position) offsets) as (segs & -> & H);
    [intros; apply stepOne_total|].
  simpl. eexists; eauto.
Qed.

Lemma getPawnMoves_total : total_ok b own (getPawnMoves b position).
Proof.
  unfold getPawnMoves. rewrite rd_piece_own, obind_Some.
  destruct (pawnForward_total (match color own with white => -1 | black => 1 end)
                              (match color own with white => 6 | black => 1 end))
    as (fw & -> & Hfw).
  destruct (mapM_total (pawnCapture b position own
                          (match color own with white => -1 | black => 1 end)) [-1; 1])
    as (segs & -> & Hsegs); [intros; apply pawnCapture_total|].
  rewrite !obind_Some. eexists. split; [done|]. apply Forall_app. auto.
Qed.

Lemma movesByType_total t : total_ok b own (movesByType b position t).
Proof.
  destruct t; simpl.
  - apply stepAll_total.
  - unfold getQueenMoves.
    destruct (slideAll_total [(0, 1); (0, -1); (1, 0); (-1, 0)]) as (r & Er & Hr).
    destruct (slideAll_total [(1, 1); (1, -1); (-1, 1); (-1, -1)]) as (d & Ed & Hd).
    unfold getRookMoves, getBishopMoves. rewrite Er, Ed. simpl.
    eexists. split; [done|]. apply Forall_app. auto.
  - apply slideAll_total.
  - apply slideAll_total.
  - apply stepAll_total.
  - apply getPawnMoves_total.
Qed.

Lemma pseudoMoves_total : total_ok b own (pseudoMoves b position).
Proof. unfold pseudoMoves. rewrite Hown. simpl. apply movesByType_total. Qed.
End Generators.

(** ** The generators look at the board through [shade] only *)

Section Shade.
Variables b1 b2 : Board.
Hypothesis Hshade : forall pos, shade b1 pos = shade b2 pos.

Lemma shade_cases q :
  (rd b1 q = None /\ rd b2 q = None)
  \/ (rd b1 q = Some None /\ rd b2 q = Some None)
  \/ (exists p1 p2, rd b1 q = Some (Some p1) /\ rd b2 q = Some (Some p2)
                    /\ color p1 = color p2).
Proof.
  specialize (Hshade q). unfold shade in Hshade.
  destruct (rd b1 q) as [[p1|]|], (rd b2 q) as [[p2|]|]; try discriminate; auto.
  right. right. exists p1, p2. repeat split. congruence.
Qed.

Ltac read q :=
  destruct (shade_cases q) as [[-> ->]|[[-> ->]|(? & ? & -> & -> & ?)]]; simpl.

Lemma rd_piece_shade q :
  (rd_piece b1 q = None /\ rd_piece b2 q = None)
  \/ (exists p1 p2, rd_piece b1 q = Some p1 /\ rd_piece b2 q = Some p2
                    /\ color p1 = color p2).
Proof. unfold rd_piece. read q; eauto 10. Qed.

Ltac read_piece q :=
  destruct (rd_piece_shade q) as [[-> ->]|(? & ? & -> & -> & ?)]; simpl.

Lemma pawnForward_shade position direction startRow :
  pawnForward b1 position direction startRow = pawnForward b2 position direction startRow.
Proof.
  unfold pawnForward.
  destruct (isValidPosition _); [|done].
  read {| row := row position + direction; col := col position |}; try done.
  destruct (row position =? startRow); [|done].
  destruct (isValidPosition _); [|done].
  read {| row := row position + 2 * direction; col := col position |}; done.
Qed.

Lemma pawnCapture_shade position p1 p2 direction colOffset :
  color p1 = color p2 ->
  pawnCapture b1 position p1 direction colOffset
  = pawnCapture b2 position p2 direction colOffset.
Proof.
  intros Hc. unfold pawnCapture.
  destruct (isValidPosition _); [|done].
  read {| row := row position + direction; col := col position + colOffset |}; try done.
  now rewrite H, Hc.
Qed.

Lemma getPawnMoves_shade position : getPawnMoves b1 position = getPawnMoves b2 position.
Proof.
  unfold getPawnMoves.
  destruct (rd_piece_shade position) as [[-> ->]|(p1 & p2 & -> & -> & Hc)]; [done|].
  rewrite !obind_Some, pawnForward_shade, Hc.
  rewrite (mapM_ext _ (pawnCapture b2 position p2
                         match color p2 with white => -1 | black => 1 end)); [done|].
  intros. now apply pawnCapture_shade.
Qed.

Lemma stepOne_shade position d : stepOne b1 position d = stepOne b2 position d.
Proof.
  unfold stepOne.
  destruct (isValidPosition _); [|done].
  read {| row := row position + d.1; col := col position + d.2 |}; try done.
  read_piece position; [done|]. now rewrite H, H0.
Qed.

Lemma slide_shade position rowDir colDir steps :
  slide b1 position rowDir colDir steps = slide b2 position rowDir colDir steps.
Proof.
  induction steps as [|i rest IH]; simpl; [done|].
  destruct (isValidPosition _); [|done].
  read {| row := row position + i * rowDir; col := col position + i * colDir |}; try done.
  - now rewrite IH.
  - read_piece position; [done|]. now rewrite H, H0.
Qed.

Lemma movesByType_shade position t :
  movesByType b1 position t = movesByType b2 position t.
Proof.
  assert (Hs : forall ds, slideAll b1 position ds = slideAll b2 position ds).
  { intros ds. unfold slideAll. f_equal. apply mapM_ext. intros. apply slide_shade. }
  assert (Ht : forall ds, stepAll b1 position ds = stepAll b2 position ds).
  { intros ds. unfold stepAll. f_equal. apply mapM_ext. intros. apply stepOne_shade. }
  destruct t; simpl; unfold getKingMoves, getQueenMoves, getRookMoves, getBishopMoves,
    getKnightMoves; rewrite ?Hs, ?Ht; auto using getPawnMoves_shade.
Qed.
End Shade.

(** ** Check detection does not depend on [hasMoved], nor on the kind of the
  pieces of the side whose king is looked for *)

Section Similar.
Variable side : PieceColor.
Variables b1 b2 : Board.
Hypothesis Hsim : similar side b1 b2.

Lemma similar_shade pos : shade b1 pos = shade b2 pos.
Proof.
  specialize (Hsim pos). unfold shade.
  destruct (rd b1 pos) as [[p|]|], (rd b2 pos) as [[q|]|]; try done.
  destruct Hsim as [-> _]. done.
Qed.

Lemma similar_findKing sqs : findKing b1 side sqs = findKing b2 side sqs.
Proof.
  induction sqs as [|pos rest IH]; simpl; [done|].
  pose proof (Hsim pos) as Hp.
  destruct (rd b1 pos) as [[p|]|], (rd b2 pos) as [[q|]|]; try done; simpl.
  destruct Hp as [Hc [Ht|(Hs & Hp & Hq)]].
  - now rewrite Ht, Hc, IH.
  - rewrite !(bool_decide_eq_false_2 (_ = king)) by done. simpl. exact IH.
Qed.

Lemma similar_attacksFrom kp pos : attacksFrom b1 side kp pos = attacksFrom b2 side kp pos.
Proof.
  unfold attacksFrom, pseudoMoves.
  pose proof (Hsim pos) as Hp.
  destruct (rd b1 pos) as [[p|]|], (rd b2 pos) as [[q|]|]; try done; simpl.
  destruct Hp as [Hc [Ht|(Hs & Hp & Hq)]].
  - rewrite Hc, Ht. f_equal.
    now rewrite (movesByType_shade b1 b2 similar_shade).
  - unfold color_neq. rewrite <- Hc.
    rewrite (bool_decide_eq_true_2 _ Hs). done.
Qed.

Lemma similar_attacked : attacked b1 side = attacked b2 side.
Proof.
  unfold attacked. rewrite similar_findKing.
  destruct (findKing b2 side allSquares) as [[kp|]|]; try done.
  generalize allSquares. intros sqs.
  induction sqs as [|pos rest IH]; simpl; [done|].
  now rewrite similar_attacksFrom, IH.
Qed.
End Similar.

(** ** Loops *)

Lemma wp_firstM {A B} (body : A -> M (option B)) (f : A -> option B)
    (I : heap -> Prop) (xs : list A) h :
  I h ->
  (forall x h1, x ∈ xs -> I h1 -> wp (body x) h1 (fun r h2 => r = f x /\ I h2)) ->
  wp (firstM body xs) h (fun r h' => r = firstSome f xs /\ I h').
Proof.
  revert h. induction xs as [|x rest IH]; intros h HI Hbody; simpl.
  - now apply wp_ret.
  - apply wp_bind. eapply wp_mono; [apply Hbody; [left | exact HI]|].
    intros r h1 [-> HI1]. simpl. destruct (f x) as [v|].
    + now apply wp_ret.
    + apply IH; [exact HI1|]. intros. apply Hbody; [now right | done].
Qed.

Lemma wp_filterM {A} (body : A -> M bool) (f : A -> bool)
    (I : heap -> Prop) (xs : list A) h :
  I h ->
  (forall x h1, x ∈ xs -> I h1 -> wp (body x) h1 (fun r h2 => r = f x /\ I h2)) ->
  wp (filterM body xs) h (fun r h' => r = filter (fun x => f x = true) xs /\ I h').
Proof.
  revert h. induction xs as [|x rest IH]; intros h HI Hbody; simpl.
  - now apply wp_ret.
  - apply wp_bind. eapply wp_mono; [apply Hbody; [left | exact HI]|].
    intros r h1 [-> HI1]. simpl. apply wp_bind.
    eapply wp_mono; [apply IH; [exact HI1|]|].
    + intros. apply Hbody; [now right | done].
    + intros more h2 [-> HI2]. simpl. apply wp_ret. split; [|done].
      rewrite filter_cons.
      destruct (decide (f x = true)) as [E|E]; destruct (f x); congruence.
Qed.

Lemma wp_collectM {A B} (body : A -> M (list B)) (f : A -> list B)
    (I : heap -> Prop) (xs : list A) h :
  I h ->
  (forall x h1, x ∈ xs -> I h1 -> wp (body x) h1 (fun r h2 => r = f x /\ I h2)) ->
  wp (collectM body xs) h (fun r h' => r = flat_map f xs /\ I h').
Proof.
  revert h. induction xs as [|x rest IH]; intros h HI Hbody; simpl.
  - now apply wp_ret.
  - apply wp_bind. eapply wp_mono; [apply Hbody; [left | exact HI]|].
    intros r h1 [-> HI1]. simpl. apply wp_bind.
    eapply wp_mono; [apply IH; [exact HI1|]|].
    + intros. apply Hbody; [now right | done].
    + intros more h2 [-> HI2]. simpl. now apply wp_ret.
Qed.

Lemma firstSome_existsb {A} (p : A -> bool) (xs : list A) :
  match firstSome (fun x => if p x then Some tt else None) xs with
  | Some _ => true
  | None => false
  end = existsb p xs.
Proof.
  induction xs as [|x rest IH]; simpl; [done|]. now destruct (p x).
Qed.

Lemma allSquares_valid : Forall (fun pos => isValidPosition pos = true) allSquares.
Proof.
  apply Forall_forall. intros pos Hin. apply list_elem_of_In in Hin.
  revert pos Hin. apply forallb_forall. reflexivity.
Qed.

Lemma findKing_total b side sqs :
  rows_ok b -> Forall (fun pos => isValidPosition pos = true) sqs ->
  exists k, findKing b side sqs = Some k.
Proof.
  intros Hb. induction 1 as [|pos rest Hv _ IH]; simpl; [eauto|].
  destruct (rd_valid b pos Hb Hv) as [[p|] ->]; simpl; [|exact IH].
  destruct (_ && _); eauto.
Qed.

(** ** A new game *)

Lemma newChessGame_spec h :
  wp newChessGame h (fun g h' =>
    exists gs st,
      heap_ext h h' /\ (next h <= gs)%positive /\ (gs < g)%positive
      /\ (g < next h')%positive
      /\ cells h' !! g = Some (CGame gs) /\ cells h' !! gs = Some (CState st)).
Proof.
  unfold newChessGame, initializeGame.
  repeat (apply wp_bind; apply wp_alloc). apply wp_alloc.
  exists (Pos.succ (Pos.succ (Pos.succ (next h)))). eexists.
  split; [|split; [|split; [|split; [|split]]]].
  - do 4 (eapply heap_ext_trans; [|apply heap_ext_alloc]). apply heap_ext_alloc.
  - simpl. lia.
  - simpl. lia.
  - simpl. lia.
  - simpl. apply lookup_insert_eq.
  - simpl. rewrite lookup_insert_ne by lia. apply lookup_insert_eq.
Qed.

(** ** Check detection *)

Lemma getLegalMovesIgnoringCheck_spec this gs st b position ms h :
  cells h !! this = Some (CGame gs) ->
  cells h !! gs = Some (CState st) ->
  cells h !! board st = Some (CBoard b) ->
  pseudoMoves b position = Some ms ->
  wp (getLegalMovesIgnoringCheck this position) h (fun r h' => r = ms /\ h' = h).
Proof.
  intros Hg Hs Hb Hms. unfold getLegalMovesIgnoringCheck.
  apply wp_bind. eapply wp_readGame; [exact Hg|].
  apply wp_bind. eapply wp_readState; [exact Hs|].
  apply wp_bind. eapply wp_readBoard; [exact Hb|].
  eapply wp_lift; [exact Hms | split; reflexivity].
Qed.

Lemma isKingInCheck_spec this side boardArg l b h :
  wp (boardOrOwn this boardArg) h (fun r h' => r = l /\ h' = h) ->
  cells h !! l = Some (CBoard b) ->
  (l < next h)%positive ->
  rows_ok b ->
  wp (isKingInCheck this side boardArg) h
     (fun v h' => v = attacked b side /\ heap_ext h h').
Proof.
  intros Hres Hl Hlt Hrows. unfold isKingInCheck.
  apply wp_bind. eapply wp_mono; [exact Hres|]. intros ? ? [-> ->].
  apply wp_bind. eapply wp_readBoard; [exact Hl|].
  destruct (findKing_total b side allSquares Hrows allSquares_valid) as [k Hk].
  apply wp_bind. eapply wp_lift; [exact Hk|].
  unfold attacked. rewrite Hk. destruct k as [kp|].
  2:{ apply wp_ret. split; [done | apply heap_ext_refl]. }
  apply wp_bind.
  eapply wp_mono.
  { apply (wp_firstM _ (fun pos => if attacksFrom b side kp pos then Some tt else None)
                     (heap_ext h)); [apply heap_ext_refl|].
    intros pos h1 Hin Hext.
    assert (Hv : isValidPosition pos = true).
    { pose proof allSquares_valid as Hall. rewrite Forall_forall in Hall. auto. }
    apply wp_bind. eapply wp_readBoard; [eapply heap_ext_lookup; eauto|].
    destruct (rd_valid b pos Hrows Hv) as [t Ht].
    apply wp_bind. eapply wp_lift; [exact Ht|].
    unfold attacksFrom. rewrite Ht.
    destruct t as [p|]; [|apply wp_ret; split; [reflexivity | assumption]].
    destruct (color_neq (color p) side) eqn:C; [|apply wp_ret; split; [reflexivity | assumption]].
    destruct (pseudoMoves_total b pos p Hrows Ht) as (ms & Hms & _).
    rewrite Hms. simpl.
    apply wp_bind. eapply wp_mono; [apply newChessGame_spec|].
    intros tempGame h2 (tgs & st0 & Hext2 & Hge & Hlt2 & Hlt3 & Hg & Hs).
    apply wp_bind. eapply wp_readGame; [exact Hg|].
    apply wp_bind. eapply wp_modifyState; [exact Hs|].
    assert (Hnext : (next h <= next h1)%positive) by apply Hext.
    apply wp_bind. eapply wp_mono.
    { eapply getLegalMovesIgnoringCheck_spec with (gs := tgs) (b := b); simpl.
      - rewrite lookup_insert_ne by lia. exact Hg.
      - apply lookup_insert_eq.
      - change (board (set_board l st0)) with l.
        rewrite lookup_insert_ne by lia.
        eapply heap_ext_lookup; [exact Hext2 | lia |].
        eapply heap_ext_lookup; eauto.
      - exact Hms. }
    intros r h3 [-> ->].
    assert (Hfinal : heap_ext h {| cells := <[tgs := CState (set_board l st0)]> (cells h2);
                                   next := next h2 |}).
    { apply heap_ext_store_new; [eapply heap_ext_trans; eauto | lia]. }
    destruct (existsb _ ms); apply wp_ret; (split; [reflexivity | exact Hfinal]). }
  intros hit h' [-> Hext]. cbv beta.
  rewrite <- (firstSome_existsb (attacksFrom b side kp) allSquares).
  destruct (firstSome _ allSquares); apply wp_ret; (split; [reflexivity | exact Hext]).
Qed.

Lemma boardOrOwn_Some this l h :
  wp (boardOrOwn this (Some l)) h (fun r h' => r = l /\ h' = h).
Proof. apply wp_ret. split; reflexivity. Qed.

Lemma boardOrOwn_None this gs st h :
  cells h !! this = Some (CGame gs) ->
  cells h !! gs = Some (CState st) ->
  wp (boardOrOwn this None) h (fun r h' => r = board st /\ h' = h).
Proof.
  intros Hg Hs. unfold boardOrOwn.
  apply wp_bind. eapply wp_readGame; [exact Hg|].
  apply wp_bind. eapply wp_readState; [exact Hs|].
  apply wp_ret. split; reflexivity.
Qed.

(** ** Legal moves *)

Lemma game_ok_ext h h' this gs st b hist :
  game_ok h this gs st b hist -> heap_ext h h' -> game_ok h' this gs st b hist.
Proof.
  intros [] Hext. pose proof Hext as [Hle _].
  split; try (eapply heap_ext_lookup; eassumption); try lia; done.
Qed.

Lemma wouldBeInCheck_spec this gs st b hist from to side p h :
  game_ok h this gs st b hist ->
  rd b from = Some (Some p) ->
  isValidPosition to = true ->
  wp (wouldBeInCheck this from to side) h
     (fun v h' => v = selfCheck b from to side /\ heap_ext h h').
Proof.
  intros Hok Hfrom Hto. pose proof (ok_rows _ _ _ _ _ _ Hok) as Hrows.
  unfold wouldBeInCheck.
  apply wp_bind. eapply wp_readGame; [apply Hok|].
  apply wp_bind. eapply wp_readState; [apply Hok|].
  apply wp_bind. eapply wp_readBoard; [apply Hok|].
  apply wp_bind. apply wp_alloc. rewrite copyBoard_id.
  apply wp_bind. eapply wp_readBoard; [apply lookup_insert_eq|].
  apply wp_bind. eapply wp_lift; [exact Hfrom|].
  destruct (rd_valid b to Hrows Hto) as [t Ht].
  apply isValidPosition_spec in Hto.
  destruct (setSq_total b to (Some p) t Ht) as [b1 Hb1]; [lia|].
  assert (Hfrom1 : exists t1, rd b1 from = Some t1).
  { rewrite (rd_setSq _ _ _ _ from Hb1). destruct (decide (from = to)); eauto. }
  destruct Hfrom1 as [t1 Ht1].
  destruct (setSq_total b1 from None t1 Ht1) as [b2 Hb2]; [eapply rd_Some_col; eauto|].
  apply wp_bind. unfold writeSq at 1.
  apply wp_bind. eapply wp_readBoard; [apply lookup_insert_eq|].
  apply wp_bind. eapply wp_lift; [exact Hb1|]. apply wp_store.
  apply wp_bind. unfold writeSq.
  apply wp_bind. eapply wp_readBoard; [apply lookup_insert_eq|].
  apply wp_bind. eapply wp_lift; [exact Hb2|]. apply wp_store.
  simpl.
  eapply wp_mono.
  { eapply isKingInCheck_spec with (l := next h) (b := b2).
    - apply boardOrOwn_Some.
    - apply lookup_insert_eq.
    - simpl. lia.
    - eauto using setSq_rows_ok. }
  intros v h' [-> Hext]. split.
  - unfold selfCheck, rawMove. rewrite Hfrom, obind_Some, Hb1, obind_Some, Hb2. done.
  - eapply heap_ext_trans; [|exact Hext].
    split; simpl; [lia|].
    intros l Hl. rewrite !lookup_insert_ne by lia. reflexivity.
Qed.

Lemma filter_negb {A} (g : A -> bool) (xs : list A) :
  filter (fun x => negb (g x) = true) xs = filter (fun x => g x = false) xs.
Proof.
  induction xs as [|x rest IH]; [done|].
  rewrite !filter_cons, IH.
  destruct (decide (negb (g x) = true)), (decide (g x = false)); try done;
    destruct (g x); simpl in *; congruence.
Qed.

Lemma legalOn_targets b position p :
  rows_ok b -> rd b position = Some (Some p) ->
  Forall (okTarget b p) (legalOn b position).
Proof.
  intros Hb Hp. unfold legalOn. rewrite Hp.
  destruct (movesByType_total b position p Hb Hp (type p)) as (ms & -> & Hms).
  apply Forall_forall. intros m Hm. apply list_elem_of_filter in Hm as [_ Hm].
  rewrite Forall_forall in Hms. auto.
Qed.

Lemma getLegalMoves_spec this gs st b hist position t h :
  game_ok h this gs st b hist ->
  rd b position = Some t ->
  wp (getLegalMoves this position) h
     (fun r h' => r = legalOn b position /\ heap_ext h h').
Proof.
  intros Hok Ht. pose proof (ok_rows _ _ _ _ _ _ Hok) as Hrows.
  unfold getLegalMoves.
  apply wp_bind. eapply wp_readGame; [apply Hok|].
  apply wp_bind. eapply wp_readState; [apply Hok|].
  apply wp_bind. eapply wp_readBoard; [apply Hok|].
  apply wp_bind. eapply wp_lift; [exact Ht|].
  unfold legalOn. rewrite Ht.
  destruct t as [p|]; [|apply wp_ret; split; [done | apply heap_ext_refl]].
  destruct (movesByType_total b position p Hrows Ht (type p)) as (ms & Hms & Htargets).
  rewrite Hms.
  apply wp_bind. eapply wp_lift; [reflexivity|].
  rewrite <- filter_negb.
  apply (wp_filterM _ (fun move => negb (selfCheck b position move (color p))) (heap_ext h));
    [apply heap_ext_refl|].
  intros move h1 Hin Hext.
  rewrite Forall_forall in Htargets. destruct (Htargets move Hin) as [Hv _].
  apply wp_bind. eapply wp_mono.
  { eapply wouldBeInCheck_spec; [eapply game_ok_ext; eauto | exact Ht | exact Hv]. }
  intros w h2 [-> Hext2]. apply wp_ret. split; [done|].
  eapply heap_ext_trans; eauto.
Qed.

Lemma flat_map_singleton {A B} (f : A -> B) (xs : list A) :
  flat_map (fun x => [f x]) xs = map f xs.
Proof. induction xs as [|x rest IH]; simpl; [done | now rewrite IH]. Qed.

Lemma getAllLegalMoves_spec this gs st b hist side h :
  game_ok h this gs st b hist ->
  wp (getAllLegalMoves this side) h
     (fun r h' => r = allLegalOn b side /\ heap_ext h h').
Proof.
  intros Hok. pose proof (ok_rows _ _ _ _ _ _ Hok) as Hrows.
  unfold getAllLegalMoves.
  apply wp_bind. eapply wp_readGame; [apply Hok|].
  unfold allLegalOn.
  apply (wp_collectM _ _ (heap_ext h)); [apply heap_ext_refl|].
  intros pos h1 Hin Hext.
  assert (Hv : isValidPosition pos = true).
  { pose proof allSquares_valid as Hall. rewrite Forall_forall in Hall. auto. }
  pose proof (game_ok_ext _ _ _ _ _ _ _ Hok Hext) as Hok1.
  apply wp_bind. eapply wp_readState; [apply Hok1|].
  apply wp_bind. eapply wp_readBoard; [apply Hok1|].
  destruct (rd_valid b pos Hrows Hv) as [t Ht].
  apply wp_bind. eapply wp_lift; [exact Ht|]. rewrite Ht.
  destruct t as [p|]; [|(apply wp_ret; split; [reflexivity | assumption])].
  destruct (bool_decide (color p = side)); [|(apply wp_ret; split; [reflexivity | assumption])].
  apply wp_bind. eapply wp_mono; [eapply getLegalMoves_spec; eauto|].
  intros legal h2 [-> Hext2]. simpl.
  rewrite <- flat_map_singleton.
  eapply wp_mono.
  { apply (wp_collectM _ (fun move =>
             [ {| from := pos; to := move; piece := p;
                  capturedPiece := match rd b move with Some t => t | None => None end;
                  promotion := None |} ]) (heap_ext h)); [eapply heap_ext_trans; eauto|].
    intros move h3 Hin3 Hext3.
    pose proof (game_ok_ext _ _ _ _ _ _ _ Hok Hext3) as Hok3.
    pose proof (legalOn_targets b pos p Hrows Ht) as Htargets.
    rewrite Forall_forall in Htargets. destruct (Htargets move Hin3) as [Hvm _].
    destruct (rd_valid b move Hrows Hvm) as [tm Htm].
    apply wp_bind. eapply wp_readState; [apply Hok3|].
    apply wp_bind. eapply wp_readBoard; [apply Hok3|].
    apply wp_bind. eapply wp_lift; [exact Htm|].
    apply wp_ret. rewrite Htm. split; [reflexivity | assumption]. }
  intros r h3 [-> Hext3]. split; [reflexivity | assumption].
Qed.

(** ** Commands *)

Lemma game_ok_store_state h this gs st st' b hist :
  game_ok h this gs st b hist ->
  board st' = board st -> moveHistory st' = moveHistory st ->
  game_ok {| cells := <[gs := CState st']> (cells h); next := next h |} this gs st' b hist.
Proof.
  intros [] Hb Hm. split; simpl; try done; rewrite ?Hb, ?Hm; try done.
  - rewrite lookup_insert_ne; [done|]. intros ->. congruence.
  - apply lookup_insert_eq.
  - rewrite lookup_insert_ne; [done|]. intros E. rewrite E in *. congruence.
  - rewrite lookup_insert_ne; [done|]. intros E. rewrite E in *. congruence.
Qed.

Lemma game_ok_store_board h this gs st b b' hist :
  game_ok h this gs st b hist -> rows_ok b' ->
  game_ok {| cells := <[board st := CBoard b']> (cells h); next := next h |} this gs st b' hist.
Proof.
  intros [] Hb. split; simpl; try done.
  - rewrite lookup_insert_ne; [done|]. intros E. rewrite E in *. congruence.
  - rewrite lookup_insert_ne; [done|]. intros E. rewrite E in *. congruence.
  - apply lookup_insert_eq.
  - rewrite lookup_insert_ne; [done|]. intros E. rewrite E in *. congruence.
Qed.

Lemma game_ok_store_hist h this gs st b hist hist' :
  game_ok h this gs st b hist ->
  game_ok {| cells := <[moveHistory st := CMoves hist']> (cells h); next := next h |}
          this gs st b hist'.
Proof.
  intros []. split; simpl; try done.
  - rewrite lookup_insert_ne; [done|]. intros E. rewrite E in *. congruence.
  - rewrite lookup_insert_ne; [done|]. intros E. rewrite E in *. congruence.
  - rewrite lookup_insert_ne; [done|]. intros E. rewrite E in *. congruence.
  - apply lookup_insert_eq.
Qed.

Lemma updateGameStatus_spec this gs st b hist h :
  game_ok h this gs st b hist ->
  wp (updateGameStatus this) h
     (fun _ h' => game_ok h' this gs (statusAfter b st) b hist /\ same_except [gs] h h').
Proof.
  intros Hok. pose proof (ok_rows _ _ _ _ _ _ Hok) as Hrows.
  unfold updateGameStatus.
  apply wp_bind. eapply wp_readGame; [apply Hok|].
  apply wp_bind. eapply wp_readState; [apply Hok|].
  apply wp_bind. eapply wp_mono.
  { eapply isKingInCheck_spec with (l := board st) (b := b);
      [eapply boardOrOwn_None; apply Hok | apply Hok | apply Hok | exact Hrows]. }
  intros chk h1 [-> Hext1].
  pose proof (game_ok_ext _ _ _ _ _ _ _ Hok Hext1) as Hok1.
  apply wp_bind. eapply wp_modifyState; [apply Hok1|].
  set (st1 := set_isCheck (attacked b (currentPlayer st)) st).
  set (h2 := {| cells := <[gs := CState st1]> (cells h1); next := next h1 |}).
  assert (Hok2 : game_ok h2 this gs st1 b hist)
    by (apply (game_ok_store_state h1 this gs st st1 b hist Hok1); reflexivity).
  assert (Hsame2 : same_except [gs] h h2).
  { eapply same_except_trans; [apply heap_ext_same_except; exact Hext1|].
    apply same_except_store. left. }
  apply wp_bind. eapply wp_mono.
  { apply (wp_firstM _ (fun pos => if hasLegalMove b (currentPlayer st) pos
                                   then Some tt else None) (heap_ext h2));
      [apply heap_ext_refl|].
    intros pos h3 Hin Hext3.
    assert (Hv : isValidPosition pos = true).
    { pose proof allSquares_valid as Hall. rewrite Forall_forall in Hall. auto. }
    pose proof (game_ok_ext _ _ _ _ _ _ _ Hok2 Hext3) as Hok3.
    apply wp_bind. eapply wp_readState; [apply Hok3|].
    apply wp_bind. eapply wp_readBoard; [apply Hok3|].
    destruct (rd_valid b pos Hrows Hv) as [t Ht].
    apply wp_bind. eapply wp_lift; [exact Ht|].
    unfold hasLegalMove. rewrite Ht.
    destruct t as [p|]; [|(apply wp_ret; split; [reflexivity | assumption])].
    change (currentPlayer st1) with (currentPlayer st).
    destruct (bool_decide (color p = currentPlayer st)); [|(apply wp_ret; split; [reflexivity | assumption])].
    apply wp_bind. eapply wp_mono; [eapply getLegalMoves_spec; eauto|].
    intros moves h4 [-> Hext4]. cbv beta.
    assert (heap_ext h2 h4) by (eapply heap_ext_trans; eauto).
    destruct (0 <? _); (apply wp_ret; split; [reflexivity | assumption]). }
  intros found h3 [-> Hext3]. cbv beta.
  pose proof (game_ok_ext _ _ _ _ _ _ _ Hok2 Hext3) as Hok3.
  assert (Hsame3 : same_except [gs] h h3).
  { eapply same_except_trans; [exact Hsame2 | now apply heap_ext_same_except]. }
  unfold statusAfter. fold st1.
  rewrite <- (firstSome_existsb (hasLegalMove b (currentPlayer st)) allSquares).
  destruct (firstSome _ allSquares).
  { cbv beta iota. apply wp_ret. split; assumption. }
  cbv beta iota.
  apply wp_bind. eapply wp_readState; [apply Hok3|].
  destruct (isCheck st1).
  - apply wp_bind. eapply wp_modifyState; [apply Hok3|].
    eapply wp_modifyState; [apply lookup_insert_eq|].
    split.
    + eapply game_ok_store_state; [eapply game_ok_store_state; [exact Hok3|..]|..];
        reflexivity.
    + eapply same_except_trans; [exact Hsame3|].
      eapply same_except_trans; apply same_except_store; left.
  - apply wp_bind. eapply wp_modifyState; [apply Hok3|].
    eapply wp_modifyState; [apply lookup_insert_eq|].
    split.
    + eapply game_ok_store_state; [eapply game_ok_store_state; [exact Hok3|..]|..];
        reflexivity.
    + eapply same_except_trans; [exact Hsame3|].
      eapply same_except_trans; apply same_except_store; left.
Qed.

Lemma wp_writeSq this gs st b hist pos v b' h (Q : unit -> heap -> Prop) :
  game_ok h this gs st b hist ->
  setSq b pos v = Some b' ->
  (forall h', game_ok h' this gs st b' hist ->
              same_except [gs; board st; moveHistory st] h h' -> Q tt h') ->
  wp (writeSq (board st) pos v) h Q.
Proof.
  intros Hok Hset HQ. unfold writeSq.
  apply wp_bind. eapply wp_readBoard; [apply Hok|].
  apply wp_bind. eapply wp_lift; [exact Hset|].
  apply wp_store. apply HQ.
  - eapply game_ok_store_board; [exact Hok|].
    eapply setSq_rows_ok; [exact Hset | apply Hok].
  - apply same_except_store. repeat first [left | right].
Qed.

Lemma wp_modifyState_game this gs st st' b hist f h (Q : unit -> heap -> Prop) :
  game_ok h this gs st b hist ->
  f st = st' -> board st' = board st -> moveHistory st' = moveHistory st ->
  (forall h', game_ok h' this gs st' b hist ->
              same_except [gs; board st; moveHistory st] h h' -> Q tt h') ->
  wp (modifyState gs f) h Q.
Proof.
  intros Hok Hf Hb Hm HQ.
  eapply wp_modifyState; [apply Hok|]. rewrite Hf. apply HQ.
  - exact (game_ok_store_state h this gs st st' b hist Hok Hb Hm).
  - apply same_except_store. repeat first [left | right].
Qed.

Lemma makeMove_rejected this gs st b hist from to h :
  game_ok h this gs st b hist ->
  rd b from = Some None ->
  makeMove this from to h = Some (false, h).
Proof.
  intros Hok Hfrom.
  assert (W : wp (makeMove this from to) h (fun r h' => r = false /\ h' = h)).
  { unfold makeMove.
    apply wp_bind. eapply wp_readGame; [apply Hok|].
    apply wp_bind. eapply wp_readState; [apply Hok|].
    apply wp_bind. eapply wp_readBoard; [apply Hok|].
    apply wp_bind. eapply wp_lift; [exact Hfrom|]. apply wp_ret. split; reflexivity. }
  apply wp_elim in W as (r & h' & E & -> & ->). exact E.
Qed.

Lemma movedBoard_total b from to p :
  rows_ok b -> rd b from = Some (Some p) -> isValidPosition to = true ->
  exists b1 b2 b',
    setSq b to (Some {| type := type p; color := color p; hasMoved := true |}) = Some b1
    /\ setSq b1 from None = Some b2
    /\ (if promotes p to
        then setSq b2 to (Some {| type := queen; color := color p; hasMoved := true |})
        else Some b2) = Some b'
    /\ movedBoard b from to p = Some b'.
Proof.
  intros Hrows Hfrom Hto.
  destruct (rd_valid b to Hrows Hto) as [t Ht].
  apply isValidPosition_spec in Hto.
  destruct (setSq_total b to (Some {| type := type p; color := color p; hasMoved := true |})
              t Ht) as [b1 Hb1]; [lia|].
  assert (exists t1, rd b1 from = Some t1) as [t1 Ht1].
  { rewrite (rd_setSq _ _ _ _ from Hb1). destruct (decide (from = to)); eauto. }
  destruct (setSq_total b1 from None t1 Ht1) as [b2 Hb2]; [eapply rd_Some_col; eauto|].
  assert (exists t2, rd b2 to = Some t2) as [t2 Ht2].
  { rewrite (rd_setSq _ _ _ _ to Hb2), (rd_setSq _ _ _ _ to Hb1).
    destruct (decide (to = from)); [eauto|]. rewrite decide_True by done. eauto. }
  destruct (setSq_total b2 to (Some {| type := queen; color := color p; hasMoved := true |})
              t2 Ht2) as [b3 Hb3]; [lia|].
  exists b1, b2, (if promotes p to then b3 else b2).
  unfold movedBoard. rewrite Hb1, obind_Some, Hb2, obind_Some.
  destruct (promotes p to); auto.
Qed.

Lemma makeMove_accepted this gs st b hist from to p h :
  game_ok h this gs st b hist ->
  rd b from = Some (Some p) ->
  isValidPosition to = true ->
  wp (makeMove this from to) h
     (fun r h' =>
        r = true
        /\ exists b' lm,
             movedBoard b from to p = Some b'
             /\ (next h <= lm)%positive
             /\ cells h' !! lm = Some (CSquares [])
             /\ game_ok h' this gs (movedState b' lm st) b' (hist ++ [recorded b from to p])
             /\ same_except [gs; board st; moveHistory st] h h').
Proof.
  intros Hok Hfrom Hto. pose proof (ok_rows _ _ _ _ _ _ Hok) as Hrows.
  destruct (movedBoard_total b from to p Hrows Hfrom Hto)
    as (b1 & b2 & b' & Hb1 & Hb2 & Hb3 & Hmoved).
  destruct (rd_valid b to Hrows Hto) as [t Ht].
  unfold makeMove.
  apply wp_bind. eapply wp_readGame; [apply Hok|].
  apply wp_bind. eapply wp_readState; [apply Hok|].
  apply wp_bind. eapply wp_readBoard; [apply Hok|].
  apply wp_bind. eapply wp_lift; [exact Hfrom|].
  apply wp_bind. eapply wp_lift; [exact Ht|].
  apply wp_bind. eapply wp_writeSq; [exact Hok | exact Hb1|]. intros h1 Hok1 Hs1.
  apply wp_bind. eapply wp_writeSq; [exact Hok1 | exact Hb2|]. intros h2 Hok2 Hs2.
  apply wp_bind.
  apply (wp_mono _ _ (fun _ h3 => game_ok h3 this gs st b' hist
                                  /\ same_except [gs; board st; moveHistory st] h2 h3)).
  { destruct (promotes p to).
    - eapply wp_writeSq; [exact Hok2 | exact Hb3|]. auto.
    - injection Hb3 as <-. apply wp_ret. split; [done | apply same_except_refl]. }
  intros _ h3 [Hok3 Hs3].
  apply wp_bind. eapply wp_readMoves; [apply Hok3|].
  apply wp_bind. apply wp_store.
  pose proof (game_ok_store_hist _ _ _ _ _ _
                (hist ++ [{| from := from; to := to; piece := p; capturedPiece := t;
                             promotion := if promotes p to then Some queen else None |}])
                Hok3) as Hok4.
  match type of Hok4 with game_ok ?hh _ _ _ _ _ => set (h4 := hh) in * end.
  assert (Hs4 : same_except [gs; board st; moveHistory st] h3 h4).
  { apply same_except_store. repeat first [left | right]. }
  apply wp_bind. eapply wp_modifyState_game; [exact Hok4 | reflexivity | done | done|].
  intros h5 Hok5 Hs5.
  apply wp_bind. eapply wp_modifyState_game; [exact Hok5 | reflexivity | done | done|].
  intros h6 Hok6 Hs6.
  apply wp_bind. apply wp_alloc.
  pose proof (game_ok_ext _ _ _ _ _ _ _ Hok6 (heap_ext_alloc h6 (CSquares []))) as Hok7.
  match type of Hok7 with game_ok ?hh _ _ _ _ _ => set (h7 := hh) in * end.
  assert (Hs7 : same_except [gs; board st; moveHistory st] h6 h7).
  { apply heap_ext_same_except, heap_ext_alloc. }
  apply wp_bind. eapply wp_modifyState_game; [exact Hok7 | reflexivity | done | done|].
  intros h8 Hok8 Hs8.
  apply wp_bind. eapply wp_mono; [eapply updateGameStatus_spec; exact Hok8|].
  intros _ h9 [Hok9 Hs9]. apply wp_ret. split; [done|].
  assert (Hle : (next h <= next h6)%positive).
  { destruct Hs1, Hs2, Hs3, Hs4, Hs5, Hs6. lia. }
  exists b', (next h6). split; [exact Hmoved|]. split; [exact Hle|]. split; [|split].
  - pose proof (ok_gs_lt _ _ _ _ _ _ Hok6) as Hg.
    pose proof (ok_board_lt _ _ _ _ _ _ Hok6) as Hbl.
    pose proof (ok_hist_lt _ _ _ _ _ _ Hok6) as Hhl.
    destruct Hs9 as [_ E9]. destruct Hs8 as [L8 E8]. subst h7. simpl in *.
    rewrite E9; [rewrite E8; [apply lookup_insert_eq | lia |] | lia |].
    + intros Hin. apply elem_of_cons in Hin as [Hin|Hin]; [lia|].
      apply elem_of_cons in Hin as [Hin|Hin];
        [lia|].
      apply elem_of_cons in Hin as [Hin|Hin];
        [lia|].
      now apply elem_of_nil in Hin.
    + intros Hin. apply elem_of_cons in Hin as [Hin|Hin]; [lia|].
      now apply elem_of_nil in Hin.
  - unfold movedState, recorded. rewrite Ht. exact Hok9.
  - eapply same_except_trans; [exact Hs1|].
    eapply same_except_trans; [exact Hs2|].
    eapply same_except_trans; [exact Hs3|].
    eapply same_except_trans; [exact Hs4|].
    eapply same_except_trans; [exact Hs5|].
    eapply same_except_trans; [exact Hs6|].
    eapply same_except_trans; [exact Hs7|].
    eapply same_except_trans; [exact Hs8|].
    destruct Hs9 as [L9 E9]. split; [exact L9|]. intros l Hl Hn. apply E9; [exact Hl|].
    intros Hin. apply Hn. apply elem_of_cons in Hin as [->|Hin]; [left|].
    now apply elem_of_nil in Hin.
Qed.

(** * The claims *)

Lemma freshHeap_ok : game_ok freshHeap 5%positive 4%positive freshState createInitialBoard [].
Proof. split; try reflexivity. unfold rows_ok. simpl. lia. Qed.

Lemma promotes_spec p to :
  promotes p to = true
  <-> type p = pawn /\ ((color p = white /\ row to = 0) \/ (color p = black /\ row to = 7)).
Proof.
  unfold promotes.
  rewrite andb_true_iff, orb_true_iff, !andb_true_iff, !bool_decide_eq_true, !Z.eqb_eq.
  tauto.
Qed.

(** What stands on each square after the writes of [makeMove]. *)
Lemma movedBoard_rd b from to p b' q :
  movedBoard b from to p = Some b' -> from <> to ->
  rd b' q = if decide (q = to) then Some (Some (placed p to))
            else if decide (q = from) then Some None
            else rd b q.
Proof.
  unfold movedBoard. intros Hm Hne.
  destruct (setSq b to _) as [b1|] eqn:Hb1; [|discriminate]. rewrite obind_Some in Hm.
  destruct (setSq b1 from None) as [b2|] eqn:Hb2; [|discriminate]. rewrite obind_Some in Hm.
  unfold placed.
  destruct (promotes p to).
  - rewrite (rd_setSq _ _ _ _ q Hm).
    destruct (decide (q = to)); [done|].
    rewrite (rd_setSq _ _ _ _ q Hb2). destruct (decide (q = from)); [done|].
    rewrite (rd_setSq _ _ _ _ q Hb1). now rewrite decide_False.
  - injection Hm as <-.
    rewrite (rd_setSq _ _ _ _ q Hb2), (rd_setSq _ _ _ _ q Hb1).
    destruct (decide (q = to)) as [->|]; [|done].
    now rewrite decide_False.
Qed.

(** When a piece is "moved" onto its own square, the square ends up empty,
    unless the promotion block writes the queen there. *)
Lemma movedBoard_rd_same b pos p b' q :
  movedBoard b pos pos p = Some b' ->
  rd b' q = if decide (q = pos)
            then (if promotes p pos
                  then Some (Some {| type := queen; color := color p; hasMoved := true |})
                  else Some None)
            else rd b q.
Proof.
  unfold movedBoard. intros Hm.
  destruct (setSq b pos _) as [b1|] eqn:Hb1; [|discriminate]. rewrite obind_Some in Hm.
  destruct (setSq b1 pos None) as [b2|] eqn:Hb2; [|discriminate]. rewrite obind_Some in Hm.
  destruct (promotes p pos).
  - rewrite (rd_setSq _ _ _ _ q Hm).
    destruct (decide (q = pos)); [done|].
    rewrite (rd_setSq _ _ _ _ q Hb2), decide_False by done.
    rewrite (rd_setSq _ _ _ _ q Hb1). now rewrite decide_False.
  - injection Hm as <-.
    rewrite (rd_setSq _ _ _ _ q Hb2), (rd_setSq _ _ _ _ q Hb1).
    destruct (decide (q = pos)); done.
Qed.

Lemma rawMove_rd b from to p b' q :
  rd b from = Some (Some p) -> rawMove b from to = Some b' -> from <> to ->
  rd b' q = if decide (q = to) then Some (Some p)
            else if decide (q = from) then Some None
            else rd b q.
Proof.
  unfold rawMove. intros Hp Hm Hne. rewrite Hp, obind_Some in Hm.
  destruct (setSq b to _) as [b1|] eqn:Hb1; [|discriminate]. rewrite obind_Some in Hm.
  rewrite (rd_setSq _ _ _ _ q Hm), (rd_setSq _ _ _ _ q Hb1).
  destruct (decide (q = to)) as [->|]; [|done].
  now rewrite decide_False.
Qed.

Lemma okTarget_not_own b p position m :
  rd b position = Some (Some p) -> okTarget b p m -> m <> position.
Proof.
  intros Hp [_ Hm] ->. rewrite Hp in Hm. done.
Qed.

Lemma moved_similar b from to p braw b' :
  rd b from = Some (Some p) -> from <> to ->
  rawMove b from to = Some braw -> movedBoard b from to p = Some b' ->
  similar (color p) braw b'.
Proof.
  intros Hp Hne Hraw Hmoved q.
  rewrite (rawMove_rd _ _ _ _ _ q Hp Hraw Hne), (movedBoard_rd _ _ _ _ _ q Hmoved Hne).
  destruct (decide (q = to)).
  - split; [done|]. unfold placed. simpl.
    destruct (promotes p to) eqn:E; [|now left].
    apply promotes_spec in E as [E _]. right. rewrite E. done.
  - destruct (decide (q = from)); [done|].
    destruct (rd b q) as [[x|]|]; try done. split; [done | now left].
Qed.

(** [updateGameStatus] writes the four status flags only. *)
Lemma statusAfter_fields b s :
  board (statusAfter b s) = board s
  /\ currentPlayer (statusAfter b s) = currentPlayer s
  /\ selectedSquare (statusAfter b s) = selectedSquare s
  /\ legalMoves (statusAfter b s) = legalMoves s
  /\ moveHistory (statusAfter b s) = moveHistory s
  /\ difficulty (statusAfter b s) = difficulty s.
Proof.
  unfold statusAfter. destruct (existsb _ allSquares); [repeat split|].
  match goal with |- context [if ?c then _ else _] => destruct c end; repeat split.
Qed.

Lemma movedState_fields b' lm st :
  board (movedState b' lm st) = board st
  /\ currentPlayer (movedState b' lm st) = getOppositeColor (currentPlayer st)
  /\ selectedSquare (movedState b' lm st) = None
  /\ legalMoves (movedState b' lm st) = lm
  /\ moveHistory (movedState b' lm st) = moveHistory st
  /\ difficulty (movedState b' lm st) = difficulty st.
Proof.
  unfold movedState.
  destruct (statusAfter_fields b'
              (set_legalMoves lm
                 (set_selectedSquare None
                    (set_currentPlayer (getOppositeColor (currentPlayer st)) st))))
    as (-> & -> & -> & -> & -> & ->).
  repeat split.
Qed.

(** ** Accepted and rejected moves *)

(** C4, amended: [makeMove(from, to)] answers [false] and leaves the whole
    store as it was exactly when [from] holds no piece; when [from] holds a
    piece it answers [true], whatever the destination and whatever the
    [gameOver] flag.  If [to] is another square the piece is relocated: the
    moved piece (a queen on promotion) stands on [to] and [from] is empty.
    If [to] is [from] itself the piece is not relocated but removed: the
    square ends empty, unless the piece is a pawn on its far rank, which is
    replaced by a queen.  Every other square is untouched. *)
Theorem makeMove_rejects_only_empty_source h this gs st b hist from to :
  game_ok h this gs st b hist ->
  isValidPosition from = true ->
  isValidPosition to = true ->
  match rd b from with
  | None => False
  | Some None => makeMove this from to h = Some (false, h)
  | Some (Some p) =>
      exists h' st' b',
        makeMove this from to h = Some (true, h')
        /\ cells h' !! this = Some (CGame gs)
        /\ cells h' !! gs = Some (CState st')
        /\ board st' = board st
        /\ cells h' !! board st = Some (CBoard b')
        /\ (from <> to -> rd b' to = Some (Some (placed p to)) /\ rd b' from = Some None)
        /\ (from = to ->
            rd b' to = if promotes p to then Some (Some (placed p to)) else Some None)
        /\ (forall q, q <> from -> q <> to -> rd b' q = rd b q)
  end.
Proof.
  intros Hok Hfrom Hto.
  destruct (rd_valid b from (ok_rows _ _ _ _ _ _ Hok) Hfrom) as [[p|] Hp]; rewrite Hp.
  - pose proof (makeMove_accepted this gs st b hist from to p h Hok Hp Hto) as W.
    apply wp_elim in W as (r & h' & E & -> & b' & lm & Hmoved & _ & _ & Hok' & _).
    exists h', (movedState b' lm st), b'.
    pose proof (movedState_fields b' lm st) as (Hbd & _).
    split; [exact E|]. split; [apply Hok'|]. split; [apply Hok'|]. split; [exact Hbd|].
    split; [rewrite <- Hbd; apply Hok'|]. split; [|split].
    + intros Hne. rewrite !(movedBoard_rd _ _ _ _ _ _ Hmoved Hne).
      rewrite decide_True by reflexivity.
      rewrite decide_False by exact Hne. rewrite decide_True by reflexivity. auto.
    + intros Heq. subst to. rewrite (movedBoard_rd_same _ _ _ _ from Hmoved).
      rewrite decide_True by reflexivity. unfold placed.
      destruct (promotes p from); reflexivity.
    + intros q Hq1 Hq2. destruct (decide (from = to)) as [->|Hne].
      * rewrite (movedBoard_rd_same _ _ _ _ q Hmoved). now rewrite decide_False.
      * rewrite (movedBoard_rd _ _ _ _ _ q Hmoved Hne). now rewrite !decide_False.
  - eapply makeMove_rejected; eauto.
Qed.

(** C5: after a [makeMove] that answers [true] the player to move is the
    opposite colour; after one that answers [false] it is unchanged. *)
Theorem makeMove_alternates_player h this gs st b hist from to :
  game_ok h this gs st b hist ->
  isValidPosition from = true ->
  isValidPosition to = true ->
  exists r h' st',
    makeMove this from to h = Some (r, h')
    /\ cells h' !! this = Some (CGame gs)
    /\ cells h' !! gs = Some (CState st')
    /\ currentPlayer st' = if r then getOppositeColor (currentPlayer st)
                           else currentPlayer st.
Proof.
  intros Hok Hfrom Hto.
  destruct (rd_valid b from (ok_rows _ _ _ _ _ _ Hok) Hfrom) as [[p|] Hp].
  - pose proof (makeMove_accepted this gs st b hist from to p h Hok Hp Hto) as W.
    apply wp_elim in W as (r & h' & E & -> & b' & lm & Hmoved & _ & _ & Hok' & _).
    exists true, h', (movedState b' lm st).
    split; [exact E|]. split; [apply Hok'|]. split; [apply Hok'|].
    apply movedState_fields.
  - exists false, h, st. split; [eapply makeMove_rejected; eauto|].
    split; [apply Hok|]. split; [apply Hok | reflexivity].
Qed.

(** C6: when [makeMove] moves a pawn to the far rank of its colour, the
    destination holds a queen of that colour afterwards and the recorded
    [Move] has [promotion = queen]; in every other accepted move the field is
    absent and every piece on the board is either an untouched one or the
    moved piece, on [to], with the kind it had. *)
Theorem makeMove_promotes_to_queen h this gs st b hist fromSq toSq p :
  game_ok h this gs st b hist ->
  rd b fromSq = Some (Some p) ->
  isValidPosition toSq = true ->
  exists h' st' b' m,
    makeMove this fromSq toSq h = Some (true, h')
    /\ game_ok h' this gs st' b' (hist ++ [m])
    /\ board st' = board st /\ moveHistory st' = moveHistory st
    /\ from m = fromSq /\ to m = toSq /\ piece m = p
    /\ (type p = pawn ->
        (color p = white /\ row toSq = 0) \/ (color p = black /\ row toSq = 7) ->
        rd b' toSq = Some (Some {| type := queen; color := color p; hasMoved := true |})
        /\ promotion m = Some queen)
    /\ (~ (type p = pawn
           /\ ((color p = white /\ row toSq = 0) \/ (color p = black /\ row toSq = 7))) ->
        promotion m = None
        /\ forall q x, rd b' q = Some (Some x) ->
                       (q = toSq /\ type x = type p /\ color x = color p)
                       \/ rd b q = Some (Some x)).
Proof.
  intros Hok Hp Hto.
  pose proof (makeMove_accepted this gs st b hist fromSq toSq p h Hok Hp Hto) as W.
  apply wp_elim in W as (r & h' & E & -> & b' & lm & Hmoved & _ & _ & Hok' & _).
  exists h', (movedState b' lm st), b', (recorded b fromSq toSq p).
  split; [exact E|]. split; [exact Hok'|].
  split; [apply movedState_fields|]. split; [apply movedState_fields|].
  split; [reflexivity|]. split; [reflexivity|]. split; [reflexivity|].
  split.
  - intros Hpawn Hrank.
    assert (Hpr : promotes p toSq = true) by (apply promotes_spec; auto).
    split; [|simpl; now rewrite Hpr].
    destruct (decide (fromSq = toSq)) as [->|Hne].
    + rewrite (movedBoard_rd_same _ _ _ _ toSq Hmoved), decide_True by reflexivity.
      now rewrite Hpr.
    + rewrite (movedBoard_rd _ _ _ _ _ toSq Hmoved Hne), decide_True by reflexivity.
      unfold placed. now rewrite Hpr.
  - intros Hno.
    assert (Hpr : promotes p toSq = false).
    { destruct (promotes p toSq) eqn:E'; [|reflexivity].
      apply promotes_spec in E'. tauto. }
    split; [simpl; now rewrite Hpr|].
    intros q x Hq. destruct (decide (fromSq = toSq)) as [->|Hne].
    + rewrite (movedBoard_rd_same _ _ _ _ q Hmoved), Hpr in Hq.
      destruct (decide (q = toSq)); [discriminate | now right].
    + rewrite (movedBoard_rd _ _ _ _ _ q Hmoved Hne) in Hq.
      destruct (decide (q = toSq)) as [->|].
      * left. injection Hq as <-. unfold placed. rewrite Hpr. auto.
      * destruct (decide (q = fromSq)); [discriminate | now right].
Qed.

(** ** The self-check filter *)

(** C3: for a square that holds a piece, every destination that
    [getLegalMoves] returns is such that, once [makeMove] has played it,
    [isKingInCheck] for the colour of the moved piece answers [false]. *)
Theorem legal_moves_keep_own_king_safe h this gs st b hist position p dests h1 dest :
  game_ok h this gs st b hist ->
  rd b position = Some (Some p) ->
  getLegalMoves this position h = Some (dests, h1) ->
  dest ∈ dests ->
  exists h2 h3,
    makeMove this position dest h1 = Some (true, h2)
    /\ isKingInCheck this (color p) None h2 = Some (false, h3).
Proof.
  intros Hok Hp Hrun Hin.
  pose proof (ok_rows _ _ _ _ _ _ Hok) as Hrows.
  pose proof (getLegalMoves_spec this gs st b hist position _ h Hok Hp) as W.
  apply wp_elim in W as (r & h1' & E & -> & Hext).
  rewrite Hrun in E. injection E as -> <-.
  pose proof (game_ok_ext _ _ _ _ _ _ _ Hok Hext) as Hok1.
  pose proof (legalOn_targets b position p Hrows Hp) as Htargets.
  rewrite Forall_forall in Htargets. pose proof (Htargets dest Hin) as Htarget.
  pose proof (okTarget_not_own b p position dest Hp Htarget) as Hne.
  destruct Htarget as [Hvalid _].
  pose proof (makeMove_accepted this gs st b hist position dest p h1 Hok1 Hp Hvalid) as W.
  apply wp_elim in W as (r & h2 & E & -> & b' & lm & Hmoved & _ & _ & Hok2 & _).
  exists h2.
  pose proof (isKingInCheck_spec this (color p) None _ b' h2
                (boardOrOwn_None _ _ _ _ (ok_game _ _ _ _ _ _ Hok2) (ok_state _ _ _ _ _ _ Hok2))
                (ok_board _ _ _ _ _ _ Hok2) (ok_board_lt _ _ _ _ _ _ Hok2)
                (ok_rows _ _ _ _ _ _ Hok2)) as W.
  apply wp_elim in W as (v & h3 & E3 & -> & _).
  exists h3. split; [exact E|]. rewrite E3. f_equal. f_equal.
  (* the raw board of the filter and the board after the move are alike *)
  unfold legalOn in Hin. rewrite Hp in Hin.
  destruct (movesByType b position (type p)) as [ms|]; [|now apply elem_of_nil in Hin].
  apply list_elem_of_filter in Hin as [Hsafe _].
  unfold selfCheck in Hsafe.
  destruct (rawMove b position dest) as [braw|] eqn:Hraw.
  - rewrite <- Hsafe. symmetry.
    apply similar_attacked.
    eapply moved_similar; eauto.
  - exfalso. unfold rawMove in Hraw. rewrite Hp, obind_Some in Hraw.
    destruct (rd_valid b dest Hrows Hvalid) as [t Ht].
    apply isValidPosition_spec in Hvalid.
    destruct (setSq_total b dest (Some p) t Ht) as [b1 Hb1]; [lia|].
    rewrite Hb1, obind_Some in Hraw.
    assert (exists t1, rd b1 position = Some t1) as [t1 Ht1].
    { rewrite (rd_setSq _ _ _ _ position Hb1). destruct (decide (position = dest)); eauto. }
    destruct (setSq_total b1 position None t1 Ht1) as [b2 Hb2];
      [eapply rd_Some_col; eauto|].
    congruence.
Qed.

(** ** The opening position *)

Lemma newChessGame_ok h :
  wp newChessGame h (fun g h' =>
    exists gs st, game_ok h' g gs st createInitialBoard [] /\ heap_ext h h').
Proof.
  unfold newChessGame, initializeGame.
  repeat (apply wp_bind; apply wp_alloc). apply wp_alloc.
  exists (Pos.succ (Pos.succ (Pos.succ (next h)))).
  exists {| board := next h; currentPlayer := white; isCheck := false;
            isCheckmate := false; isStalemate := false; gameOver := false;
            selectedSquare := None; legalMoves := Pos.succ (next h);
            moveHistory := Pos.succ (Pos.succ (next h)); difficulty := medium |}.
  split.
  - split; simpl.
    + apply lookup_insert_eq.
    + rewrite lookup_insert_ne by lia. apply lookup_insert_eq.
    + rewrite !lookup_insert_ne by lia. apply lookup_insert_eq.
    + rewrite !lookup_insert_ne by lia. apply lookup_insert_eq.
    + lia.
    + lia.
    + lia.
    + lia.
    + unfold rows_ok. simpl. lia.
  - split; simpl; [lia|]. intros l Hl. now rewrite !lookup_insert_ne by lia.
Qed.

(** C7: in a freshly constructed game [getAllLegalMoves('white')] returns
    exactly 20 moves, 16 by pawns and 4 by knights, and
    [getAllLegalMoves('black')] returns 20 moves as well. *)
Theorem opening_has_twenty_moves h :
  exists g h1 ws h2 bs h3,
    newChessGame h = Some (g, h1)
    /\ getAllLegalMoves g white h1 = Some (ws, h2)
    /\ getAllLegalMoves g black h2 = Some (bs, h3)
    /\ length ws = 20%nat
    /\ length (filter (fun m => type (piece m) = pawn) ws) = 16%nat
    /\ length (filter (fun m => type (piece m) = knight) ws) = 4%nat
    /\ length bs = 20%nat
    /\ length (filter (fun m => type (piece m) = pawn) bs) = 16%nat
    /\ length (filter (fun m => type (piece m) = knight) bs) = 4%nat.
Proof.
  pose proof (newChessGame_ok h) as W.
  apply wp_elim in W as (g & h1 & E1 & gs & st & Hok & _).
  pose proof (getAllLegalMoves_spec g gs st _ _ white h1 Hok) as W.
  apply wp_elim in W as (ws & h2 & E2 & -> & Hext).
  pose proof (game_ok_ext _ _ _ _ _ _ _ Hok Hext) as Hok2.
  pose proof (getAllLegalMoves_spec g gs st _ _ black h2 Hok2) as W.
  apply wp_elim in W as (bs & h3 & E3 & -> & _).
  exists g, h1, (allLegalOn createInitialBoard white), h2,
    (allLegalOn createInitialBoard black), h3.
  split; [exact E1|]. split; [exact E2|]. split; [exact E3|].
  repeat split; vm_compute; reflexivity.
Qed.

(** ** Check detection is total *)

Lemma findKing_Some b side sqs kp :
  findKing b side sqs = Some (Some kp) -> hasKing b side.
Proof.
  induction sqs as [|pos rest IH]; simpl; [discriminate|].
  destruct (rd b pos) as [[p|]|] eqn:E; simpl; try discriminate; [|exact IH].
  destruct (bool_decide (type p = king)) eqn:Ek; simpl; [|exact IH].
  destruct (bool_decide (color p = side)) eqn:Ec; simpl; [|exact IH].
  intros _. exists pos, p.
  apply bool_decide_eq_true in Ek. apply bool_decide_eq_true in Ec. auto.
Qed.


(** ** Queries leave the engine alone *)

Lemma view_ext h h' this gs st b hist :
  game_ok h this gs st b hist ->
  (legalMoves st < next h)%positive ->
  heap_ext h h' ->
  view this h' = view this h.
Proof.
  intros Hok Hlm [_ Hext]. unfold view.
  rewrite (Hext this) by apply Hok. rewrite (ok_game _ _ _ _ _ _ Hok).
  rewrite (Hext gs) by apply Hok. rewrite (ok_state _ _ _ _ _ _ Hok).
  rewrite (Hext (board st)) by apply Hok.
  rewrite (Hext (legalMoves st)) by exact Hlm.
  rewrite (Hext (moveHistory st)) by apply Hok.
  reflexivity.
Qed.

Lemma getLegalMoves_throws h this gs st b hist position :
  game_ok h this gs st b hist ->
  rd b position = None ->
  getLegalMoves this position h = None.
Proof.
  intros Hok Hrd.
  unfold getLegalMoves, bind, readGame, readState, readBoard, bind, load.
  rewrite (ok_game _ _ _ _ _ _ Hok). unfold ret at 1.
  rewrite (ok_state _ _ _ _ _ _ Hok). unfold ret at 1.
  rewrite (ok_board _ _ _ _ _ _ Hok). unfold ret at 1.
  unfold lift. now rewrite Hrd.
Qed.

(** C10: [getLegalMoves] and [getAllLegalMoves] change no cell that was
    allocated before the call: the engine's state object, its board, its
    [legalMoves] and its history are afterwards what they were, although
    the self-check filter builds temporary boards and games. *)
Theorem queries_leave_state h this gs st b hist :
  game_ok h this gs st b hist ->
  (legalMoves st < next h)%positive ->
  (forall position r h',
      getLegalMoves this position h = Some (r, h') ->
      heap_ext h h' /\ view this h' = view this h)
  /\ (forall position, isValidPosition position = true ->
                       exists r h', getLegalMoves this position h = Some (r, h'))
  /\ (forall side, exists r h',
         getAllLegalMoves this side h = Some (r, h')
         /\ heap_ext h h' /\ view this h' = view this h).
Proof.
  intros Hok Hlm. pose proof (ok_rows _ _ _ _ _ _ Hok) as Hrows.
  split; [|split].
  - intros position r h' Hrun.
    destruct (rd b position) as [t|] eqn:Hrd.
    + pose proof (getLegalMoves_spec this gs st b hist position t h Hok Hrd) as W.
      apply wp_elim in W as (r' & h'' & E & _ & Hext).
      rewrite Hrun in E. injection E as _ <-.
      split; [exact Hext | eapply view_ext; eauto].
    + rewrite (getLegalMoves_throws h this gs st b hist position Hok Hrd) in Hrun.
      discriminate.
  - intros position Hv. destruct (rd_valid b position Hrows Hv) as [t Hrd].
    pose proof (getLegalMoves_spec this gs st b hist position t h Hok Hrd) as W.
    apply wp_elim in W as (r' & h'' & E & _). eauto.
  - intros side.
    pose proof (getAllLegalMoves_spec this gs st b hist side h Hok) as W.
    apply wp_elim in W as (r & h' & E & _ & Hext).
    exists r, h'. split; [exact E|]. split; [exact Hext | eapply view_ext; eauto].
Qed.
(** ** A move onto its own square *)

(** C4, as stated, fails: in a new game [makeMove(e2, e2)] answers [true]
    (e2 holds a pawn), and the pawn is not relocated: e2 is empty afterwards
    and white has seven pawns left. *)
Lemma own_square_move_removes_piece :
  rd createInitialBoard (sq 6 4) = Some (mk pawn white)
  /\ exists h' b',
       makeMove 5%positive (sq 6 4) (sq 6 4) freshHeap = Some (true, h')
       /\ cells h' !! 1%positive = Some (CBoard b')
       /\ rd b' (sq 6 4) = Some None
       /\ length (filter (fun pos => rd b' pos = Some (mk pawn white)) allSquares) = 7%nat
       /\ length (filter (fun pos => rd createInitialBoard pos = Some (mk pawn white))
                         allSquares) = 8%nat.
Proof.
  split; [reflexivity|].
  destruct (makeMove 5%positive (sq 6 4) (sq 6 4) freshHeap) as [[r h']|] eqn:E;
    [|vm_compute in E; discriminate].
  vm_compute in E. injection E as <- <-.
  eexists _, _. split; [reflexivity|]. split; [reflexivity|].
  split; [reflexivity|]. split; vm_compute; reflexivity.
Qed.


(** ** The snapshot *)

(** C1, as stated, fails: in a new game, writing [null] on e2 through the
    board of the snapshot that [getGameState] returned empties e2 on the
    engine's own board, and the engine then finds no move for e2. *)
Lemma snapshot_write_reaches_engine :
  exists snap h1 st h2,
    getGameState 5%positive freshHeap = Some (snap, h1)
    /\ cells h1 !! snap = Some (CState st)
    /\ writeSq (board st) (sq 6 4) None h1 = Some (tt, h2)
    /\ view 5%positive h2 <> view 5%positive h1
    /\ fst <$> getLegalMoves 5%positive (sq 6 4) h1 = Some [sq 5 4; sq 4 4]
    /\ fst <$> getLegalMoves 5%positive (sq 6 4) h2 = Some [].
Proof.
  destruct (getGameState 5%positive freshHeap) as [[snap h1]|] eqn:E1;
    [|vm_compute in E1; discriminate].
  exists snap, h1.
  assert (snap = 6%positive) as -> by (vm_compute in E1; congruence).
  exists freshState.
  destruct (writeSq 1%positive (sq 6 4) None h1) as [[[] h2]|] eqn:E2;
    [|injection E1 as <-; vm_compute in E2; discriminate].
  exists h2. injection E1 as <-. injection E2 as <-.
  split; [reflexivity|]. split; [reflexivity|]. split; [reflexivity|].
  split; [vm_compute; discriminate|]. split; vm_compute; reflexivity.
Qed.

Lemma modifyState_inv l f h h2 :
  modifyState l f h = Some (tt, h2) ->
  exists st, cells h !! l = Some (CState st)
             /\ h2 = {| cells := <[l := CState (f st)]> (cells h); next := next h |}.
Proof.
  unfold modifyState, bind, readState, bind, load, store.
  destruct (cells h !! l) as [[| st | | |]|]; simpl; try discriminate.
  intros [= <-]. eauto.
Qed.

(** C1, amended: [getGameState] returns a new object that holds the field
    values of the engine's state object; assigning to a field of the
    returned object changes no other object, but its board (like its
    [legalMoves] and its history) is the engine's own array, so a write into
    it is a write on the engine's board. *)
Theorem getGameState_shallow_copy h this gs st b hist :
  game_ok h this gs st b hist ->
  exists snap h1,
    getGameState this h = Some (snap, h1)
    /\ snap <> gs
    /\ cells h1 !! snap = Some (CState st)
    /\ heap_ext h h1
    /\ (forall f h2, modifyState snap f h1 = Some (tt, h2) ->
                     forall l, l <> snap -> cells h2 !! l = cells h1 !! l)
    /\ (forall pos v b', setSq b pos v = Some b' ->
          exists h2, writeSq (board st) pos v h1 = Some (tt, h2)
                     /\ game_ok h2 this gs st b' hist).
Proof.
  intros Hok.
  exists (next h), {| cells := <[next h := CState st]> (cells h); next := Pos.succ (next h) |}.
  assert (Hext : heap_ext h {| cells := <[next h := CState st]> (cells h);
                               next := Pos.succ (next h) |}) by apply heap_ext_alloc.
  pose proof (game_ok_ext _ _ _ _ _ _ _ Hok Hext) as Hok1.
  split; [|split; [|split; [|split; [|split]]]].
  - unfold getGameState, bind, readGame, readState, bind, load.
    rewrite (ok_game _ _ _ _ _ _ Hok). unfold ret at 1.
    rewrite (ok_state _ _ _ _ _ _ Hok). reflexivity.
  - pose proof (ok_gs_lt _ _ _ _ _ _ Hok). lia.
  - apply lookup_insert_eq.
  - exact Hext.
  - intros f h2 Hm l Hl. apply modifyState_inv in Hm as (st0 & _ & ->). simpl.
    now rewrite lookup_insert_ne.
  - intros pos v b' Hset.
    assert (W : wp (writeSq (board st) pos v)
                   {| cells := <[next h := CState st]> (cells h); next := Pos.succ (next h) |}
                   (fun _ h2 => game_ok h2 this gs st b' hist)).
    { eapply wp_writeSq; [exact Hok1 | exact Hset | auto]. }
    apply wp_elim in W as ([] & h2 & E & Hok2). eauto.
Qed.

(** ** The search engine and the history *)

(** C2 fails on the code: from a new game after 1. e4, [getBestMove] at
    difficulty hard leaves 434 moves in the engine's own [moveHistory], which
    held one. *)
Lemma hard_search_pushes_onto_history :
  fst <$> (let! g := newChessGame in
           let! _ := makeMove g (sq 6 4) (sq 4 4) in
           let! before := historyLength g in
           let! _ := ChessBot.getBestMove
                       {| ChessBot.game := g; ChessBot.difficulty := hard |} 0 0 in
           let! after := historyLength g in
           ret (before, after)) emptyHeap
  = Some (1%nat, 434%nat).
Proof. vm_compute. reflexivity. Qed.


(** ** Check detection on a board without its rows *)


(** ** The theorems at work on the opening position *)

Lemma getGameState_shallow_copy_witness :
  game_ok freshHeap 5%positive 4%positive freshState createInitialBoard []
  /\ exists snap h1, getGameState 5%positive freshHeap = Some (snap, h1)
                     /\ cells h1 !! snap = Some (CState freshState).
Proof.
  split; [exact freshHeap_ok|].
  destruct (getGameState_shallow_copy freshHeap 5%positive 4%positive freshState
              createInitialBoard [] freshHeap_ok)
    as (snap & h1 & E & _ & Hs & _).
  exists snap, h1. split; [exact E | exact Hs].
Defined.

Lemma makeMove_rejects_only_empty_source_witness :
  game_ok freshHeap 5%positive 4%positive freshState createInitialBoard []
  /\ isValidPosition (sq 7 0) = true
  /\ isValidPosition (sq 3 4) = true
  /\ exists h', makeMove 5%positive (sq 7 0) (sq 3 4) freshHeap = Some (true, h').
Proof.
  split; [exact freshHeap_ok|]. split; [reflexivity|]. split; [reflexivity|].
  pose proof (makeMove_rejects_only_empty_source freshHeap 5%positive 4%positive freshState
                createInitialBoard [] (sq 7 0) (sq 3 4) freshHeap_ok eq_refl eq_refl) as H.
  change (rd createInitialBoard (sq 7 0)) with (Some (mk rook white)) in H.
  destruct H as (h' & _ & _ & E & _). exists h'. exact E.
Defined.

Lemma makeMove_alternates_player_witness :
  game_ok freshHeap 5%positive 4%positive freshState createInitialBoard []
  /\ isValidPosition (sq 6 4) = true
  /\ isValidPosition (sq 4 4) = true
  /\ exists r h' st',
       makeMove 5%positive (sq 6 4) (sq 4 4) freshHeap = Some (r, h')
       /\ cells h' !! 4%positive = Some (CState st')
       /\ currentPlayer st' = if r then black else white.
Proof.
  split; [exact freshHeap_ok|]. split; [reflexivity|]. split; [reflexivity|].
  destruct (makeMove_alternates_player freshHeap 5%positive 4%positive freshState
              createInitialBoard [] (sq 6 4) (sq 4 4) freshHeap_ok eq_refl eq_refl)
    as (r & h' & st' & E & _ & Hs & Hc).
  exists r, h', st'. split; [exact E|]. split; [exact Hs | exact Hc].
Defined.

Lemma makeMove_promotes_to_queen_witness :
  game_ok freshHeap 5%positive 4%positive freshState createInitialBoard []
  /\ rd createInitialBoard (sq 6 0) = Some (mk pawn white)
  /\ isValidPosition (sq 0 0) = true
  /\ exists h' st' b' m,
       makeMove 5%positive (sq 6 0) (sq 0 0) freshHeap = Some (true, h')
       /\ game_ok h' 5%positive 4%positive st' b' [m]
       /\ rd b' (sq 0 0) = Some (Some {| type := queen; color := white; hasMoved := true |})
       /\ promotion m = Some queen.
Proof.
  split; [exact freshHeap_ok|]. split; [reflexivity|]. split; [reflexivity|].
  destruct (makeMove_promotes_to_queen freshHeap 5%positive 4%positive freshState
              createInitialBoard [] (sq 6 0) (sq 0 0)
              {| type := pawn; color := white; hasMoved := false |}
              freshHeap_ok eq_refl eq_refl)
    as (h' & st' & b' & m & E & Hok & _ & _ & _ & _ & _ & Hq & _).
  exists h', st', b', m. split; [exact E|]. split; [exact Hok|].
  apply Hq; [reflexivity|]. left. split; reflexivity.
Defined.

Lemma legal_moves_keep_own_king_safe_witness :
  game_ok freshHeap 5%positive 4%positive freshState createInitialBoard []
  /\ rd createInitialBoard (sq 6 4) = Some (mk pawn white)
  /\ exists dests h1,
       getLegalMoves 5%positive (sq 6 4) freshHeap = Some (dests, h1)
       /\ sq 4 4 ∈ dests
       /\ exists h2 h3,
            makeMove 5%positive (sq 6 4) (sq 4 4) h1 = Some (true, h2)
            /\ isKingInCheck 5%positive white None h2 = Some (false, h3).
Proof.
  split; [exact freshHeap_ok|]. split; [reflexivity|].
  destruct (getLegalMoves 5%positive (sq 6 4) freshHeap) as [[dests h1]|] eqn:E;
    [|vm_compute in E; discriminate].
  assert (Hd : dests = [sq 5 4; sq 4 4])
    by (pose proof E as E'; vm_compute in E'; injection E' as <- _; reflexivity).
  assert (Hin : sq 4 4 ∈ dests) by (rewrite Hd; right; left).
  exists dests, h1. split; [reflexivity|]. split; [exact Hin|].
  exact (legal_moves_keep_own_king_safe freshHeap 5%positive 4%positive freshState
           createInitialBoard [] (sq 6 4)
           {| type := pawn; color := white; hasMoved := false |}
           dests h1 (sq 4 4) freshHeap_ok eq_refl E Hin).
Defined.

Lemma queries_leave_state_witness :
  game_ok freshHeap 5%positive 4%positive freshState createInitialBoard []
  /\ (legalMoves freshState < next freshHeap)%positive
  /\ exists r h', getAllLegalMoves 5%positive white freshHeap = Some (r, h')
                  /\ view 5%positive h' = view 5%positive freshHeap.
Proof.
  assert (Hlt : (legalMoves freshState < next freshHeap)%positive) by reflexivity.
  split; [exact freshHeap_ok|]. split; [exact Hlt|].
  destruct (queries_leave_state freshHeap 5%positive 4%positive freshState
              createInitialBoard [] freshHeap_ok Hlt) as (_ & _ & Hall).
  destruct (Hall white) as (r & h' & E & _ & Hv).
  exists r, h'. split; [exact E | exact Hv].
Defined.
(** ** The new [legalMoves] array of an accepted move

    The same as [makeMove_accepted], with one fact more: the array that
    [makeMove] stores in [legalMoves] is allocated in the final heap. *)
Lemma makeMove_accepted_next this gs st b hist from to p h :
  game_ok h this gs st b hist ->
  rd b from = Some (Some p) ->
  isValidPosition to = true ->
  wp (makeMove this from to) h
     (fun r h' =>
        r = true
        /\ exists b' lm,
             movedBoard b from to p = Some b'
             /\ (next h <= lm)%positive
             /\ cells h' !! lm = Some (CSquares [])
             /\ game_ok h' this gs (movedState b' lm st) b' (hist ++ [recorded b from to p])
             /\ same_except [gs; board st; moveHistory st] h h'
             /\ (lm < next h')%positive).
Proof.
  intros Hok Hfrom Hto. pose proof (ok_rows _ _ _ _ _ _ Hok) as Hrows.
  destruct (movedBoard_total b from to p Hrows Hfrom Hto)
    as (b1 & b2 & b' & Hb1 & Hb2 & Hb3 & Hmoved).
  destruct (rd_valid b to Hrows Hto) as [t Ht].
  unfold makeMove.
  apply wp_bind. eapply wp_readGame; [apply Hok|].
  apply wp_bind. eapply wp_readState; [apply Hok|].
  apply wp_bind. eapply wp_readBoard; [apply Hok|].
  apply wp_bind. eapply wp_lift; [exact Hfrom|].
  apply wp_bind. eapply wp_lift; [exact Ht|].
  apply wp_bind. eapply wp_writeSq; [exact Hok | exact Hb1|]. intros h1 Hok1 Hs1.
  apply wp_bind. eapply wp_writeSq; [exact Hok1 | exact Hb2|]. intros h2 Hok2 Hs2.
  apply wp_bind.
  apply (wp_mono _ _ (fun _ h3 => game_ok h3 this gs st b' hist
                                  /\ same_except [gs; board st; moveHistory st] h2 h3)).
  { destruct (promotes p to).
    - eapply wp_writeSq; [exact Hok2 | exact Hb3|]. auto.
    - injection Hb3 as <-. apply wp_ret. split; [done | apply same_except_refl]. }
  intros _ h3 [Hok3 Hs3].
  apply wp_bind. eapply wp_readMoves; [apply Hok3|].
  apply wp_bind. apply wp_store.
  pose proof (game_ok_store_hist _ _ _ _ _ _
                (hist ++ [{| from := from; to := to; piece := p; capturedPiece := t;
                             promotion := if promotes p to then Some queen else None |}])
                Hok3) as Hok4.
  match type of Hok4 with game_ok ?hh _ _ _ _ _ => set (h4 := hh) in * end.
  assert (Hs4 : same_except [gs; board st; moveHistory st] h3 h4).
  { apply same_except_store. repeat first [left | right]. }
  apply wp_bind. eapply wp_modifyState_game; [exact Hok4 | reflexivity | done | done|].
  intros h5 Hok5 Hs5.
  apply wp_bind. eapply wp_modifyState_game; [exact Hok5 | reflexivity | done | done|].
  intros h6 Hok6 Hs6.
  apply wp_bind. apply wp_alloc.
  pose proof (game_ok_ext _ _ _ _ _ _ _ Hok6 (heap_ext_alloc h6 (CSquares []))) as Hok7.
  match type of Hok7 with game_ok ?hh _ _ _ _ _ => set (h7 := hh) in * end.
  assert (Hs7 : same_except [gs; board st; moveHistory st] h6 h7).
  { apply heap_ext_same_except, heap_ext_alloc. }
  apply wp_bind. eapply wp_modifyState_game; [exact Hok7 | reflexivity | done | done|].
  intros h8 Hok8 Hs8.
  apply wp_bind. eapply wp_mono; [eapply updateGameStatus_spec; exact Hok8|].
  intros _ h9 [Hok9 Hs9]. apply wp_ret. split; [done|].
  assert (Hle : (next h <= next h6)%positive).
  { destruct Hs1, Hs2, Hs3, Hs4, Hs5, Hs6. lia. }
  exists b', (next h6). split; [exact Hmoved|]. split; [exact Hle|].
  split; [|split; [|split]].
  - pose proof (ok_gs_lt _ _ _ _ _ _ Hok6) as Hg.
    pose proof (ok_board_lt _ _ _ _ _ _ Hok6) as Hbl.
    pose proof (ok_hist_lt _ _ _ _ _ _ Hok6) as Hhl.
    destruct Hs9 as [_ E9]. destruct Hs8 as [L8 E8]. subst h7. simpl in *.
    rewrite E9; [rewrite E8; [apply lookup_insert_eq | lia |] | lia |].
    + intros Hin. apply elem_of_cons in Hin as [Hin|Hin]; [lia|].
      apply elem_of_cons in Hin as [Hin|Hin];
        [lia|].
      apply elem_of_cons in Hin as [Hin|Hin];
        [lia|].
      now apply elem_of_nil in Hin.
    + intros Hin. apply elem_of_cons in Hin as [Hin|Hin]; [lia|].
      now apply elem_of_nil in Hin.
  - unfold movedState, recorded. rewrite Ht. exact Hok9.
  - eapply same_except_trans; [exact Hs1|].
    eapply same_except_trans; [exact Hs2|].
    eapply same_except_trans; [exact Hs3|].
    eapply same_except_trans; [exact Hs4|].
    eapply same_except_trans; [exact Hs5|].
    eapply same_except_trans; [exact Hs6|].
    eapply same_except_trans; [exact Hs7|].
    eapply same_except_trans; [exact Hs8|].
    destruct Hs9 as [L9 E9]. split; [exact L9|]. intros l Hl Hn. apply E9; [exact Hl|].
    intros Hin. apply Hn. apply elem_of_cons in Hin as [->|Hin]; [left|].
    now apply elem_of_nil in Hin.
  - destruct Hs9 as [L9 _]. destruct Hs8 as [L8 _]. subst h7. simpl in *. lia.
Qed.


(** * Beyond the claims: the geometry of the generators *)

Lemma mapM_concat_elem {A} (f : A -> option (list Position)) (xs : list A) segs m :
  mapM f xs = Some segs ->
  m ∈ concat segs <-> exists x ms, x ∈ xs /\ f x = Some ms /\ m ∈ ms.
Proof.
  intros H. apply mapM_Some_1 in H.
  induction H as [|x ms xs segs Hx _ IH]; simpl.
  - split.
    + intros Hin. now apply elem_of_nil in Hin.
    + intros (x & ms & Hin & _). now apply elem_of_nil in Hin.
  - rewrite elem_of_app, IH. split.
    + intros [Hin|(y & ms' & Hy & Hf & Hin)].
      * exists x, ms. split; [left | auto].
      * exists y, ms'. split; [now right | auto].
    + intros (y & ms' & Hy & Hf & Hin).
      apply elem_of_cons in Hy as [->|Hy].
      * left. congruence.
      * right. eauto.
Qed.

Lemma ray_one position d :
  ray position d 1 = {| row := row position + fst d; col := col position + snd d |}.
Proof. unfold ray. f_equal; lia. Qed.

Lemma stepOne_elem b position own d ms m :
  rd b position = Some (Some own) ->
  stepOne b position d = Some ms ->
  m ∈ ms <-> m = ray position d 1 /\ okTarget b own m.
Proof.
  intros Hown. pose proof (proj2 (rd_piece_Some b position own) Hown) as Hpiece.
  rewrite ray_one. unfold stepOne, okTarget.
  destruct (isValidPosition _) eqn:V.
  - destruct (rd b {| row := row position + d.1; col := col position + d.2 |})
      as [[t|]|] eqn:E; simpl; try discriminate.
    + rewrite Hpiece. simpl.
      unfold color_neq. destruct (bool_decide (color t = color own)) eqn:C; simpl;
        intros [= <-].
      * apply bool_decide_eq_true in C. split.
        -- intros Hin. now apply elem_of_nil in Hin.
        -- intros [-> [_ H]]. rewrite E in H. congruence.
      * apply bool_decide_eq_false in C. rewrite list_elem_of_singleton. split.
        -- intros ->. rewrite V, E. auto.
        -- tauto.
    + intros [= <-]. rewrite list_elem_of_singleton. split.
      * intros ->. rewrite V, E. auto.
      * tauto.
  - intros [= <-]. split.
    + intros Hin. now apply elem_of_nil in Hin.
    + intros [-> [H _]]. congruence.
Qed.

Lemma stepAll_elem b position own offsets ms m :
  rd b position = Some (Some own) ->
  stepAll b position offsets = Some ms ->
  m ∈ ms <-> stepsTo b position own offsets m.
Proof.
  intros Hown. unfold stepAll.
  destruct (mapM (stepOne b position) offsets) as [segs|] eqn:E; simpl; [|discriminate].
  intros [= <-]. rewrite (mapM_concat_elem _ _ _ m E). unfold stepsTo. split.
  - intros (d & ms & Hd & Hf & Hin). exists d. split; [exact Hd|].
    now apply (stepOne_elem b position own d ms m Hown Hf).
  - intros (d & Hd & Hm). 
    destruct (stepOne b position d) as [ms|] eqn:Hf.
    + exists d, ms. split; [exact Hd|]. split; [exact Hf|].
      now apply (stepOne_elem b position own d ms m Hown Hf).
    + apply mapM_Some_1 in E.
      exfalso. clear Hm. induction E as [|x y xs ys Hx _ IH].
      * now apply elem_of_nil in Hd.
      * apply elem_of_cons in Hd as [->|Hd]; [congruence | auto].
Qed.

(** The loop of the sliding generators from step [k] on, [n] steps long. *)
Lemma slide_elem b position own d n k ms m :
  rd b position = Some (Some own) ->
  slide b position (fst d) (snd d) (map (fun j => k + Z.of_nat j) (seq 0 n)) = Some ms ->
  m ∈ ms <->
  exists i, k <= i < k + Z.of_nat n /\ m = ray position d i
            /\ (forall j, k <= j < i ->
                          isValidPosition (ray position d j) = true
                          /\ rd b (ray position d j) = Some None)
            /\ okTarget b own m.
Proof.
  intros Hown. pose proof (proj2 (rd_piece_Some b position own) Hown) as Hpiece.
  revert k ms. induction n as [|n IH]; intros k ms; simpl.
  - intros [= <-]. split.
    + intros Hin. now apply elem_of_nil in Hin.
    + intros (i & Hi & _). lia.
  - replace (k + Z.of_nat 0) with k by lia.
    rewrite <- seq_shift, map_map.
    rewrite (map_ext _ (fun j => (k + 1) + Z.of_nat j)) by (intros; lia).
    fold (ray position d k).
    destruct (isValidPosition (ray position d k)) eqn:V.
    + destruct (rd b (ray position d k)) as [[t|]|] eqn:E; simpl; try discriminate.
      * rewrite Hpiece. simpl.
        unfold color_neq. destruct (bool_decide (color t = color own)) eqn:C; simpl;
          intros [= <-].
        -- apply bool_decide_eq_true in C. split.
           ++ intros Hin. now apply elem_of_nil in Hin.
           ++ intros (i & Hi & -> & Hpath & [_ Hfree]).
              destruct (decide (i = k)) as [->|Hne].
              ** rewrite E in Hfree. congruence.
              ** destruct (Hpath k) as [_ Hk]; [lia|]. congruence.
        -- apply bool_decide_eq_false in C. rewrite list_elem_of_singleton. split.
           ++ intros ->. exists k. split; [lia|]. split; [reflexivity|].
              split; [intros; lia|]. split; [exact V|]. now rewrite E.
           ++ intros (i & Hi & -> & Hpath & _).
              destruct (decide (i = k)) as [->|Hne]; [reflexivity|].
              destruct (Hpath k) as [_ Hk]; [lia|]. congruence.
      * destruct (slide b position d.1 d.2 _) as [more|] eqn:Hmore; simpl; [|discriminate].
        intros [= <-]. rewrite elem_of_cons, (IH (k + 1) more Hmore). split.
        -- intros [->|(i & Hi & -> & Hpath & Hok)].
           ++ exists k. split; [lia|]. split; [reflexivity|].
              split; [intros; lia|]. split; [exact V|]. now rewrite E.
           ++ exists i. split; [lia|]. split; [reflexivity|]. split; [|exact Hok].
              intros j Hj. destruct (decide (j = k)) as [->|]; [auto|].
              apply Hpath. lia.
        -- intros (i & Hi & -> & Hpath & Hok).
           destruct (decide (i = k)) as [->|Hne]; [now left|].
           right. exists i. split; [lia|]. split; [reflexivity|]. split; [|exact Hok].
           intros j Hj. apply Hpath. lia.
    + intros [= <-]. split.
      * intros Hin. now apply elem_of_nil in Hin.
      * intros (i & Hi & -> & Hpath & [Hv _]).
        destruct (decide (i = k)) as [->|Hne]; [congruence|].
        destruct (Hpath k) as [Hk _]; [lia|]. congruence.
Qed.

Lemma slideAll_elem b position own directions ms m :
  rd b position = Some (Some own) ->
  slideAll b position directions = Some ms ->
  m ∈ ms <-> slidesTo b position own directions m.
Proof.
  intros Hown. unfold slideAll.
  destruct (mapM _ directions) as [segs|] eqn:E; simpl; [|discriminate].
  intros [= <-]. rewrite (mapM_concat_elem _ _ _ m E). unfold slidesTo, clearTo. split.
  - intros (d & ms & Hd & Hf & Hin).
    apply (slide_elem b position own d 7 1 ms m Hown Hf) in Hin
      as (i & Hi & -> & Hpath & Hok).
    exists d, i. split; [exact Hd|]. split; [lia|]. auto.
  - intros (d & i & Hd & Hi & -> & Hpath & Hok).
    destruct (slide b position d.1 d.2 [1; 2; 3; 4; 5; 6; 7]) as [ms|] eqn:Hf.
    + exists d, ms. split; [exact Hd|]. split; [exact Hf|].
      apply (slide_elem b position own d 7 1 ms _ Hown Hf).
      exists i. split; [simpl; lia|]. auto.
    + apply mapM_Some_1 in E.
      exfalso. clear Hok Hpath. induction E as [|x y xs ys Hx _ IH].
      * now apply elem_of_nil in Hd.
      * apply elem_of_cons in Hd as [->|Hd]; [congruence | auto].
Qed.

Lemma elem_of_pair_list (d : Z * Z) (ds : list (Z * Z)) :
  d ∈ ds <-> In d ds.
Proof. apply list_elem_of_In. Qed.

(** X1: on a board with its rows, the generator of every kind of piece
    returns for a square that holds a piece, and each square it returns is
    on the board and is empty or held by the other colour: never the
    piece's own square, never a piece of its own colour. *)
Theorem generators_stay_on_board b position own t :
  rows_ok b ->
  rd b position = Some (Some own) ->
  exists ms,
    movesByType b position t = Some ms
    /\ forall m, m ∈ ms ->
         isValidPosition m = true /\ m <> position
         /\ (rd b m = Some None
             \/ exists x, rd b m = Some (Some x) /\ color x <> color own).
Proof.
  intros Hrows Hown.
  destruct (movesByType_total b position own Hrows Hown t) as (ms & E & Hall).
  exists ms. split; [exact E|]. intros m Hin.
  rewrite Forall_forall in Hall. pose proof (Hall m Hin) as Hok.
  split; [apply Hok|]. split; [eapply okTarget_not_own; eauto|].
  destruct Hok as [_ Hfree]. destruct (rd b m) as [[x|]|]; [right; eauto | now left | done].
Qed.

(** X2: the knight's moves are exactly the squares an L-step away (one
    row and two columns, or two rows and one column) that are on the board
    and not held by its own colour. *)
Theorem knight_moves_exact b position own :
  rows_ok b ->
  rd b position = Some (Some own) ->
  exists ms,
    getKnightMoves b position = Some ms
    /\ forall m, m ∈ ms <->
         okTarget b own m
         /\ ((Z.abs (row m - row position) = 1 /\ Z.abs (col m - col position) = 2)
             \/ (Z.abs (row m - row position) = 2 /\ Z.abs (col m - col position) = 1)).
Proof.
  intros Hrows Hown.
  destruct (movesByType_total b position own Hrows Hown knight) as (ms & E & _).
  exists ms. split; [exact E|]. intros m.
  rewrite (stepAll_elem b position own _ ms m Hown E). unfold stepsTo. split.
  - intros (d & Hd & -> & Hok). split; [exact Hok|].
    apply list_elem_of_In in Hd. simpl in Hd.
    repeat (destruct Hd as [<-|Hd]; [simpl; lia|]). destruct Hd.
  - intros [Hok Hshape].
    exists (row m - row position, col m - col position). split.
    + apply list_elem_of_In. simpl.
      assert (row m - row position = -2 \/ row m - row position = -1
              \/ row m - row position = 1 \/ row m - row position = 2) by lia.
      assert (col m - col position = -2 \/ col m - col position = -1
              \/ col m - col position = 1 \/ col m - col position = 2) by lia.
      destruct H as [Er|[Er|[Er|Er]]], H0 as [Ec|[Ec|[Ec|Ec]]];
        try (exfalso; lia); rewrite Er, Ec; auto 12.
    + split; [|exact Hok]. apply position_eq; simpl; lia.
Qed.

(** X3: the king's moves are exactly the squares next to it (at most one row
    and one column away, not its own square) that are on the board and not
    held by its own colour; there is no castling. *)
Theorem king_moves_exact b position own :
  rows_ok b ->
  rd b position = Some (Some own) ->
  exists ms,
    getKingMoves b position = Some ms
    /\ forall m, m ∈ ms <->
         okTarget b own m /\ m <> position
         /\ Z.abs (row m - row position) <= 1 /\ Z.abs (col m - col position) <= 1.
Proof.
  intros Hrows Hown.
  destruct (movesByType_total b position own Hrows Hown king) as (ms & E & _).
  exists ms. split; [exact E|]. intros m.
  rewrite (stepAll_elem b position own _ ms m Hown E). unfold stepsTo. split.
  - intros (d & Hd & -> & Hok). split; [exact Hok|].
    split; [eapply okTarget_not_own; eauto|].
    apply list_elem_of_In in Hd. simpl in Hd.
    repeat (destruct Hd as [<-|Hd]; [simpl; lia|]). destruct Hd.
  - intros (Hok & Hne & Hr & Hc).
    exists (row m - row position, col m - col position). split.
    + apply list_elem_of_In. simpl.
      assert (row m - row position = -1 \/ row m - row position = 0
              \/ row m - row position = 1) by lia.
      assert (col m - col position = -1 \/ col m - col position = 0
              \/ col m - col position = 1) by lia.
      destruct H as [Er|[Er|Er]], H0 as [Ec|[Ec|Ec]];
        try (exfalso; apply Hne; apply position_eq; lia); rewrite Er, Ec; auto 12.
    + split; [|exact Hok]. apply position_eq; simpl; lia.
Qed.

(** X4: rook, bishop and queen slide: a rook move is some number of steps
    along a row or a column, a bishop move along a diagonal, over squares
    that are all empty, onto a square that is empty or held by the other
    colour; the queen's moves are the rook's followed by the bishop's.
    Nothing else is generated and nothing that qualifies is left out. *)
Theorem sliding_moves_exact b position own :
  rows_ok b ->
  rd b position = Some (Some own) ->
  exists rs ds,
    getRookMoves b position = Some rs
    /\ getBishopMoves b position = Some ds
    /\ getQueenMoves b position = Some (rs ++ ds)
    /\ (forall m, m ∈ rs <->
          slidesTo b position own [(0, 1); (0, -1); (1, 0); (-1, 0)] m)
    /\ (forall m, m ∈ ds <->
          slidesTo b position own [(1, 1); (1, -1); (-1, 1); (-1, -1)] m).
Proof.
  intros Hrows Hown.
  destruct (movesByType_total b position own Hrows Hown rook) as (rs & Er & _).
  destruct (movesByType_total b position own Hrows Hown bishop) as (ds & Ed & _).
  simpl in Er, Ed.
  exists rs, ds. split; [exact Er|]. split; [exact Ed|].
  split; [unfold getQueenMoves; now rewrite Er, Ed|].
  split; intros m.
  - apply (slideAll_elem b position own _ rs m Hown Er).
  - apply (slideAll_elem b position own _ ds m Hown Ed).
Qed.

Lemma pawnForward_elem b position direction startRow fw m :
  pawnForward b position direction startRow = Some fw ->
  m ∈ fw <->
  (m = {| row := row position + direction; col := col position |}
   /\ isValidPosition {| row := row position + direction; col := col position |} = true
   /\ rd b {| row := row position + direction; col := col position |} = Some None)
  \/ (m = {| row := row position + 2 * direction; col := col position |}
      /\ row position = startRow
      /\ isValidPosition {| row := row position + direction; col := col position |} = true
      /\ rd b {| row := row position + direction; col := col position |} = Some None
      /\ isValidPosition {| row := row position + 2 * direction; col := col position |} = true
      /\ rd b {| row := row position + 2 * direction; col := col position |} = Some None).
Proof.
  unfold pawnForward.
  set (one := {| row := row position + direction; col := col position |}).
  set (two := {| row := row position + 2 * direction; col := col position |}).
  destruct (isValidPosition one) eqn:V1.
  2:{ intros [= <-]. split; [intros Hin; now apply elem_of_nil in Hin|].
      intros [(_ & H & _)|(_ & _ & H & _)]; discriminate. }
  destruct (rd b one) as [[t|]|] eqn:E1; simpl; try discriminate.
  { intros [= <-]. split; [intros Hin; now apply elem_of_nil in Hin|].
    intros [(_ & _ & H)|(_ & _ & _ & H & _)]; discriminate. }
  destruct (Z.eqb_spec (row position) startRow) as [Hs|Hs].
  - destruct (isValidPosition two) eqn:V2.
    + destruct (rd b two) as [[t|]|] eqn:E2; simpl; try discriminate; intros [= <-].
      * rewrite list_elem_of_singleton. split; [auto|].
        intros [(-> & _)|(_ & _ & _ & _ & _ & H)]; [reflexivity | discriminate].
      * rewrite elem_of_cons, list_elem_of_singleton. split.
        -- intros [->| ->]; [left | right]; auto 10.
        -- intros [(-> & _)|(-> & _)]; auto.
    + intros [= <-]. rewrite list_elem_of_singleton. split; [auto|].
      intros [(-> & _)|(_ & _ & _ & _ & H & _)]; [reflexivity | discriminate].
  - intros [= <-]. rewrite list_elem_of_singleton. split; [auto|].
    intros [(-> & _)|(_ & H & _)]; [reflexivity | contradiction].
Qed.

Lemma pawnCapture_elem b position p direction colOffset ms m :
  pawnCapture b position p direction colOffset = Some ms ->
  m ∈ ms <->
  m = {| row := row position + direction; col := col position + colOffset |}
  /\ isValidPosition m = true
  /\ exists t, rd b m = Some (Some t) /\ color t <> color p.
Proof.
  unfold pawnCapture.
  set (cap := {| row := row position + direction; col := col position + colOffset |}).
  destruct (isValidPosition cap) eqn:V.
  2:{ intros [= <-]. split; [intros Hin; now apply elem_of_nil in Hin|].
      intros (-> & H & _). congruence. }
  destruct (rd b cap) as [[t|]|] eqn:E; simpl; try discriminate.
  - unfold color_neq. destruct (bool_decide (color t = color p)) eqn:C; simpl; intros [= <-].
    + apply bool_decide_eq_true in C.
      split; [intros Hin; now apply elem_of_nil in Hin|].
      intros (-> & _ & x & Hx & Hc). rewrite E in Hx. congruence.
    + apply bool_decide_eq_false in C. rewrite list_elem_of_singleton. split.
      * intros ->. split; [reflexivity|]. split; [exact V|]. eauto.
      * tauto.
  - intros [= <-]. split; [intros Hin; now apply elem_of_nil in Hin|].
    intros (-> & _ & x & Hx & _). rewrite E in Hx. discriminate.
Qed.

(** X5: the pawn's moves are exactly: the square ahead (towards row 0 for
    white, row 7 for black) when it is empty; from the starting row, the
    square two ahead when both are empty; and each diagonal square ahead
    that holds an opposing piece.  There is no en passant. *)
Theorem pawn_moves_exact b position own :
  rows_ok b ->
  rd b position = Some (Some own) ->
  exists ms,
    getPawnMoves b position = Some ms
    /\ forall m, m ∈ ms <-> pawnMovesTo b position own m.
Proof.
  intros Hrows Hown.
  destruct (movesByType_total b position own Hrows Hown pawn) as (ms & E & _).
  exists ms. split; [exact E|]. intros m.
  simpl in E. unfold getPawnMoves in E.
  rewrite (proj2 (rd_piece_Some b position own) Hown), obind_Some in E.
  fold (pawnDirection (color own)) in E. fold (pawnStartRow (color own)) in E.
  destruct (pawnForward b position _ _) as [fw|] eqn:Efw; [|discriminate].
  rewrite obind_Some in E.
  destruct (mapM _ [-1; 1]) as [segs|] eqn:Ecap; [|discriminate].
  rewrite obind_Some in E. injection E as <-.
  rewrite elem_of_app, (pawnForward_elem _ _ _ _ _ m Efw),
    (mapM_concat_elem _ _ _ m Ecap).
  unfold pawnMovesTo. cbv zeta. split.
  - intros [[H|H]|(off & cs & Hoff & Hf & Hin)]; [now left | now right; left |].
    right. right. exists off. split.
    + apply list_elem_of_In in Hoff. simpl in Hoff. lia.
    + now apply (pawnCapture_elem _ _ _ _ _ cs m Hf).
  - intros [H|[H|(off & Hoff & Hm)]]; [left; now left | left; now right |].
    right.
    destruct (pawnCapture b position own (pawnDirection (color own)) off) as [cs|] eqn:Hf.
    + exists off, cs. split; [apply list_elem_of_In; simpl; lia|].
      split; [exact Hf|]. now apply (pawnCapture_elem _ _ _ _ _ cs m Hf).
    + exfalso. apply mapM_Some_1 in Ecap.
      inversion Ecap as [|? ? ? ? H1 H2]; subst.
      inversion H2 as [|? ? ? ? H3 H4]; subst.
      destruct Hoff as [-> | ->]; congruence.
Qed.

(** * Beyond the claims: the engine *)

Lemma allSquares_complete pos : isValidPosition pos = true -> pos ∈ allSquares.
Proof.
  intros Hv. apply isValidPosition_spec in Hv. apply list_elem_of_In.
  unfold allSquares. apply in_flat_map. exists (row pos). split.
  - assert (H : row pos = 0 \/ row pos = 1 \/ row pos = 2 \/ row pos = 3 \/ row pos = 4
                \/ row pos = 5 \/ row pos = 6 \/ row pos = 7) by lia.
    unfold idx8. simpl. intuition auto.
  - apply in_map_iff. exists (col pos). split; [now destruct pos|].
    assert (H : col pos = 0 \/ col pos = 1 \/ col pos = 2 \/ col pos = 3 \/ col pos = 4
                \/ col pos = 5 \/ col pos = 6 \/ col pos = 7) by lia.
    unfold idx8. simpl. intuition auto.
Qed.

Lemma allSquares_valid_elem pos : pos ∈ allSquares -> isValidPosition pos = true.
Proof.
  intros Hin. pose proof allSquares_valid as Hall. rewrite Forall_forall in Hall. auto.
Qed.

Lemma allLegalOn_elem b side m :
  m ∈ allLegalOn b side <->
  isValidPosition (from m) = true
  /\ rd b (from m) = Some (Some (piece m))
  /\ color (piece m) = side
  /\ to m ∈ legalOn b (from m)
  /\ capturedPiece m = match rd b (to m) with Some t => t | None => None end
  /\ promotion m = None.
Proof.
  unfold allLegalOn. rewrite list_elem_of_In, in_flat_map. split.
  - intros (pos & Hpos & Hm).
    apply list_elem_of_In, allSquares_valid_elem in Hpos.
    destruct (rd b pos) as [[p|]|] eqn:E; try (now destruct Hm).
    destruct (bool_decide (color p = side)) eqn:C; [|now destruct Hm].
    apply bool_decide_eq_true in C.
    apply in_map_iff in Hm as (move & <- & Hmove). simpl.
    rewrite E. repeat split; auto. now apply list_elem_of_In.
  - intros (Hv & Hp & Hc & Hto & Hcap & Hpr).
    exists (from m). split; [now apply list_elem_of_In, allSquares_complete|].
    rewrite Hp, bool_decide_eq_true_2 by exact Hc.
    apply in_map_iff. exists (to m). split; [|now apply list_elem_of_In].
    destruct m; simpl in *. now subst.
Qed.

(** X6: [getAllLegalMoves(color)] returns, and a [Move] is in its result
    exactly when its [from] is a square of the board holding a piece of that
    colour (recorded as [piece]), its [to] is one of the destinations that
    [getLegalMoves] gives for [from], [capturedPiece] is what stands on [to]
    and [promotion] is absent; a captured piece is never of the mover's
    colour. *)
Theorem getAllLegalMoves_exact h this gs st b hist side :
  game_ok h this gs st b hist ->
  exists ms h',
    getAllLegalMoves this side h = Some (ms, h')
    /\ (forall m, m ∈ ms <->
          isValidPosition (from m) = true
          /\ rd b (from m) = Some (Some (piece m))
          /\ color (piece m) = side
          /\ (exists ls h1, getLegalMoves this (from m) h = Some (ls, h1) /\ to m ∈ ls)
          /\ rd b (to m) = Some (capturedPiece m)
          /\ promotion m = None)
    /\ (forall m x, m ∈ ms -> capturedPiece m = Some x -> color x <> side).
Proof.
  intros Hok. pose proof (ok_rows _ _ _ _ _ _ Hok) as Hrows.
  pose proof (getAllLegalMoves_spec this gs st b hist side h Hok) as W.
  apply wp_elim in W as (ms & h' & E & -> & _).
  exists (allLegalOn b side), h'. split; [exact E|].
  assert (Hlegal : forall m, rd b (from m) = Some (Some (piece m)) ->
            (to m ∈ legalOn b (from m) <->
             exists ls h1, getLegalMoves this (from m) h = Some (ls, h1) /\ to m ∈ ls)).
  { intros m Hp.
    pose proof (getLegalMoves_spec this gs st b hist (from m) _ h Hok Hp) as W.
    apply wp_elim in W as (ls & h1 & E1 & -> & _). split.
    - intros Hin. eauto.
    - intros (ls & h2 & E2 & Hin). rewrite E1 in E2. now injection E2 as <- _. }
  assert (Htarget : forall m, rd b (from m) = Some (Some (piece m)) ->
            to m ∈ legalOn b (from m) -> okTarget b (piece m) (to m)).
  { intros m Hp Hin. pose proof (legalOn_targets b (from m) (piece m) Hrows Hp) as Hall.
    rewrite Forall_forall in Hall. auto. }
  split.
  - intros m. rewrite allLegalOn_elem. split.
    + intros (Hv & Hp & Hc & Hto & Hcap & Hpr).
      repeat split; auto; [now apply Hlegal|].
      destruct (Htarget m Hp Hto) as [Hvt _].
      destruct (rd_valid b (to m) Hrows Hvt) as [t Ht]. rewrite Ht in *. now subst.
    + intros (Hv & Hp & Hc & Hto & Hcap & Hpr).
      repeat split; auto; [now apply Hlegal | now rewrite Hcap].
  - intros m x Hin Hx. apply allLegalOn_elem in Hin as (Hv & Hp & Hc & Hto & Hcap & _).
    destruct (Htarget m Hp Hto) as [_ Hfree].
    rewrite Hx in Hcap. destruct (rd b (to m)) as [[t|]|]; try discriminate; try done.
    injection Hcap as <-. congruence.
Qed.

Lemma allLegalOn_nil b side :
  rows_ok b ->
  allLegalOn b side = [] <-> existsb (hasLegalMove b side) allSquares = false.
Proof.
  intros Hrows. unfold allLegalOn.
  induction allSquares as [|pos rest IH]; simpl; [tauto|].
  rewrite orb_false_iff, <- IH. clear IH.
  assert (Hhead : match rd b pos with
                  | Some (Some p) =>
                      if bool_decide (color p = side)
                      then map (fun move =>
                                  {| from := pos; to := move; piece := p;
                                     capturedPiece := match rd b move with
                                                      | Some t => t | None => None end;
                                     promotion := None |}) (legalOn b pos)
                      else []
                  | _ => []
                  end = [] <-> hasLegalMove b side pos = false).
  { unfold hasLegalMove. destruct (rd b pos) as [[p|]|]; try tauto.
    destruct (bool_decide (color p = side)); simpl; [|tauto].
    destruct (legalOn b pos); simpl; [tauto|]. split; [discriminate|].
    intros H. apply Z.ltb_ge in H. lia. }
  rewrite <- Hhead. split.
  - intros H. apply app_eq_nil in H. tauto.
  - intros [-> ->]. reflexivity.
Qed.

(** X7: after an accepted move the status flags are those of the new
    player to move: [isCheck] is what [isKingInCheck] answers for that
    player; when [getAllLegalMoves] for that player is empty the game is over,
    by checkmate if the player is in check and by stalemate otherwise; when
    it is not empty the three terminal flags keep the values they had (they
    are never cleared). *)
Theorem makeMove_sets_status h this gs st b hist source target p :
  game_ok h this gs st b hist ->
  rd b source = Some (Some p) ->
  isValidPosition target = true ->
  exists h' st' chk h1 ms h2,
    makeMove this source target h = Some (true, h')
    /\ cells h' !! this = Some (CGame gs)
    /\ cells h' !! gs = Some (CState st')
    /\ isKingInCheck this (currentPlayer st') None h' = Some (chk, h1)
    /\ getAllLegalMoves this (currentPlayer st') h' = Some (ms, h2)
    /\ isCheck st' = chk
    /\ (ms = [] ->
        gameOver st' = true
        /\ if chk
           then isCheckmate st' = true /\ isStalemate st' = isStalemate st
           else isStalemate st' = true /\ isCheckmate st' = isCheckmate st)
    /\ (ms <> [] ->
        isCheckmate st' = isCheckmate st /\ isStalemate st' = isStalemate st
        /\ gameOver st' = gameOver st).
Proof.
  intros Hok Hp Hto.
  pose proof (makeMove_accepted this gs st b hist source target p h Hok Hp Hto) as W.
  apply wp_elim in W as (r & h' & E & -> & b' & lm & Hmoved & _ & _ & Hok' & _).
  pose proof (ok_rows _ _ _ _ _ _ Hok') as Hrows'.
  set (st' := movedState b' lm st) in *.
  pose proof (isKingInCheck_spec this (currentPlayer st') None _ b' h'
                (boardOrOwn_None _ _ _ _ (ok_game _ _ _ _ _ _ Hok') (ok_state _ _ _ _ _ _ Hok'))
                (ok_board _ _ _ _ _ _ Hok') (ok_board_lt _ _ _ _ _ _ Hok') Hrows') as W.
  apply wp_elim in W as (chk & h1 & E1 & -> & _).
  pose proof (getAllLegalMoves_spec this gs st' b' _ (currentPlayer st') h' Hok') as W.
  apply wp_elim in W as (ms & h2 & E2 & -> & _).
  exists h', st', (attacked b' (currentPlayer st')), h1,
    (allLegalOn b' (currentPlayer st')), h2.
  split; [exact E|]. split; [apply Hok'|]. split; [apply Hok'|].
  split; [exact E1|]. split; [exact E2|].
  rewrite (allLegalOn_nil b' (currentPlayer st') Hrows').
  assert (Hcp : currentPlayer st' = getOppositeColor (currentPlayer st))
    by apply movedState_fields.
  rewrite Hcp. subst st'. unfold movedState, statusAfter.
  change (currentPlayer (set_legalMoves lm (set_selectedSquare None
            (set_currentPlayer (getOppositeColor (currentPlayer st)) st))))
    with (getOppositeColor (currentPlayer st)).
  destruct (existsb _ allSquares); simpl.
  - split; [reflexivity|]. split; [discriminate | auto].
  - destruct (attacked b' (getOppositeColor (currentPlayer st))); simpl;
      (split; [reflexivity|]); (split; [auto | intros H; now destruct H]).
Qed.

(** X8: "game over" means checkmate or stalemate, and [makeMove] keeps it
    so: if [gameOver] holds exactly when [isCheckmate] or [isStalemate]
    does before the call, the same is true after it, whether the move was
    accepted or rejected. *)
Theorem makeMove_keeps_gameOver_meaning h this gs st b hist source target :
  game_ok h this gs st b hist ->
  isValidPosition source = true ->
  isValidPosition target = true ->
  gameOver st = isCheckmate st || isStalemate st ->
  exists r h' st',
    makeMove this source target h = Some (r, h')
    /\ cells h' !! this = Some (CGame gs)
    /\ cells h' !! gs = Some (CState st')
    /\ gameOver st' = isCheckmate st' || isStalemate st'.
Proof.
  intros Hok Hfrom Hto Hinv.
  destruct (rd_valid b source (ok_rows _ _ _ _ _ _ Hok) Hfrom) as [[p|] Hp].
  - pose proof (makeMove_accepted this gs st b hist source target p h Hok Hp Hto) as W.
    apply wp_elim in W as (r & h' & E & -> & b' & lm & Hmoved & _ & _ & Hok' & _).
    exists true, h', (movedState b' lm st).
    split; [exact E|]. split; [apply Hok'|]. split; [apply Hok'|].
    unfold movedState, statusAfter.
    destruct (existsb _ allSquares); simpl; [exact Hinv|].
    destruct (attacked b' _); simpl; [reflexivity|].
    now rewrite orb_true_r.
  - exists false, h, st. split; [eapply makeMove_rejected; eauto|].
    split; [apply Hok|]. split; [apply Hok | exact Hinv].
Qed.

(** ** Clicks *)

(** X9: [selectSquare] does nothing at all, whatever the square, when the
    game is over or when it is black's turn. *)
Theorem selectSquare_ignored h this gs st b hist position :
  game_ok h this gs st b hist ->
  gameOver st = true \/ currentPlayer st = black ->
  selectSquare this position h = Some (tt, h).
Proof.
  intros Hok Hcase. unfold selectSquare, bind, readGame, readState, bind, load.
  rewrite (ok_game _ _ _ _ _ _ Hok). unfold ret at 1.
  rewrite (ok_state _ _ _ _ _ _ Hok). unfold ret at 1.
  destruct Hcase as [-> | ->]; [reflexivity|].
  rewrite bool_decide_eq_true_2 by reflexivity. now rewrite orb_true_r.
Qed.

Lemma selectPiece_spec h this gs st b hist position t :
  game_ok h this gs st b hist ->
  rd b position = Some t ->
  wp (selectPiece this gs position) h
     (fun _ h' =>
        exists lm,
          game_ok h' this gs (set_legalMoves lm (set_selectedSquare (Some position) st)) b hist
          /\ selection_ok h' (set_legalMoves lm (set_selectedSquare (Some position) st)) b
          /\ same_except [gs] h h').
Proof.
  intros Hok Ht. unfold selectPiece.
  apply wp_bind. eapply wp_modifyState; [apply Hok|].
  set (st1 := set_selectedSquare (Some position) st).
  set (h1 := {| cells := <[gs := CState st1]> (cells h); next := next h |}).
  assert (Hok1 : game_ok h1 this gs st1 b hist)
    by (apply (game_ok_store_state h this gs st st1 b hist Hok); reflexivity).
  apply wp_bind. eapply wp_mono; [eapply getLegalMoves_spec; [exact Hok1 | exact Ht]|].
  intros moves h2 [-> Hext]. cbv beta.
  pose proof (game_ok_ext _ _ _ _ _ _ _ Hok1 Hext) as Hok2.
  apply wp_bind. apply wp_alloc.
  set (h3 := {| cells := <[next h2 := CSquares (legalOn b position)]> (cells h2);
                next := Pos.succ (next h2) |}).
  pose proof (game_ok_ext _ _ _ _ _ _ _ Hok2
                (heap_ext_alloc h2 (CSquares (legalOn b position)))) as Hok3.
  fold h3 in Hok3.
  eapply wp_modifyState; [apply Hok3|].
  exists (next h2).
  pose proof (ok_gs_lt _ _ _ _ _ _ Hok2) as Hgs.
  split; [|split].
  - apply (game_ok_store_state h3 this gs st1 _ b hist Hok3); reflexivity.
  - split; simpl; [lia|]. rewrite lookup_insert_ne by lia. apply lookup_insert_eq.
  - eapply same_except_trans; [apply (same_except_store [gs] gs (CState st1) h); left|].
    fold h1.
    eapply same_except_trans; [apply heap_ext_same_except; exact Hext|].
    eapply same_except_trans;
      [apply heap_ext_same_except; apply (heap_ext_alloc h2 (CSquares (legalOn b position)))|].
    fold h3. apply same_except_store. left.
Qed.

Lemma existsb_isSamePosition position lms :
  existsb (fun move => isSamePosition move position) lms = true <-> position ∈ lms.
Proof.
  rewrite existsb_exists. split.
  - intros (move & Hin & Hsame). unfold isSamePosition in Hsame.
    apply andb_true_iff in Hsame as [Hr Hc].
    apply Z.eqb_eq in Hr. apply Z.eqb_eq in Hc.
    rewrite <- (position_eq move position Hr Hc). now apply list_elem_of_In.
  - intros Hin. exists position. split; [now apply list_elem_of_In|].
    unfold isSamePosition. now rewrite !Z.eqb_refl.
Qed.

(** X10: a click keeps the selection consistent and can only play a legal
    move.  From a state whose [legalMoves] holds the legal destinations of
    the selected square (nothing when no square is selected), [selectSquare]
    returns and leaves such a state; and either the board, the history and
    the player to move are unchanged, or a square was selected, the click
    was on one of its legal destinations, and exactly that move was made. *)
Theorem selectSquare_keeps_selection h this gs st b hist position :
  game_ok h this gs st b hist ->
  selection_ok h st b ->
  isValidPosition position = true ->
  exists h' st' b' hist',
    selectSquare this position h = Some (tt, h')
    /\ game_ok h' this gs st' b' hist'
    /\ selection_ok h' st' b'
    /\ ((b' = b /\ hist' = hist /\ currentPlayer st' = currentPlayer st)
        \/ (exists sel p,
               selectedSquare st = Some sel
               /\ rd b sel = Some (Some p)
               /\ position ∈ legalOn b sel
               /\ movedBoard b sel position p = Some b'
               /\ hist' = hist ++ [recorded b sel position p]
               /\ currentPlayer st' = getOppositeColor (currentPlayer st)
               /\ selectedSquare st' = None)).
Proof.
  intros Hok [Hlt Hsel] Hv.
  pose proof (ok_rows _ _ _ _ _ _ Hok) as Hrows.
  destruct (rd_valid b position Hrows Hv) as [t Ht].
  assert (W : wp (selectSquare this position) h
     (fun _ h' => exists st' b' hist',
        game_ok h' this gs st' b' hist'
        /\ selection_ok h' st' b'
        /\ ((b' = b /\ hist' = hist /\ currentPlayer st' = currentPlayer st)
            \/ (exists sel p,
                   selectedSquare st = Some sel
                   /\ rd b sel = Some (Some p)
                   /\ position ∈ legalOn b sel
                   /\ movedBoard b sel position p = Some b'
                   /\ hist' = hist ++ [recorded b sel position p]
                   /\ currentPlayer st' = getOppositeColor (currentPlayer st)
                   /\ selectedSquare st' = None)))).
  { unfold selectSquare.
    apply wp_bind. eapply wp_readGame; [apply Hok|].
    apply wp_bind. eapply wp_readState; [apply Hok|].
    assert (Hsame : wp (ret tt) h
       (fun _ h' => exists st' b' hist',
          game_ok h' this gs st' b' hist' /\ selection_ok h' st' b'
          /\ ((b' = b /\ hist' = hist /\ currentPlayer st' = currentPlayer st)
              \/ (exists sel p,
                     selectedSquare st = Some sel
                     /\ rd b sel = Some (Some p)
                     /\ position ∈ legalOn b sel
                     /\ movedBoard b sel position p = Some b'
                     /\ hist' = hist ++ [recorded b sel position p]
                     /\ currentPlayer st' = getOppositeColor (currentPlayer st)
                     /\ selectedSquare st' = None)))).
    { apply wp_ret. exists st, b, hist. split; [exact Hok|]. split; [now split|]. now left. }
    assert (Hpiece : wp (selectPiece this gs position) h
       (fun _ h' => exists st' b' hist',
          game_ok h' this gs st' b' hist' /\ selection_ok h' st' b'
          /\ ((b' = b /\ hist' = hist /\ currentPlayer st' = currentPlayer st)
              \/ (exists sel p,
                     selectedSquare st = Some sel
                     /\ rd b sel = Some (Some p)
                     /\ position ∈ legalOn b sel
                     /\ movedBoard b sel position p = Some b'
                     /\ hist' = hist ++ [recorded b sel position p]
                     /\ currentPlayer st' = getOppositeColor (currentPlayer st)
                     /\ selectedSquare st' = None)))).
    { eapply wp_mono; [eapply selectPiece_spec; eauto|].
      intros _ h' (lm & Hok' & Hsel' & _).
      exists (set_legalMoves lm (set_selectedSquare (Some position) st)), b, hist.
      split; [exact Hok'|]. split; [exact Hsel'|]. now left. }
    destruct (gameOver st || bool_decide (currentPlayer st = black)); [exact Hsame|].
    apply wp_bind. eapply wp_readBoard; [apply Hok|].
    apply wp_bind. eapply wp_lift; [exact Ht|].
    destruct (selectedSquare st) as [sel|] eqn:Hs.
    2:{ destruct t as [p|]; [|exact Hsame].
        destruct (bool_decide (color p = currentPlayer st)); [exact Hpiece | exact Hsame]. }
    apply wp_bind. eapply wp_readSquares; [exact Hsel|].
    destruct (existsb (fun move => isSamePosition move position) (legalOn b sel)) eqn:Hex.
    - apply existsb_isSamePosition in Hex.
      assert (exists p, rd b sel = Some (Some p)) as [p Hp].
      { unfold legalOn in Hex. destruct (rd b sel) as [[p|]|]; eauto;
          now apply elem_of_nil in Hex. }
      apply wp_bind. eapply wp_mono; [eapply makeMove_accepted_next; eauto|].
      intros r h' (-> & b' & lm & Hmoved & Hle & Hcell & Hok' & _ & Hlm).
      apply wp_ret.
      exists (movedState b' lm st), b', (hist ++ [recorded b sel position p]).
      destruct (movedState_fields b' lm st) as (_ & Hcp & Hss & Hlms & _).
      split; [exact Hok'|]. split.
      + unfold selection_ok. rewrite Hlms, Hss. now split.
      + right. exists sel, p. repeat split; auto.
    - destruct (match t with
                | Some p => bool_decide (color p = currentPlayer st)
                | None => false
                end); [exact Hpiece|].
      apply wp_bind. eapply wp_modifyState; [apply Hok|].
      set (st1 := set_selectedSquare None st).
      set (h1 := {| cells := <[gs := CState st1]> (cells h); next := next h |}).
      assert (Hok1 : game_ok h1 this gs st1 b hist)
        by (apply (game_ok_store_state h this gs st st1 b hist Hok); reflexivity).
      apply wp_bind. apply wp_alloc.
      pose proof (game_ok_ext _ _ _ _ _ _ _ Hok1 (heap_ext_alloc h1 (CSquares []))) as Hok2.
      eapply wp_modifyState; [apply Hok2|].
      pose proof (ok_gs_lt _ _ _ _ _ _ Hok1) as Hgs. simpl in Hgs.
      exists (set_legalMoves (next h1) st1), b, hist. split; [|split].
      + match type of Hok2 with
        | game_ok ?hh _ _ _ _ _ =>
            apply (game_ok_store_state hh this gs st1 _ b hist Hok2); reflexivity
        end.
      + split; simpl; [lia|]. rewrite lookup_insert_ne by lia. apply lookup_insert_eq.
      + now left. }
  apply wp_elim in W as ([] & h' & E & st' & b' & hist' & H).
  exists h', st', b', hist'. split; [exact E | exact H].
Qed.

(** X11: the first click.  With white to move, the game running and no
    square selected, a click on a white piece selects it and stores the
    destinations that [getLegalMoves] gives for it; a click on an empty
    square or on a black piece changes nothing. *)
Theorem selectSquare_first_click h this gs st b hist position :
  game_ok h this gs st b hist ->
  isValidPosition position = true ->
  gameOver st = false ->
  currentPlayer st = white ->
  selectedSquare st = None ->
  match rd b position with
  | Some (Some p) =>
      if bool_decide (color p = white) then
        exists h' st' ls h1,
          selectSquare this position h = Some (tt, h')
          /\ game_ok h' this gs st' b hist
          /\ selectedSquare st' = Some position
          /\ getLegalMoves this position h = Some (ls, h1)
          /\ cells h' !! legalMoves st' = Some (CSquares ls)
          /\ currentPlayer st' = white /\ gameOver st' = false
      else selectSquare this position h = Some (tt, h)
  | _ => selectSquare this position h = Some (tt, h)
  end.
Proof.
  intros Hok Hv Hgo Hcp Hs.
  pose proof (ok_rows _ _ _ _ _ _ Hok) as Hrows.
  destruct (rd_valid b position Hrows Hv) as [t Ht]. rewrite Ht.
  assert (Hstart :
            selectSquare this position h
            = (if match t with
                  | Some p => bool_decide (color p = white)
                  | None => false
                  end
               then selectPiece this gs position else ret tt) h).
  { unfold selectSquare, bind, readGame, readState, readBoard, bind, load.
    rewrite (ok_game _ _ _ _ _ _ Hok). unfold ret at 1.
    rewrite (ok_state _ _ _ _ _ _ Hok). unfold ret at 1.
    rewrite Hgo, Hcp. simpl.
    rewrite (ok_board _ _ _ _ _ _ Hok). unfold ret at 1.
    unfold lift. rewrite Ht, Hs. reflexivity. }
  rewrite Hstart.
  destruct t as [p|]; [|reflexivity].
  destruct (bool_decide (color p = white)); [|reflexivity].
  pose proof (selectPiece_spec h this gs st b hist position _ Hok Ht) as W.
  apply wp_elim in W as ([] & h' & E & lm & Hok' & [_ Hsel] & _).
  pose proof (getLegalMoves_spec this gs st b hist position _ h Hok Ht) as W.
  apply wp_elim in W as (ls & h1 & E1 & -> & _).
  exists h', (set_legalMoves lm (set_selectedSquare (Some position) st)),
    (legalOn b position), h1.
  split; [exact E|]. split; [exact Hok'|]. split; [reflexivity|].
  split; [exact E1|]. split; [exact Hsel|]. simpl. auto.
Qed.

(** ** Reset and difficulty *)

(** X12: [resetGame] gives the engine a new state object: the opening
    position, white to move, an empty history, no selection, every status
    flag false and difficulty medium, whatever [setDifficulty] had
    stored; only the instance cell is written, so the old state object, its
    board and its history stay as they were for whoever still holds them. *)
Theorem resetGame_fresh h this gs0 d :
  cells h !! this = Some (CGame gs0) ->
  (this < next h)%positive ->
  (exists st0, cells h !! gs0 = Some (CState st0)) ->
  exists h1 h' gs st,
    setDifficulty this d h = Some (tt, h1)
    /\ resetGame this h1 = Some (tt, h')
    /\ game_ok h' this gs st createInitialBoard []
    /\ selection_ok h' st createInitialBoard
    /\ currentPlayer st = white /\ selectedSquare st = None
    /\ isCheck st = false /\ isCheckmate st = false /\ isStalemate st = false
    /\ gameOver st = false /\ difficulty st = medium
    /\ same_except [this; gs0] h h'.
Proof.
  intros Hg Hlt [st0 Hs0].
  assert (Hne : this <> gs0) by (intros ->; congruence).
  set (h1 := {| cells := <[gs0 := CState (set_difficulty d st0)]> (cells h); next := next h |}).
  assert (E1 : setDifficulty this d h = Some (tt, h1)).
  { unfold setDifficulty, bind, readGame, modifyState, readState, bind, load, store.
    rewrite Hg. unfold ret at 1. rewrite Hs0. reflexivity. }
  exists h1.
  set (st := {| board := next h; currentPlayer := white; isCheck := false;
                isCheckmate := false; isStalemate := false; gameOver := false;
                selectedSquare := None; legalMoves := Pos.succ (next h);
                moveHistory := Pos.succ (Pos.succ (next h)); difficulty := medium |}).
  eexists. exists (Pos.succ (Pos.succ (Pos.succ (next h)))), st.
  split; [exact E1|]. split; [reflexivity|].
  split; [|split; [|repeat (split; [reflexivity|])]].
  - split; simpl.
    + apply lookup_insert_eq.
    + rewrite lookup_insert_ne by lia. apply lookup_insert_eq.
    + rewrite !lookup_insert_ne by lia. apply lookup_insert_eq.
    + rewrite !lookup_insert_ne by lia. apply lookup_insert_eq.
    + lia.
    + lia.
    + lia.
    + lia.
    + unfold rows_ok. simpl. lia.
  - split; simpl; [lia|]. rewrite !lookup_insert_ne by lia. apply lookup_insert_eq.
  - split; simpl; [lia|]. intros l Hl Hn.
    rewrite lookup_insert_ne by (intros ->; apply Hn; left).
    rewrite !lookup_insert_ne by lia.
    apply lookup_insert_ne. intros ->. apply Hn. right. left.
Qed.

(** * Beyond the claims: utilities and the opponent *)

(** X13: [isSamePosition] decides equality of squares. *)
Theorem isSamePosition_eq pos1 pos2 :
  isSamePosition pos1 pos2 = true <-> pos1 = pos2.
Proof.
  unfold isSamePosition. rewrite andb_true_iff, !Z.eqb_eq. split.
  - intros [Hr Hc]. now apply position_eq.
  - intros ->. auto.
Qed.

(** X14: the board is a checkerboard: two squares next to each other in a
    row or in a column never have the same colour, for all integer
    coordinates of magnitude below [2^52], negative ones included.  (The
    bound is needed: the sum is a sum of doubles, see
    [getSquareColor_beyond_exact_sums].) *)
Theorem getSquareColor_alternates r c :
  Z.abs r < 2 ^ 52 -> Z.abs c < 2 ^ 52 ->
  getSquareColor r (c + 1) <> getSquareColor r c
  /\ getSquareColor (r + 1) c <> getSquareColor r c.
Proof.
  intros Hr Hc.
  assert (Hexact : forall z, Z.abs z < 2 ^ 53 -> Qfloor (roundDouble (inject_Z z)) = z).
  { intros z Hz. rewrite (roundDouble_integer z Hz). apply Qfloor_Z. }
  unfold getSquareColor.
  assert (Hev : forall n, (Z.rem n 2 =? 0) = Z.even n).
  { intros n. destruct (Z.eqb_spec (Z.rem n 2) 0) as [E|E]; symmetry.
    - apply Z.rem_divide in E; [|lia]. destruct E as [x ->].
      rewrite Z.even_mul. apply orb_true_r.
    - apply not_true_is_false. intros Hn. apply E. apply Z.rem_divide; [lia|].
      apply Z.even_spec in Hn. destruct Hn as [x ->]. exists x. lia. }
  assert (H : forall n, (Z.rem (n + 1) 2 =? 0) = negb (Z.rem n 2 =? 0)).
  { intros n. rewrite !Hev. change (n + 1) with (Z.succ n).
    now rewrite Z.even_succ, Z.negb_even. }
  replace (r + (c + 1)) with (r + c + 1) by lia.
  replace (r + 1 + c) with (r + c + 1) by lia.
  rewrite !Hexact by lia.
  rewrite H. destruct (Z.rem (r + c) 2 =? 0); simpl; split; discriminate.
Qed.

(** From [2^53] on the sum of the coordinates is no longer exact, and two
    squares next to each other can have the same colour. *)
Lemma getSquareColor_beyond_exact_sums :
  getSquareColor (2 ^ 53) 1 = getSquareColor (2 ^ 53) 0.
Proof. vm_compute. reflexivity. Qed.

(** ** The static evaluation *)

Lemma getGameState_spec h this gs st b hist :
  game_ok h this gs st b hist ->
  wp (getGameState this) h
     (fun snap h' => cells h' !! snap = Some (CState st) /\ heap_ext h h').
Proof.
  intros Hok. unfold getGameState.
  apply wp_bind. eapply wp_readGame; [apply Hok|].
  apply wp_bind. eapply wp_readState; [apply Hok|].
  apply wp_alloc. split; [apply lookup_insert_eq | apply heap_ext_alloc].
Qed.

Lemma evaluateMove_spec h bot gs st b hist move v :
  game_ok h (ChessBot.game bot) gs st b hist ->
  staticScore move hist = Some v ->
  wp (ChessBot.evaluateMove bot move) h (fun r h' => r = v /\ heap_ext h h').
Proof.
  intros Hok Hv. unfold staticScore in Hv. unfold ChessBot.evaluateMove.
  destruct (ChessBot.getPositionValue (piece move) (to move)) as [pv|] eqn:Epv;
    [|discriminate].
  rewrite obind_Some in Hv. injection Hv as <-.
  apply wp_bind. eapply wp_lift; [reflexivity|].
  apply wp_bind. eapply wp_mono; [eapply getGameState_spec; exact Hok|].
  intros snap h' [Hsnap Hext]. cbv beta.
  pose proof (game_ok_ext _ _ _ _ _ _ _ Hok Hext) as Hok'.
  apply wp_bind. eapply wp_readState; [exact Hsnap|].
  apply wp_bind. eapply wp_readMoves; [apply Hok'|].
  apply wp_ret. split; [|exact Hext].
  destruct (capturedPiece move); reflexivity.
Qed.

Lemma tableAt_valid table position :
  length table = 8%nat -> Forall (fun rw => length rw = 8%nat) table ->
  isValidPosition position = true ->
  exists v, ChessBot.tableAt table position = Some v.
Proof.
  intros Hlen Hrows Hv. apply isValidPosition_spec in Hv. unfold ChessBot.tableAt.
  destruct (Z.ltb_spec (row position) 0); [lia|].
  destruct (Z.ltb_spec (col position) 0); [lia|]. simpl.
  destruct (lookup_lt_is_Some_2 table (Z.to_nat (row position))) as [rw Hrw]; [lia|].
  rewrite Hrw, obind_Some.
  rewrite Forall_forall in Hrows.
  assert (length rw = 8%nat) by (apply Hrows; eapply list_elem_of_lookup_2; eauto).
  apply lookup_lt_is_Some_2. lia.
Qed.

Lemma staticScore_total move hist :
  isValidPosition (to move) = true -> exists v, staticScore move hist = Some v.
Proof.
  intros Hv. unfold staticScore.
  assert (exists pv, ChessBot.getPositionValue (piece move) (to move) = Some pv) as [pv ->].
  { unfold ChessBot.getPositionValue.
    destruct (type (piece move)); eauto;
      apply tableAt_valid; auto; repeat constructor. }
  rewrite obind_Some. eauto.
Qed.

(** X15: [evaluateMove] returns for every move whose destination is on the
    board, changes no cell allocated before the call, and its score is
    determined by the move and the length and content of the history: the
    board plays no part in it. *)
Theorem evaluateMove_reads_history_only h bot gs st b hist move :
  game_ok h (ChessBot.game bot) gs st b hist ->
  isValidPosition (to move) = true ->
  exists v h',
    ChessBot.evaluateMove bot move h = Some (v, h')
    /\ heap_ext h h'
    /\ staticScore move hist = Some v
    /\ forall h2 bot2 gs2 st2 b2,
         game_ok h2 (ChessBot.game bot2) gs2 st2 b2 hist ->
         exists h2', ChessBot.evaluateMove bot2 move h2 = Some (v, h2').
Proof.
  intros Hok Hv.
  destruct (staticScore_total move hist Hv) as [v Hs].
  pose proof (evaluateMove_spec h bot gs st b hist move v Hok Hs) as W.
  apply wp_elim in W as (r & h' & E & -> & Hext).
  exists v, h'. split; [exact E|]. split; [exact Hext|]. split; [exact Hs|].
  intros h2 bot2 gs2 st2 b2 Hok2.
  pose proof (evaluateMove_spec h2 bot2 gs2 st2 b2 hist move v Hok2 Hs) as W.
  apply wp_elim in W as (r & h2' & E2 & -> & _). eauto.
Qed.

(** ** Choosing among scored moves *)

Lemma num_leb_refl a : num_leb a a = true.
Proof. destruct a; simpl; try reflexivity. apply Z.leb_refl. Qed.

Lemma num_leb_trans a b c : num_leb a b = true -> num_leb b c = true -> num_leb a c = true.
Proof.
  destruct a, b, c; simpl; try reflexivity; try discriminate.
  rewrite !Z.leb_le. lia.
Qed.

Lemma num_ltb_leb a b : num_ltb a b = true -> num_leb a b = true.
Proof.
  unfold num_ltb. destruct a, b; simpl; try reflexivity; try discriminate.
  rewrite negb_true_iff, Z.leb_gt, Z.leb_le. lia.
Qed.

Lemma num_leb_ltb_trans a b c :
  num_leb a b = true -> num_ltb b c = true -> num_ltb a c = true.
Proof.
  unfold num_ltb. destruct a, b, c; simpl; try reflexivity; try discriminate.
  rewrite !negb_true_iff, !Z.leb_gt, Z.leb_le. lia.
Qed.

Lemma num_not_ltb a b : num_ltb a b = false -> num_leb b a = true.
Proof. unfold num_ltb. now rewrite negb_false_iff. Qed.

Lemma bestOf_spec scored bm bs :
  (bestOf scored bm bs = bm
   /\ forall j m s, scored !! j = Some (m, s) -> num_leb s bs = true)
  \/ (exists i m s,
         scored !! i = Some (m, s)
         /\ bestOf scored bm bs = Some m
         /\ num_ltb bs s = true
         /\ (forall j m' s', scored !! j = Some (m', s') -> num_leb s' s = true)
         /\ (forall j m' s', (j < i)%nat -> scored !! j = Some (m', s') ->
                             num_ltb s' s = true)).
Proof.
  revert bm bs. induction scored as [|[m s] rest IH]; intros bm bs; simpl.
  - left. split; [reflexivity|]. intros j m s H. discriminate.
  - destruct (num_ltb bs s) eqn:Hlt.
    + right. destruct (IH (Some m) s) as [[Hr Hall]|(i & m1 & s1 & Hi & Hr & Hlt1 & Hall & Hbefore)].
      * exists 0%nat, m, s. split; [reflexivity|]. split; [exact Hr|]. split; [exact Hlt|].
        split.
        -- intros [|j] m' s' Hj; simpl in Hj.
           ++ injection Hj as _ <-. apply num_leb_refl.
           ++ eauto.
        -- intros j m' s' Hj. lia.
      * exists (S i), m1, s1. split; [exact Hi|]. split; [exact Hr|].
        split; [eapply num_leb_ltb_trans; [apply num_ltb_leb; exact Hlt | exact Hlt1]|].
        split.
        -- intros [|j] m' s' Hj; simpl in Hj.
           ++ injection Hj as _ <-. now apply num_ltb_leb.
           ++ eauto.
        -- intros [|j] m' s' Hlt' Hj; simpl in Hj.
           ++ injection Hj as _ <-. exact Hlt1.
           ++ eapply Hbefore; [|exact Hj]. lia.
    + apply num_not_ltb in Hlt.
      destruct (IH bm bs) as [[Hr Hall]|(i & m1 & s1 & Hi & Hr & Hlt1 & Hall & Hbefore)].
      * left. split; [exact Hr|].
        intros [|j] m' s' Hj; simpl in Hj; [injection Hj as _ <-; exact Hlt | eauto].
      * right. exists (S i), m1, s1. split; [exact Hi|]. split; [exact Hr|].
        split; [exact Hlt1|]. split.
        -- intros [|j] m' s' Hj; simpl in Hj.
           ++ injection Hj as _ <-. apply num_ltb_leb.
              eapply num_leb_ltb_trans; [exact Hlt | exact Hlt1].
           ++ eauto.
        -- intros [|j] m' s' Hlt' Hj; simpl in Hj.
           ++ injection Hj as _ <-. eapply num_leb_ltb_trans; [exact Hlt | exact Hlt1].
           ++ eapply Hbefore; [|exact Hj]. lia.
Qed.

Lemma bestLoop_bestOf score moves bm bs h scores h' :
  collectM (fun move => let! s := score move in ret [s]) moves h = Some (scores, h') ->
  ChessBot.bestLoop score moves bm bs h = Some (bestOf (zip moves scores) bm bs, h')
  /\ length scores = length moves.
Proof.
  revert bm bs h scores. induction moves as [|m rest IH]; intros bm bs h scores; simpl.
  - unfold ret. intros [= <- <-]. split; reflexivity.
  - unfold bind at 1 2 3. unfold bind at 2.
    destruct (score m h) as [[s h1]|]; [|discriminate].
    unfold ret at 1.
    destruct (collectM _ rest h1) as [[more h2]|] eqn:Hrest; [|discriminate].
    unfold ret. intros [= <- <-]. simpl.
    destruct (IH bm bs h1 more Hrest) as [_ Hlen].
    destruct (num_ltb bs s).
    + destruct (IH (Some m) s h1 more Hrest) as [-> _]. split; [reflexivity | now rewrite Hlen].
    + destruct (IH bm bs h1 more Hrest) as [-> _]. split; [reflexivity | now rewrite Hlen].
Qed.

(** X16: [getHardMove] keeps the first move with the greatest score.  When
    scoring the moves one after the other by [minimax] returns the scores
    [scores], [getHardMove] returns the move at the least index whose score
    is the greatest: every score is at most its score, and every earlier
    score is strictly smaller. *)
Theorem getHardMove_first_best bot moves depth h scores h' :
  collectM (fun move =>
              let! s := ChessBot.minimax bot move (depth - 1) false NegInf PosInf in
              ret [s]) moves h = Some (scores, h') ->
  moves <> [] ->
  exists i m s,
    ChessBot.getHardMove bot moves depth h = Some (Some m, h')
    /\ moves !! i = Some m /\ scores !! i = Some s
    /\ (forall j s', scores !! j = Some s' -> num_leb s' s = true)
    /\ (forall j s', (j < i)%nat -> scores !! j = Some s' -> num_ltb s' s = true).
Proof.
  intros Hrun Hne. unfold ChessBot.getHardMove.
  destruct (bestLoop_bestOf _ moves (head moves) NegInf h scores h' Hrun) as [-> Hlen].
  assert (Hzip : forall j m s, zip moves scores !! j = Some (m, s) <->
                               moves !! j = Some m /\ scores !! j = Some s).
  { clear Hrun Hne. revert scores Hlen.
    induction moves as [|m0 rest IH]; intros [|s0 more] Hlen j m s;
      simpl in *; try discriminate.
    - split; [discriminate | intros [H _]; discriminate].
    - destruct j as [|j]; simpl.
      + split; [intros [= -> ->]; auto | intros [[= ->] [= ->]]; reflexivity].
      + apply IH. lia. }
  destruct (bestOf_spec (zip moves scores) (head moves) NegInf)
    as [[Hr Hall]|(i & m & s & Hi & Hr & _ & Hall & Hbefore)].
  - destruct moves as [|m0 rest]; [congruence|].
    destruct scores as [|s0 more]; [discriminate|].
    exists 0%nat, m0, s0. rewrite Hr. split; [reflexivity|].
    split; [reflexivity|]. split; [reflexivity|].
    assert (Hs0 : s0 = NegInf).
    { specialize (Hall 0%nat m0 s0 eq_refl). now destruct s0. }
    split.
    + intros j s' Hj.
      destruct (lookup_lt_is_Some_2 (m0 :: rest) j) as [mj Hmj].
      { apply lookup_lt_Some in Hj. simpl in *. lia. }
      pose proof (Hall j mj s' (proj2 (Hzip j mj s') (conj Hmj Hj))) as Hle.
      rewrite Hs0. exact Hle.
    + intros j s' Hlt. lia.
  - apply Hzip in Hi as [Hm Hs].
    exists i, m, s. rewrite Hr. split; [reflexivity|]. split; [exact Hm|].
    split; [exact Hs|]. split.
    + intros j s' Hj.
      destruct (lookup_lt_is_Some_2 moves j) as [mj Hmj].
      { apply lookup_lt_Some in Hj. lia. }
      exact (Hall j mj s' (proj2 (Hzip j mj s') (conj Hmj Hj))).
    + intros j s' Hlt Hj.
      destruct (lookup_lt_is_Some_2 moves j) as [mj Hmj].
      { apply lookup_lt_Some in Hj. lia. }
      exact (Hbefore j mj s' Hlt (proj2 (Hzip j mj s') (conj Hmj Hj))).
Qed.

(** ** The tiers that do not search *)

Lemma pick_elem {A} (r : Q) (xs : list A) :
  isDraw r -> xs <> [] -> exists x, ChessBot.pick r xs = Some x /\ x ∈ xs.
Proof.
  intros (Hlo & Hhi & Hdbl) Hne. unfold ChessBot.pick.
  set (n := Z.of_nat (length xs)).
  assert (Hn : 0 < n) by (destruct xs; [congruence | simpl in n; lia]).
  pose proof (floor_product_below r n Hlo Hhi Hdbl Hn) as [H0 H1].
  destruct (Z.ltb_spec (Qfloor (roundDouble (r * inject_Z n))) 0); [lia|].
  destruct (lookup_lt_is_Some_2 xs (Z.to_nat (Qfloor (roundDouble (r * inject_Z n)))))
    as [x Hx]; [subst n; lia|].
  exists x. split; [exact Hx|]. eapply list_elem_of_lookup_2; eauto.
Qed.

Lemma getEasyMove_elem r1 r2 moves :
  isDraw r1 -> isDraw r2 -> moves <> [] ->
  exists m, ChessBot.getEasyMove r1 r2 moves = Some m /\ m ∈ moves
            /\ ((r1 < roundDouble (6 # 10))%Q ->
                (exists c, c ∈ moves /\ is_Some (capturedPiece c)) ->
                is_Some (capturedPiece m)).
Proof.
  intros H1 H2 Hne. unfold ChessBot.getEasyMove, ChessBot.getRandomMove.
  destruct (filter _ moves) as [|c cs] eqn:Hcap.
  - destruct (pick_elem r1 moves H1 Hne) as (m & Hm & Hin).
    exists m. split; [exact Hm|]. split; [exact Hin|].
    intros _ (c & Hc & Hsome). exfalso.
    assert (c ∈ filter (fun move => is_Some (capturedPiece move)) moves)
      by (apply list_elem_of_filter; auto).
    rewrite Hcap in H. now apply elem_of_nil in H.
  - destruct (Qlt_le_dec r1 (roundDouble (6 # 10))) as [Hlt|Hge].
    + destruct (pick_elem r2 (c :: cs) H2) as (m & Hm & Hin); [discriminate|].
      rewrite <- Hcap in Hin. apply list_elem_of_filter in Hin as [Hsome Hin].
      exists m. split; [exact Hm|]. split; [exact Hin|]. auto.
    + destruct (pick_elem r2 moves H2 Hne) as (m & Hm & Hin).
      exists m. split; [exact Hm|]. split; [exact Hin|].
      intros Hlt. exfalso. apply (Qlt_not_le _ _ Hlt). exact Hge.
Qed.

Lemma bestFold_spec hist moves a :
  let step := fun acc move =>
                if num_ltb acc (Fin (scoreOf hist move)) then Fin (scoreOf hist move) else acc in
  num_leb a (foldl step a moves) = true
  /\ (forall m, m ∈ moves -> num_leb (Fin (scoreOf hist m)) (foldl step a moves) = true)
  /\ (foldl step a moves = a
      \/ exists m, m ∈ moves /\ foldl step a moves = Fin (scoreOf hist m)).
Proof.
  intros step. revert a. induction moves as [|m rest IH]; intros a; simpl.
  - split; [apply num_leb_refl|]. split; [|now left].
    intros m Hm. now apply elem_of_nil in Hm.
  - destruct (IH (step a m)) as (Hle & Hall & Hex).
    assert (Ha : num_leb a (step a m) = true).
    { unfold step. destruct (num_ltb a _) eqn:E; [now apply num_ltb_leb | apply num_leb_refl]. }
    assert (Hm : num_leb (Fin (scoreOf hist m)) (step a m) = true).
    { unfold step. destruct (num_ltb a _) eqn:E; [apply num_leb_refl | now apply num_not_ltb]. }
    split; [exact (num_leb_trans a (step a m) _ Ha Hle)|]. split.
    + intros m' Hin. apply elem_of_cons in Hin as [->|Hin].
      * exact (num_leb_trans (Fin (scoreOf hist m)) (step a m) _ Hm Hle).
      * exact (Hall m' Hin).
    + destruct Hex as [Hex|(m' & Hin & Hex)].
      * rewrite Hex. unfold step. destruct (num_ltb a _); [|now left].
        right. exists m. split; [left | reflexivity].
      * right. exists m'. split; [now right | exact Hex].
Qed.

Lemma getMediumMove_spec h bot gs st b hist r1 moves :
  game_ok h (ChessBot.game bot) gs st b hist ->
  Forall (fun m => isValidPosition (to m) = true) moves ->
  let step := fun acc move =>
                if num_ltb acc (Fin (scoreOf hist move)) then Fin (scoreOf hist move) else acc in
  let best := foldl step NegInf moves in
  wp (ChessBot.getMediumMove bot r1 moves) h
     (fun r h' =>
        r = ChessBot.pick r1
              (filter (fun m => num_leb (num_add best (- pts 50)) (Fin (scoreOf hist m)) = true)
                      moves)
        /\ heap_ext h h').
Proof.
  intros Hok Hvalid step best. unfold ChessBot.getMediumMove.
  assert (Heval : forall m h1, m ∈ moves -> heap_ext h h1 ->
            wp (ChessBot.evaluateMove bot m) h1
               (fun v h2 => v = scoreOf hist m /\ heap_ext h h2)).
  { intros m h1 Hin Hext. rewrite Forall_forall in Hvalid.
    destruct (staticScore_total m hist (Hvalid m Hin)) as [v Hv].
    eapply wp_mono.
    - eapply evaluateMove_spec; [eapply game_ok_ext; eauto | exact Hv].
    - intros r h2 [-> Hext2]. split; [unfold scoreOf; now rewrite Hv|].
      eapply heap_ext_trans; eauto. }
  apply wp_bind.
  assert (Hfold : forall ms acc a,
            (forall m, m ∈ ms -> m ∈ moves) ->
            wp acc h (fun v h1 => v = a /\ heap_ext h h1) ->
            wp (foldl (fun acc move =>
                         let! bestScore := acc in
                         let! s := ChessBot.evaluateMove bot move in
                         ret (if num_ltb bestScore (Fin s) then Fin s else bestScore))
                      acc ms) h
               (fun v h1 => v = foldl step a ms /\ heap_ext h h1)).
  { induction ms as [|m rest IH]; intros acc a Hsub Hacc; simpl; [exact Hacc|].
    apply IH; [intros; apply Hsub; now right|].
    apply wp_bind. eapply wp_mono; [exact Hacc|].
    intros v h1 [-> Hext1]. cbv beta.
    apply wp_bind. eapply wp_mono; [apply Heval; [apply Hsub; left | exact Hext1]|].
    intros s h2 [-> Hext2]. apply wp_ret. split; [reflexivity | exact Hext2]. }
  eapply wp_mono.
  { apply (Hfold moves (ret NegInf) NegInf); [auto|].
    apply wp_ret. split; [reflexivity | apply heap_ext_refl]. }
  intros v h1 [-> Hext1]. cbv beta. fold best.
  apply wp_bind. eapply wp_mono.
  { apply (wp_filterM _ (fun m => num_leb (num_add best (- pts 50)) (Fin (scoreOf hist m)))
                      (heap_ext h)); [exact Hext1|].
    intros m h2 Hin Hext2.
    apply wp_bind. eapply wp_mono; [apply Heval; eauto|].
    intros s h3 [-> Hext3]. apply wp_ret. split; [reflexivity | exact Hext3]. }
  intros good h2 [-> Hext2]. apply wp_ret. split; [reflexivity | exact Hext2].
Qed.

Lemma allLegalOn_to_valid b side :
  rows_ok b ->
  Forall (fun m => isValidPosition (to m) = true) (allLegalOn b side).
Proof.
  intros Hrows. apply Forall_forall. intros m Hin.
  apply allLegalOn_elem in Hin as (_ & Hp & _ & Hto & _).
  pose proof (legalOn_targets b (from m) (piece m) Hrows Hp) as Hall.
  rewrite Forall_forall in Hall. apply (Hall (to m) Hto).
Qed.

(** The start of [getBestMove]: a snapshot, then the moves of black. *)
Lemma getBestMove_start h bot gs st b hist (Q : list Move -> heap -> Prop) :
  game_ok h (ChessBot.game bot) gs st b hist ->
  (forall h1, heap_ext h h1 -> Q (allLegalOn b black) h1) ->
  wp (let! _ := getGameState (ChessBot.game bot) in
      getAllLegalMoves (ChessBot.game bot) black) h Q.
Proof.
  intros Hok HQ.
  apply wp_bind. eapply wp_mono; [eapply getGameState_spec; exact Hok|].
  intros snap h1 [_ Hext1]. cbv beta.
  eapply wp_mono;
    [eapply getAllLegalMoves_spec; eapply game_ok_ext; [exact Hok | exact Hext1]|].
  intros ms h2 [-> Hext2]. apply HQ. eapply heap_ext_trans; eauto.
Qed.

(** X17: when black has no legal move, [getBestMove] returns [null] at
    every difficulty, without searching and without changing any cell
    allocated before the call. *)
Theorem getBestMove_without_moves h bot gs st b hist r1 r2 h1 :
  game_ok h (ChessBot.game bot) gs st b hist ->
  getAllLegalMoves (ChessBot.game bot) black h = Some ([], h1) ->
  exists h', ChessBot.getBestMove bot r1 r2 h = Some (None, h') /\ heap_ext h h'.
Proof.
  intros Hok Hnone.
  pose proof (getAllLegalMoves_spec _ gs st b hist black h Hok) as W.
  apply wp_elim in W as (ms & h2 & E & -> & _).
  rewrite Hnone in E. injection E as Hnil _.
  assert (W : wp (ChessBot.getBestMove bot r1 r2) h
                 (fun r h' => r = None /\ heap_ext h h')).
  { unfold ChessBot.getBestMove.
    apply wp_bind. eapply wp_mono; [eapply getGameState_spec; exact Hok|].
    intros snap h3 [_ Hext3]. cbv beta.
    apply wp_bind. eapply wp_mono;
      [eapply getAllLegalMoves_spec; eapply game_ok_ext; [exact Hok | exact Hext3]|].
    intros ms h4 [-> Hext4]. cbv beta. rewrite <- Hnil.
    apply wp_ret. split; [reflexivity | eapply heap_ext_trans; eauto]. }
  apply wp_elim in W as (r & h' & E & -> & Hext). eauto.
Qed.

(** X18: at the difficulties very-easy and easy, for any doubles that
    [Math.random] can return, [getBestMove] changes no cell allocated before
    the call and returns one of the moves of [getAllLegalMoves('black')]
    ([null] only when there is none); at easy, when the first draw is less
    than the double [0.6] and a capture is available, the move returned is a
    capture. *)
Theorem random_tiers_play_legal_moves h bot gs st b hist r1 r2 :
  game_ok h (ChessBot.game bot) gs st b hist ->
  ChessBot.difficulty bot = very_easy \/ ChessBot.difficulty bot = easy ->
  isDraw r1 -> isDraw r2 ->
  exists r h' ms h1,
    ChessBot.getBestMove bot r1 r2 h = Some (r, h')
    /\ heap_ext h h'
    /\ getAllLegalMoves (ChessBot.game bot) black h = Some (ms, h1)
    /\ match r with
       | None => ms = []
       | Some m =>
           m ∈ ms
           /\ (ChessBot.difficulty bot = easy -> (r1 < roundDouble (6 # 10))%Q ->
               (exists c, c ∈ ms /\ is_Some (capturedPiece c)) ->
               is_Some (capturedPiece m))
       end.
Proof.
  intros Hok Htier Hr1 Hr2.
  pose proof (getAllLegalMoves_spec _ gs st b hist black h Hok) as W.
  apply wp_elim in W as (ms & h1 & E & -> & _).
  assert (W : wp (ChessBot.getBestMove bot r1 r2) h
     (fun r h' =>
        heap_ext h h'
        /\ match r with
           | None => allLegalOn b black = []
           | Some m =>
               m ∈ allLegalOn b black
               /\ (ChessBot.difficulty bot = easy -> (r1 < roundDouble (6 # 10))%Q ->
                   (exists c, c ∈ allLegalOn b black /\ is_Some (capturedPiece c)) ->
                   is_Some (capturedPiece m))
           end)).
  { unfold ChessBot.getBestMove.
    apply wp_bind. eapply wp_mono; [eapply getGameState_spec; exact Hok|].
    intros snap h3 [_ Hext3]. cbv beta.
    apply wp_bind. eapply wp_mono;
      [eapply getAllLegalMoves_spec; eapply game_ok_ext; [exact Hok | exact Hext3]|].
    intros ms h4 [-> Hext4]. cbv beta.
    assert (Hext : heap_ext h h4) by (eapply heap_ext_trans; eauto).
    destruct (allLegalOn b black) as [|m0 rest] eqn:Hms; [now apply wp_ret|].
    destruct Htier as [-> | ->].
    - destruct (pick_elem r1 (m0 :: rest) Hr1) as (m & Hm & Hin); [discriminate|].
      apply wp_ret. unfold ChessBot.getRandomMove. rewrite Hm.
      split; [exact Hext|]. split; [exact Hin | discriminate].
    - destruct (getEasyMove_elem r1 r2 (m0 :: rest) Hr1 Hr2) as (m & Hm & Hin & Hcap);
        [discriminate|].
      apply wp_ret. rewrite Hm. split; [exact Hext|]. split; [exact Hin | auto]. }
  apply wp_elim in W as (r & h' & E' & Hext & Hr).
  exists r, h', (allLegalOn b black), h1. auto.
Qed.

Lemma goodMoves_spec hist ms m :
  ms <> [] ->
  goodMoves hist ms <> []
  /\ (m ∈ goodMoves hist ms ->
      m ∈ ms /\ forall m', m' ∈ ms -> scoreOf hist m' - pts 50 <= scoreOf hist m).
Proof.
  intros Hne. unfold goodMoves.
  destruct (bestFold_spec hist ms NegInf) as (_ & Hall & Hex).
  fold (bestStatic hist ms) in Hall, Hex.
  assert (Hbest : exists mb, mb ∈ ms /\ bestStatic hist ms = Fin (scoreOf hist mb)).
  { destruct Hex as [Hex|Hex]; [|exact Hex].
    destruct ms as [|m0 rest]; [congruence|].
    specialize (Hall m0 ltac:(left)). rewrite Hex in Hall. discriminate. }
  destruct Hbest as (mb & Hmb & Hbest). split.
  - intros Hnil.
    assert (H : mb ∈ filter (fun m => num_leb (num_add (bestStatic hist ms) (- pts 50))
                                              (Fin (scoreOf hist m)) = true) ms).
    { apply list_elem_of_filter. split; [|exact Hmb].
      rewrite Hbest. simpl. apply Z.leb_le. unfold pts. lia. }
    rewrite Hnil in H. now apply elem_of_nil in H.
  - intros Hin. apply list_elem_of_filter in Hin as [Hscore Hin].
    split; [exact Hin|]. intros m' Hin'. pose proof (Hall m' Hin') as Hle.
    rewrite Hbest in Hscore, Hle. simpl in Hscore, Hle.
    apply Z.leb_le in Hscore. apply Z.leb_le in Hle. unfold pts in *. lia.
Qed.

(** X19: at the difficulty medium, for any value that [Math.random] can
    return, [getBestMove] changes no cell allocated before the call and
    returns one of the moves of [getAllLegalMoves('black')] whose static
    score is within 50 points of the score of every other one. *)
Theorem medium_tier_within_fifty h bot gs st b hist r1 r2 :
  game_ok h (ChessBot.game bot) gs st b hist ->
  ChessBot.difficulty bot = medium ->
  isDraw r1 ->
  exists r h' ms h1,
    ChessBot.getBestMove bot r1 r2 h = Some (r, h')
    /\ heap_ext h h'
    /\ getAllLegalMoves (ChessBot.game bot) black h = Some (ms, h1)
    /\ match r with
       | None => ms = []
       | Some m =>
           m ∈ ms
           /\ forall m', m' ∈ ms ->
                exists v v' ha hb,
                  ChessBot.evaluateMove bot m h = Some (v, ha)
                  /\ ChessBot.evaluateMove bot m' h = Some (v', hb)
                  /\ v' - pts 50 <= v
       end.
Proof.
  intros Hok Htier Hr1.
  pose proof (ok_rows _ _ _ _ _ _ Hok) as Hrows.
  pose proof (getAllLegalMoves_spec _ gs st b hist black h Hok) as W.
  apply wp_elim in W as (ms0 & h1 & E & -> & _).
  pose proof (allLegalOn_to_valid b black Hrows) as Hvalid.
  assert (W : wp (ChessBot.getBestMove bot r1 r2) h
                 (fun r h' => heap_ext h h'
                              /\ r = match allLegalOn b black with
                                     | [] => None
                                     | _ => ChessBot.pick r1 (goodMoves hist (allLegalOn b black))
                                     end)).
  { unfold ChessBot.getBestMove.
    apply wp_bind. eapply wp_mono; [eapply getGameState_spec; exact Hok|].
    intros snap h3 [_ Hext3]. cbv beta.
    apply wp_bind. eapply wp_mono;
      [eapply getAllLegalMoves_spec; eapply game_ok_ext; [exact Hok | exact Hext3]|].
    intros ms' h4 [-> Hext4]. cbv beta.
    assert (Hext : heap_ext h h4) by (eapply heap_ext_trans; eauto).
    revert Hvalid. generalize (allLegalOn b black). intros ms Hvalid.
    destruct ms as [|m0 rest]; [now apply wp_ret|].
    rewrite Htier.
    eapply wp_mono.
    { eapply getMediumMove_spec; [eapply game_ok_ext; [exact Hok | exact Hext] | exact Hvalid]. }
    intros r h5 [-> Hext5]. split; [eapply heap_ext_trans; eauto | reflexivity]. }
  apply wp_elim in W as (r & h' & E' & Hext & ->).
  revert E E' Hvalid. generalize (allLegalOn b black). intros ms E E' Hvalid.
  exists (match ms with [] => None | _ => ChessBot.pick r1 (goodMoves hist ms) end), h', ms, h1.
  split; [exact E'|]. split; [exact Hext|]. split; [exact E|].
  destruct ms as [|m0 rest] eqn:Hms; [reflexivity|]. rewrite <- Hms in *.
  assert (Hne : ms <> []) by (rewrite Hms; discriminate).
  destruct (pick_elem r1 (goodMoves hist ms) Hr1) as (m & Hm & Hin);
    [apply (goodMoves_spec hist ms m0 Hne)|].
  rewrite Hm. destruct (goodMoves_spec hist ms m Hne) as [_ Hgood].
  destruct (Hgood Hin) as [Hin_ms Hscore].
  split; [exact Hin_ms|]. intros m' Hin'.
  rewrite Forall_forall in Hvalid.
  destruct (staticScore_total m hist (Hvalid m Hin_ms)) as [v Hv].
  destruct (staticScore_total m' hist (Hvalid m' Hin')) as [v' Hv'].
  pose proof (evaluateMove_spec h bot gs st b hist m v Hok Hv) as W.
  apply wp_elim in W as (? & ha & Ea & -> & _).
  pose proof (evaluateMove_spec h bot gs st b hist m' v' Hok Hv') as W.
  apply wp_elim in W as (? & hb & Eb & -> & _).
  exists v, v', ha, hb. split; [exact Ea|]. split; [exact Eb|].
  specialize (Hscore m' Hin'). unfold scoreOf in Hscore. now rewrite Hv, Hv' in Hscore.
Qed.
(** ** What an accepted move does to the board *)

(** X20: an accepted move between two different squares empties the source,
    puts the piece on the destination with [hasMoved] set and its colour
    kept, leaves every other square as it was, and pushes one [Move] whose
    [piece] is the piece as it stood before the move and whose
    [capturedPiece] is what stood on the destination. *)
Theorem makeMove_relocates_piece h this gs st b hist source target p :
  game_ok h this gs st b hist ->
  rd b source = Some (Some p) ->
  isValidPosition target = true ->
  source <> target ->
  exists h' st' b' m,
    makeMove this source target h = Some (true, h')
    /\ game_ok h' this gs st' b' (hist ++ [m])
    /\ rd b' source = Some None
    /\ (exists x, rd b' target = Some (Some x) /\ color x = color p /\ hasMoved x = true)
    /\ (forall q, q <> source -> q <> target -> rd b' q = rd b q)
    /\ rd b target = Some (capturedPiece m)
    /\ piece m = p.
Proof.
  intros Hok Hp Hto Hne.
  pose proof (makeMove_accepted this gs st b hist source target p h Hok Hp Hto) as W.
  apply wp_elim in W as (r & h' & E & -> & b' & lm & Hmoved & _ & _ & Hok' & _).
  exists h', (movedState b' lm st), b', (recorded b source target p).
  split; [exact E|]. split; [exact Hok'|].
  split; [|split; [|split; [|split]]].
  - rewrite (movedBoard_rd _ _ _ _ _ source Hmoved Hne).
    destruct (decide (source = target)); [contradiction|].
    destruct (decide (source = source)); [reflexivity | contradiction].
  - exists (placed p target). rewrite (movedBoard_rd _ _ _ _ _ target Hmoved Hne).
    destruct (decide (target = target)); [|contradiction]. repeat split.
  - intros q Hq1 Hq2. rewrite (movedBoard_rd _ _ _ _ _ q Hmoved Hne).
    destruct (decide (q = target)); [contradiction|].
    destruct (decide (q = source)); [contradiction | reflexivity].
  - destruct (rd_valid b target (ok_rows _ _ _ _ _ _ Hok) Hto) as [t Ht].
    unfold recorded. simpl. now rewrite Ht.
  - reflexivity.
Qed.

(** X21: [makeMove] from a square onto itself is accepted like any other
    move, and the piece disappears: the square ends empty, unless the piece
    is a pawn standing on its far rank, which becomes a queen.  The other
    squares are unchanged and the turn passes. *)
Theorem makeMove_onto_own_square h this gs st b hist position p :
  game_ok h this gs st b hist ->
  rd b position = Some (Some p) ->
  isValidPosition position = true ->
  exists h' st' b' m,
    makeMove this position position h = Some (true, h')
    /\ game_ok h' this gs st' b' (hist ++ [m])
    /\ currentPlayer st' = getOppositeColor (currentPlayer st)
    /\ rd b' position
       = (if promotes p position
          then Some (Some {| type := queen; color := color p; hasMoved := true |})
          else Some None)
    /\ (forall q, q <> position -> rd b' q = rd b q)
    /\ capturedPiece m = Some p.
Proof.
  intros Hok Hp Hto.
  pose proof (makeMove_accepted this gs st b hist position position p h Hok Hp Hto) as W.
  apply wp_elim in W as (r & h' & E & -> & b' & lm & Hmoved & _ & _ & Hok' & _).
  exists h', (movedState b' lm st), b', (recorded b position position p).
  split; [exact E|]. split; [exact Hok'|].
  split; [apply movedState_fields|].
  split; [|split].
  - rewrite (movedBoard_rd_same _ _ _ _ position Hmoved).
    destruct (decide (position = position)); [reflexivity | contradiction].
  - intros q Hq. rewrite (movedBoard_rd_same _ _ _ _ q Hmoved).
    destruct (decide (q = position)); [contradiction | reflexivity].
  - unfold recorded. simpl. now rewrite Hp.
Qed.

(** X22: [makeMove] does not look at whose turn it is, and two accepted
    moves give the turn back: after any accepted move, a move from any
    occupied square is accepted again, the history is two entries longer
    and the player to move is the one it was at the start. *)
Theorem two_moves_return_the_turn h this gs st b hist s1 t1 p1 s2 t2 :
  game_ok h this gs st b hist ->
  rd b s1 = Some (Some p1) ->
  isValidPosition t1 = true ->
  isValidPosition t2 = true ->
  exists h1 st1 b1 m1,
    makeMove this s1 t1 h = Some (true, h1)
    /\ game_ok h1 this gs st1 b1 (hist ++ [m1])
    /\ (forall q, q <> s1 -> q <> t1 -> rd b1 q = rd b q)
    /\ forall p2, rd b1 s2 = Some (Some p2) ->
         exists h2 st2 b2 m2,
           makeMove this s2 t2 h1 = Some (true, h2)
           /\ game_ok h2 this gs st2 b2 (hist ++ [m1; m2])
           /\ piece m2 = p2
           /\ currentPlayer st2 = currentPlayer st.
Proof.
  intros Hok Hp1 Ht1 Ht2.
  pose proof (makeMove_accepted this gs st b hist s1 t1 p1 h Hok Hp1 Ht1) as W.
  apply wp_elim in W as (r & h1 & E1 & -> & b1 & lm1 & Hmoved & _ & _ & Hok1 & _).
  exists h1, (movedState b1 lm1 st), b1, (recorded b s1 t1 p1).
  split; [exact E1|]. split; [exact Hok1|]. split.
  { intros q Hq1 Hq2. destruct (decide (s1 = t1)) as [<-|Hne].
    - rewrite (movedBoard_rd_same _ _ _ _ q Hmoved).
      destruct (decide (q = s1)); [contradiction | reflexivity].
    - rewrite (movedBoard_rd _ _ _ _ _ q Hmoved Hne).
      destruct (decide (q = t1)); [contradiction|].
      destruct (decide (q = s1)); [contradiction | reflexivity]. }
  intros p2 Hp2.
  pose proof (makeMove_accepted this gs _ b1 _ s2 t2 p2 h1 Hok1 Hp2 Ht2) as W.
  apply wp_elim in W as (r & h2 & E2 & -> & b2 & lm2 & _ & _ & _ & Hok2 & _).
  exists h2, (movedState b2 lm2 (movedState b1 lm1 st)), b2, (recorded b1 s2 t2 p2).
  split; [exact E2|]. split; [now rewrite <- app_assoc in Hok2|].
  split; [reflexivity|].
  destruct (movedState_fields b2 lm2 (movedState b1 lm1 st)) as (_ & -> & _).
  destruct (movedState_fields b1 lm1 st) as (_ & -> & _).
  now destruct (currentPlayer st).
Qed.

(** ** The static evaluation is symmetric *)

Lemma tableAt_mirror table position :
  table = ChessBot.pawnTable \/ table = ChessBot.knightTable ->
  isValidPosition position = true ->
  ChessBot.tableAt table {| row := row position; col := 7 - col position |}
  = ChessBot.tableAt table position.
Proof.
  intros Ht Hv. apply isValidPosition_spec in Hv. destruct position as [r c]. simpl in *.
  assert (Hr : r = 0 \/ r = 1 \/ r = 2 \/ r = 3 \/ r = 4 \/ r = 5 \/ r = 6 \/ r = 7) by lia.
  assert (Hc : c = 0 \/ c = 1 \/ c = 2 \/ c = 3 \/ c = 4 \/ c = 5 \/ c = 6 \/ c = 7) by lia.
  clear Hv.
  destruct Ht as [-> | ->];
    repeat (destruct Hr as [-> | Hr]); try subst r;
    repeat (destruct Hc as [-> | Hc]); try subst c; reflexivity.
Qed.

Lemma staticScore_mirror move hist :
  isValidPosition (to move) = true ->
  staticScore (mirrorMove move) hist = staticScore move hist.
Proof.
  intros Hv. unfold staticScore, mirrorMove. cbn [piece to capturedPiece].
  assert (Hpv : ChessBot.getPositionValue (piece move)
                  {| row := row (to move); col := 7 - col (to move) |}
                = ChessBot.getPositionValue (piece move) (to move)).
  { unfold ChessBot.getPositionValue.
    destruct (type (piece move)); try reflexivity; apply tableAt_mirror; auto. }
  assert (Hc : ChessBot.isCenter {| row := row (to move); col := 7 - col (to move) |}
               = ChessBot.isCenter (to move)).
  { unfold ChessBot.isCenter. cbn [row col].
    destruct (Z.leb_spec 2 (col (to move))), (Z.leb_spec (col (to move)) 5),
             (Z.leb_spec 2 (7 - col (to move))), (Z.leb_spec (7 - col (to move)) 5);
      try lia; reflexivity. }
  rewrite Hpv, Hc. reflexivity.
Qed.

(** X23: the static evaluation does not tell left from right: [evaluateMove]
    gives a move and the move with its destination reflected in the vertical
    axis of the board the same score. *)
Theorem evaluateMove_mirror h bot gs st b hist move :
  game_ok h (ChessBot.game bot) gs st b hist ->
  isValidPosition (to move) = true ->
  exists v h1 h2,
    ChessBot.evaluateMove bot move h = Some (v, h1)
    /\ ChessBot.evaluateMove bot (mirrorMove move) h = Some (v, h2).
Proof.
  intros Hok Hv.
  destruct (staticScore_total move hist Hv) as [v Hs].
  pose proof (evaluateMove_spec h bot gs st b hist move v Hok Hs) as W.
  apply wp_elim in W as (? & h1 & E1 & -> & _).
  rewrite <- (staticScore_mirror move hist Hv) in Hs.
  pose proof (evaluateMove_spec h bot gs st b hist (mirrorMove move) v Hok Hs) as W.
  apply wp_elim in W as (? & h2 & E2 & -> & _).
  exists v, h1, h2. split; [exact E1 | exact E2].
Qed.
(** ** The scratch game of the search *)

(** [minimax] builds its temporary game from the engine's current state:
    a new instance with a new state object and a copy of the board, and with
    the engine's own history array. *)
Lemma scratchGame_spec h bot gs st b hist :
  game_ok h (ChessBot.game bot) gs st b hist ->
  wp (ChessBot.scratchGame bot) h
     (fun tempGame h' =>
        exists ns nb,
          game_ok h' tempGame ns (set_board nb st) b hist
          /\ heap_ext h h'
          /\ (next h <= ns)%positive /\ (next h <= nb)%positive).
Proof.
  intros Hok. unfold ChessBot.scratchGame.
  apply wp_bind. eapply wp_mono; [apply newChessGame_spec|].
  intros tg h1 (gs0 & st0 & Hext1 & Hgs0 & Hlt0 & Htg & _ & _). cbv beta.
  pose proof (game_ok_ext _ _ _ _ _ _ _ Hok Hext1) as Hok1.
  apply wp_bind. eapply wp_mono; [eapply getGameState_spec; exact Hok1|].
  intros snap h2 [Hsnap Hext2]. cbv beta.
  pose proof (game_ok_ext _ _ _ _ _ _ _ Hok1 Hext2) as Hok2.
  apply wp_bind. eapply wp_readState; [exact Hsnap|].
  apply wp_bind. eapply wp_readBoard; [apply Hok2|].
  apply wp_bind. apply wp_alloc. apply wp_bind. apply wp_alloc.
  apply wp_bind. apply wp_store. apply wp_ret.
  exists (Pos.succ (next h2)), (next h2).
  destruct Hext1 as [L1 E1]. destruct Hext2 as [L2 E2].
  pose proof (ok_hist_lt _ _ _ _ _ _ Hok) as Hh.
  rewrite copyBoard_id.
  split; [|split; [|split]].
  - split; simpl.
    + apply lookup_insert_eq.
    + rewrite lookup_insert_ne by lia. apply lookup_insert_eq.
    + rewrite !lookup_insert_ne by lia. apply lookup_insert_eq.
    + rewrite !lookup_insert_ne by lia. apply Hok2.
    + lia.
    + lia.
    + lia.
    + lia.
    + apply Hok.
  - split; simpl; [lia|]. intros l Hl.
    rewrite !lookup_insert_ne by lia. rewrite E2 by lia. now apply E1.
  - lia.
  - lia.
Qed.

Lemma isCheckmate_movedState b' lm lm' nb st :
  isCheckmate (movedState b' lm' (set_board nb st)) = isCheckmate (movedState b' lm st).
Proof.
  unfold movedState, statusAfter.
  cbn [currentPlayer isCheck isCheckmate set_legalMoves set_selectedSquare set_currentPlayer
       set_isCheck set_board].
  destruct (existsb _ allSquares); [reflexivity|].
  destruct (attacked b' _); reflexivity.
Qed.

(** X24: a mating reply is worth 10000.  If [makeMove] with the move on the
    engine would leave [isCheckmate] set, then [minimax] at any depth of at
    least one returns 10000 for the minimising side and -10000 for the
    maximising side, whatever [alpha] and [beta] are, without searching
    further.  The engine's state object and board are as before, but the move
    has been pushed onto the engine's own history. *)
Theorem minimax_scores_checkmate h bot gs st b hist move h1 st1 depth isMaximizing alpha beta :
  game_ok h (ChessBot.game bot) gs st b hist ->
  isValidPosition (from move) = true ->
  isValidPosition (to move) = true ->
  makeMove (ChessBot.game bot) (from move) (to move) h = Some (true, h1) ->
  cells h1 !! gs = Some (CState st1) ->
  isCheckmate st1 = true ->
  exists h' m,
    ChessBot.minimax bot move (S depth) isMaximizing alpha beta h
    = Some (if isMaximizing then Fin (pts (-10000)) else Fin (pts 10000), h')
    /\ game_ok h' (ChessBot.game bot) gs st b (hist ++ [m])
    /\ from m = from move /\ to m = to move
    /\ same_except [moveHistory st] h h'.
Proof.
  intros Hok Hfrom Hto Hmake Hst1 Hmate.
  pose proof (ok_rows _ _ _ _ _ _ Hok) as Hrows.
  destruct (rd_valid b (from move) Hrows Hfrom) as [[p|] Hp];
    [|rewrite (makeMove_rejected _ _ _ _ _ _ _ _ Hok Hp) in Hmake; discriminate].
  pose proof (makeMove_accepted _ gs st b hist (from move) (to move) p h Hok Hp Hto) as W.
  apply wp_elim in W as (r & h1' & E & -> & b' & lm & Hmoved & _ & _ & Hok1 & _).
  rewrite Hmake in E. injection E as <-.
  pose proof (ok_state _ _ _ _ _ _ Hok1) as Hst1'. rewrite Hst1 in Hst1'.
  injection Hst1' as ->.
  assert (W : wp (ChessBot.minimax bot move (S depth) isMaximizing alpha beta) h
                 (fun r h' =>
                    r = (if isMaximizing then Fin (pts (-10000)) else Fin (pts 10000))
                    /\ game_ok h' (ChessBot.game bot) gs st b
                               (hist ++ [recorded b (from move) (to move) p])
                    /\ same_except [moveHistory st] h h')).
  { cbn [ChessBot.minimax].
    apply wp_bind. eapply wp_mono; [eapply scratchGame_spec; exact Hok|].
    intros tg h5 (ns & nb & Hok5 & Hext5 & Hns & Hnb). cbv beta.
    apply wp_bind.
    eapply wp_mono; [eapply makeMove_accepted_next; [exact Hok5 | exact Hp | exact Hto]|].
    intros r h6 (-> & b'' & lm' & Hmoved' & _ & _ & Hok6 & Hsame & _). cbv beta.
    rewrite Hmoved in Hmoved'. injection Hmoved' as <-.
    apply wp_bind. eapply wp_mono; [eapply getGameState_spec; exact Hok6|].
    intros snap h7 [Hsnap Hext7]. cbv beta.
    apply wp_bind. eapply wp_readState; [exact Hsnap|].
    rewrite isCheckmate_movedState with (lm := lm), Hmate.
    apply wp_ret. split; [reflexivity|].
    cbn [board moveHistory set_board] in Hsame.
    assert (Hsame7 : same_except [moveHistory st] h h7).
    { destruct Hext5 as [L5 E5]. destruct Hsame as [L6 E6]. destruct Hext7 as [L7 E7].
      split; [lia|]. intros l Hl Hn.
      rewrite E7 by lia. rewrite E6; [now apply E5 | lia |].
      rewrite !not_elem_of_cons. rewrite not_elem_of_cons in Hn.
      split; [lia|]. split; [lia|]. split; [tauto | apply not_elem_of_nil]. }
    split; [|exact Hsame7].
    pose proof (ok_hist _ _ _ _ _ _ Hok6) as Hh6.
    destruct (movedState_fields b' lm' (set_board nb st)) as (_ & _ & _ & _ & Hmh & _).
    rewrite Hmh in Hh6. cbn [moveHistory set_board] in Hh6.
    destruct Hsame7 as [L E].
    assert (Hne : forall l c, cells h !! l = Some c -> (forall ms, c <> CMoves ms) ->
                              l ∉ [moveHistory st]).
    { intros l c Hl Hc. rewrite not_elem_of_cons. split; [|apply not_elem_of_nil].
      intros ->. rewrite (ok_hist _ _ _ _ _ _ Hok) in Hl. injection Hl as <-.
      now apply (Hc hist). }
    split.
    - rewrite E; [apply Hok | apply Hok |].
      eapply Hne; [apply Hok | discriminate].
    - rewrite E; [apply Hok | apply Hok |].
      eapply Hne; [apply Hok | discriminate].
    - rewrite E; [apply Hok | apply Hok |].
      eapply Hne; [apply Hok | discriminate].
    - eapply heap_ext_lookup; [exact Hext7 | | exact Hh6].
      pose proof (ok_hist_lt _ _ _ _ _ _ Hok6) as Hlt. now rewrite Hmh in Hlt.
    - pose proof (ok_this_lt _ _ _ _ _ _ Hok). lia.
    - pose proof (ok_gs_lt _ _ _ _ _ _ Hok). lia.
    - pose proof (ok_board_lt _ _ _ _ _ _ Hok). lia.
    - pose proof (ok_hist_lt _ _ _ _ _ _ Hok). lia.
    - exact Hrows. }
  apply wp_elim in W as (r & h' & E & -> & Hok' & Hsame).
  exists h', (recorded b (from move) (to move) p).
  split; [exact E|]. split; [exact Hok'|]. split; [reflexivity|]. split; [reflexivity|].
  exact Hsame.
Qed.
(** * Alpha-beta and plain minimax *)

(** ** The order of the numbers *)

Ltac num_step :=
  match goal with
  | |- context [?x <=? ?y] => destruct (Z.leb_spec x y)
  | H : context [?x <=? ?y] |- _ => destruct (Z.leb_spec x y)
  end; cbn [num_leb negb] in *.

Ltac num_done :=
  repeat match goal with
         | H : Fin _ = Fin _ |- _ => injection H as H
         end;
  first [discriminate | congruence | lia | (f_equal; lia) | (exfalso; lia)].

Ltac num_cases :=
  intros; unfold withinWindow, nle, nlt, num_ltb, num_max, num_min in *;
  repeat match goal with x : num |- _ => destruct x end;
  cbn [num_leb negb] in *;
  repeat num_step;
  try num_done; try tauto; try (intuition (try num_done)).

Lemma num_max_comm_assoc a0 m e : num_max (num_max a0 m) e = num_max a0 (num_max m e).
Proof. num_cases. Qed.

Lemma num_min_comm_assoc b0 m e : num_min (num_min b0 m) e = num_min b0 (num_min m e).
Proof. num_cases. Qed.

Lemma foldl_max_ge (f : Move -> num) ms acc :
  nle acc (foldl (fun a m => num_max a (f m)) acc ms).
Proof.
  revert acc. induction ms as [|m rest IH]; intros acc; simpl.
  - num_cases.
  - specialize (IH (num_max acc (f m))). revert IH.
    generalize (foldl (fun a m0 => num_max a (f m0)) (num_max acc (f m)) rest).
    generalize (f m). intros. num_cases.
Qed.

Lemma foldl_min_le (f : Move -> num) ms acc :
  nle (foldl (fun a m => num_min a (f m)) acc ms) acc.
Proof.
  revert acc. induction ms as [|m rest IH]; intros acc; simpl.
  - num_cases.
  - specialize (IH (num_min acc (f m))). revert IH.
    generalize (foldl (fun a m0 => num_min a (f m0)) (num_min acc (f m)) rest).
    generalize (f m). intros. num_cases.
Qed.

Lemma num_max_NegInf a : num_max a NegInf = a.
Proof. num_cases. Qed.

Lemma num_min_PosInf a : num_min a PosInf = a.
Proof. num_cases. Qed.

Lemma nle_trans a b c : nle a b -> nle b c -> nle a c.
Proof. num_cases. Qed.

Lemma withinWindow_refl x alpha beta : withinWindow x x alpha beta.
Proof. num_cases. Qed.

Lemma withinWindow_full r v : withinWindow r v NegInf PosInf -> r = v.
Proof. num_cases. Qed.

(** *** The maximising loop *)

Lemma max_base a0 c M Mv :
  nlt (num_max a0 M) c -> nle Mv M -> (nlt a0 M -> Mv = M) -> withinWindow M Mv a0 c.
Proof. num_cases. Qed.

Lemma max_break a0 M c e :
  nlt (num_max a0 M) c -> num_leb c (num_max a0 (num_max M e)) = true ->
  nle c e /\ num_max M e = e /\ nlt a0 c.
Proof. num_cases. Qed.

Lemma max_break_window a0 c e V : nlt a0 c -> nle c e -> nle e V -> withinWindow e V a0 c.
Proof. num_cases. Qed.

Lemma max_child a c e vm :
  withinWindow e vm a c -> num_leb c (num_max a e) = false ->
  nle vm e /\ (nlt a e -> vm = e).
Proof. num_cases. Qed.

Lemma max_keeps_le Mv M vm e : nle Mv M -> nle vm e -> nle (num_max Mv vm) (num_max M e).
Proof. num_cases. Qed.

Lemma max_keeps_eq a0 M Mv e vm :
  nle Mv M -> nle vm e -> (nlt a0 M -> Mv = M) -> (nlt (num_max a0 M) e -> vm = e) ->
  nlt a0 (num_max M e) -> num_max Mv vm = num_max M e.
Proof. num_cases. Qed.

Lemma nle_max_r a b V : nle (num_max a b) V -> nle b V.
Proof. num_cases. Qed.

Lemma pureMaxLoop_window (rec : Move -> num -> num -> num) (val : Move -> num) ms :
  (forall m a c, nlt a c -> withinWindow (rec m a c) (val m) a c) ->
  forall M Mv a0 a c,
    a = num_max a0 M -> nlt a c -> nle Mv M -> (nlt a0 M -> Mv = M) ->
    withinWindow (pureMaxLoop rec ms M a c)
                 (foldl (fun acc m => num_max acc (val m)) Mv ms) a0 c.
Proof.
  intros Hrec. induction ms as [|m rest IH]; intros M Mv a0 a c -> Hac HMv Heq.
  - cbn [pureMaxLoop foldl]. now apply max_base.
  - cbn [pureMaxLoop foldl].
    pose proof (Hrec m _ _ Hac) as Hc.
    set (e := rec m (num_max a0 M) c) in *. set (vm := val m) in *.
    rewrite num_max_comm_assoc.
    destruct (num_leb c (num_max a0 (num_max M e))) eqn:Hb.
    + destruct (max_break a0 M c e Hac Hb) as (Hce & -> & Ha0c).
      apply max_break_window; [exact Ha0c | exact Hce|].
      apply nle_trans with vm; [apply Hc; exact Hce|].
      eapply nle_max_r. apply foldl_max_ge.
    + rewrite <- num_max_comm_assoc in Hb.
      destruct (max_child _ _ _ _ Hc Hb) as [Hle Hex].
      apply IH.
      * reflexivity.
      * unfold nlt, num_ltb. rewrite num_max_comm_assoc in Hb. now rewrite Hb.
      * now apply max_keeps_le.
      * intros Hlt. now apply (max_keeps_eq a0).
Qed.

(** *** The minimising loop *)

Lemma min_base a c0 M Mv :
  nlt a (num_min c0 M) -> nle M Mv -> (nlt M c0 -> Mv = M) -> withinWindow M Mv a c0.
Proof. num_cases. Qed.

Lemma min_break a c0 M e :
  nlt a (num_min c0 M) -> num_leb (num_min c0 (num_min M e)) a = true ->
  nle e a /\ num_min M e = e /\ nlt a c0.
Proof. num_cases. Qed.

Lemma min_break_window a c0 e V : nlt a c0 -> nle e a -> nle V e -> withinWindow e V a c0.
Proof. num_cases. Qed.

Lemma min_child a c e vm :
  withinWindow e vm a c -> num_leb (num_min c e) a = false ->
  nle e vm /\ (nlt e c -> vm = e).
Proof. num_cases. Qed.

Lemma min_keeps_le Mv M vm e : nle M Mv -> nle e vm -> nle (num_min M e) (num_min Mv vm).
Proof. num_cases. Qed.

Lemma min_keeps_eq c0 M Mv e vm :
  nle M Mv -> nle e vm -> (nlt M c0 -> Mv = M) -> (nlt e (num_min c0 M) -> vm = e) ->
  nlt (num_min M e) c0 -> num_min Mv vm = num_min M e.
Proof. num_cases. Qed.

Lemma nle_min_r a b V : nle V (num_min a b) -> nle V b.
Proof. num_cases. Qed.

Lemma pureMinLoop_window (rec : Move -> num -> num -> num) (val : Move -> num) ms :
  (forall m a c, nlt a c -> withinWindow (rec m a c) (val m) a c) ->
  forall M Mv a c0 c,
    c = num_min c0 M -> nlt a c -> nle M Mv -> (nlt M c0 -> Mv = M) ->
    withinWindow (pureMinLoop rec ms M a c)
                 (foldl (fun acc m => num_min acc (val m)) Mv ms) a c0.
Proof.
  intros Hrec. induction ms as [|m rest IH]; intros M Mv a c0 c -> Hac HMv Heq.
  - cbn [pureMinLoop foldl]. now apply min_base.
  - cbn [pureMinLoop foldl].
    pose proof (Hrec m _ _ Hac) as Hc.
    set (e := rec m a (num_min c0 M)) in *. set (vm := val m) in *.
    rewrite num_min_comm_assoc.
    destruct (num_leb (num_min c0 (num_min M e)) a) eqn:Hb.
    + destruct (min_break a c0 M e Hac Hb) as (Hea & -> & Hac0).
      apply min_break_window; [exact Hac0 | exact Hea|].
      apply nle_trans with vm; [|apply Hc; exact Hea].
      eapply nle_min_r. apply foldl_min_le.
    + rewrite <- num_min_comm_assoc in Hb.
      destruct (min_child _ _ _ _ Hc Hb) as [Hle Hex].
      apply IH.
      * reflexivity.
      * unfold nlt, num_ltb. rewrite num_min_comm_assoc in Hb. now rewrite Hb.
      * now apply min_keeps_le.
      * intros Hlt. now apply (min_keeps_eq c0).
Qed.

(** *** The search *)

Lemma alphaBeta_window b st leaf depth :
  forall move isMaximizing alpha beta,
    nlt alpha beta ->
    withinWindow (alphaBeta b st leaf depth move isMaximizing alpha beta)
                 (plainSearch b st leaf depth move isMaximizing) alpha beta.
Proof.
  induction depth as [|d IH]; intros move isMax alpha beta Hab.
  - apply withinWindow_refl.
  - cbn [alphaBeta plainSearch].
    destruct (scratchBoard b move) as [b'|]; [|apply withinWindow_refl].
    destruct (scratchMate b st move); [apply withinWindow_refl|].
    destruct isMax.
    + apply pureMaxLoop_window with (a0 := alpha).
      * intros m a c Hlt. now apply IH.
      * now rewrite num_max_NegInf.
      * exact Hab.
      * reflexivity.
      * reflexivity.
    + apply pureMinLoop_window with (c0 := beta).
      * intros m a c Hlt. now apply IH.
      * now rewrite num_min_PosInf.
      * exact Hab.
      * reflexivity.
      * reflexivity.
Qed.

Lemma alphaBeta_plainSearch b st leaf depth move isMaximizing :
  alphaBeta b st leaf depth move isMaximizing NegInf PosInf
  = plainSearch b st leaf depth move isMaximizing.
Proof. apply withinWindow_full, alphaBeta_window. reflexivity. Qed.

(** ** The search in the store *)

Lemma staticScore_settled move hist :
  (15 <= length hist)%nat -> isValidPosition (to move) = true ->
  staticScore move hist = Some (settledScore move).
Proof.
  intros Hlen Hv. unfold staticScore, settledScore.
  assert (exists pv, ChessBot.getPositionValue (piece move) (to move) = Some pv) as [pv ->].
  { unfold ChessBot.getPositionValue.
    destruct (type (piece move)); eauto;
      apply tableAt_valid; auto; repeat constructor. }
  rewrite obind_Some.
  destruct (Z.ltb_spec (Z.of_nat (length hist)) 10); [lia|].
  destruct (Z.ltb_spec (Z.of_nat (length hist)) 15); [lia|].
  rewrite andb_false_r.
  destruct (ChessBot.isCenter (to move)); f_equal; lia.
Qed.

Lemma mateAfter_movedState b' lm nb st :
  isCheckmate (movedState b' lm (set_board nb st)) = mateAfter b' st.
Proof.
  unfold movedState, mateAfter, statusAfter.
  cbn [currentPlayer isCheck isCheckmate set_legalMoves set_selectedSquare set_currentPlayer
       set_isCheck set_board].
  destruct (existsb _ allSquares); [reflexivity|].
  destruct (attacked b' _); reflexivity.
Qed.

Lemma movedBoard_rows_ok b from to p b' :
  movedBoard b from to p = Some b' -> rows_ok b -> rows_ok b'.
Proof.
  unfold movedBoard. intros Hm Hrows.
  destruct (setSq b to _) as [b1|] eqn:Hb1; [|discriminate]. rewrite obind_Some in Hm.
  destruct (setSq b1 from None) as [b2|] eqn:Hb2; [|discriminate]. rewrite obind_Some in Hm.
  pose proof (setSq_rows_ok _ _ _ _ Hb1 Hrows) as H1.
  pose proof (setSq_rows_ok _ _ _ _ Hb2 H1) as H2.
  destruct (promotes p to); [eapply setSq_rows_ok; eauto | congruence].
Qed.

Lemma allLegalOn_onBoard b side : rows_ok b -> Forall onBoard (allLegalOn b side).
Proof.
  intros Hrows. apply Forall_forall. intros m Hin. split.
  - apply allLegalOn_elem in Hin. tauto.
  - pose proof (allLegalOn_to_valid b side Hrows) as H. rewrite Forall_forall in H. auto.
Qed.

Lemma scratchBoard_total b move :
  rows_ok b -> onBoard move -> exists b', scratchBoard b move = Some b'.
Proof.
  intros Hrows [Hfrom Hto]. unfold scratchBoard.
  destruct (rd_valid b (from move) Hrows Hfrom) as [[p|] Hp]; rewrite Hp; [|eauto].
  destruct (movedBoard_total b (from move) (to move) p Hrows Hp Hto)
    as (_ & _ & b' & _ & _ & _ & Hmoved).
  eauto.
Qed.

Section Refinement.

Variable bot : ChessBot.ChessBot.
Variables (gs : loc) (st : GameState) (b : Board).

Lemma settled_ext h h' : settled bot gs st b h -> heap_ext h h' -> settled bot gs st b h'.
Proof.
  intros (hist & Hok & Hlen) Hext. exists hist.
  split; [eapply game_ok_ext; eauto | exact Hlen].
Qed.

Lemma wp_leaf move h :
  settled bot gs st b h -> onBoard move ->
  wp (ChessBot.evaluateMove bot move) h
     (fun v h' => v = settledScore move /\ settled bot gs st b h').
Proof.
  intros (hist & Hok & Hlen) [_ Hto].
  eapply wp_mono;
    [eapply evaluateMove_spec; [exact Hok | now apply staticScore_settled]|].
  intros v h' [-> Hext]. split; [reflexivity|]. eapply settled_ext; [|exact Hext].
  exists hist. auto.
Qed.

(** The engine after the [makeMove] of a node on its temporary game: only
    the shared history has changed, by one entry. *)
Lemma engine_after_scratch_move h h5 h6 hist tg ns nb st6 b6 m :
  game_ok h (ChessBot.game bot) gs st b hist ->
  heap_ext h h5 ->
  (next h <= ns)%positive -> (next h <= nb)%positive ->
  game_ok h6 tg ns st6 b6 (hist ++ [m]) ->
  moveHistory st6 = moveHistory st ->
  same_except [ns; nb; moveHistory st] h5 h6 ->
  game_ok h6 (ChessBot.game bot) gs st b (hist ++ [m]).
Proof.
  intros Hok [L5 E5] Hns Hnb Hok6 Hmh [L6 E6].
  pose proof (ok_hist _ _ _ _ _ _ Hok6) as Hh6. rewrite Hmh in Hh6.
  assert (Hne : forall l c, cells h !! l = Some c -> (l < next h)%positive ->
                            (forall ms, c <> CMoves ms) ->
                            cells h6 !! l = Some c).
  { intros l c Hl Hlt Hc. rewrite E6, E5; [exact Hl | lia | lia |].
    rewrite !not_elem_of_cons. split; [lia|]. split; [lia|].
    split; [|apply not_elem_of_nil].
    intros ->. rewrite (ok_hist _ _ _ _ _ _ Hok) in Hl. injection Hl as <-.
    now apply (Hc hist). }
  split.
  - apply Hne; [apply Hok | apply Hok | discriminate].
  - apply Hne; [apply Hok | apply Hok | discriminate].
  - apply Hne; [apply Hok | apply Hok | discriminate].
  - exact Hh6.
  - pose proof (ok_this_lt _ _ _ _ _ _ Hok). lia.
  - pose proof (ok_gs_lt _ _ _ _ _ _ Hok). lia.
  - pose proof (ok_board_lt _ _ _ _ _ _ Hok). lia.
  - pose proof (ok_hist_lt _ _ _ _ _ _ Hok). lia.
  - apply Hok.
Qed.

(** One node of the search, up to its loop. *)
Lemma wp_searchNode move side (mate : num) (cont : list Move -> M num) h
    (Q : num -> heap -> Prop) :
  settled bot gs st b h -> onBoard move ->
  (scratchMate b st move = true -> forall h', settled bot gs st b h' -> Q mate h') ->
  (forall b' h', scratchBoard b move = Some b' -> scratchMate b st move = false ->
                 rows_ok b' -> settled bot gs st b h' -> wp (cont (allLegalOn b' side)) h' Q) ->
  wp (let! tempGame := ChessBot.scratchGame bot in
      let! _ := makeMove tempGame (from move) (to move) in
      let! newState := getGameState tempGame in
      let! ns := readState newState in
      if isCheckmate ns then ret mate
      else
        let! nextMoves := getAllLegalMoves tempGame side in
        cont nextMoves) h Q.
Proof.
  intros (hist & Hok & Hlen) [Hfrom Hto] Hmate Hcont.
  pose proof (ok_rows _ _ _ _ _ _ Hok) as Hrows.
  apply wp_bind. eapply wp_mono; [eapply scratchGame_spec; exact Hok|].
  intros tg h5 (ns & nb & Hok5 & Hext5 & Hns & Hnb). cbv beta.
  destruct (rd_valid b (from move) Hrows Hfrom) as [[p|] Hp].
  - apply wp_bind.
    eapply wp_mono; [eapply makeMove_accepted; [exact Hok5 | exact Hp | exact Hto]|].
    intros r h6 (-> & b' & lm & Hmoved & _ & _ & Hok6 & Hsame). cbv beta.
    cbn [board moveHistory set_board] in Hsame.
    assert (Hmh : moveHistory (movedState b' lm (set_board nb st)) = moveHistory st).
    { destruct (movedState_fields b' lm (set_board nb st)) as (_ & _ & _ & _ & -> & _).
      reflexivity. }
    pose proof (engine_after_scratch_move _ _ _ _ _ _ _ _ _ _ Hok Hext5 Hns Hnb Hok6 Hmh Hsame)
      as Hengine.
    assert (Hset : settled bot gs st b h6).
    { eexists. split; [exact Hengine|]. rewrite length_app. simpl. lia. }
    apply wp_bind. eapply wp_mono; [eapply getGameState_spec; exact Hok6|].
    intros snap h7 [Hsnap Hext7]. cbv beta.
    apply wp_bind. eapply wp_readState; [exact Hsnap|].
    rewrite mateAfter_movedState.
    assert (Hsm : scratchMate b st move = mateAfter b' st)
      by (unfold scratchMate; now rewrite Hp, Hmoved).
    assert (Hsb : scratchBoard b move = Some b')
      by (unfold scratchBoard; now rewrite Hp).
    destruct (mateAfter b' st) eqn:Em.
    + apply wp_ret. apply Hmate; [exact Hsm | eapply settled_ext; eauto].
    + apply wp_bind.
      eapply wp_mono;
        [eapply getAllLegalMoves_spec; eapply game_ok_ext; [exact Hok6 | exact Hext7]|].
      intros ms h8 [-> Hext8]. cbv beta.
      apply Hcont; [exact Hsb | exact Hsm | apply Hok6|].
      eapply settled_ext; [|exact Hext8]. eapply settled_ext; eauto.
  - apply wp_bind.
    eapply wp_intro; [eapply makeMove_rejected; [exact Hok5 | exact Hp]|]. cbv beta.
    assert (Hset : settled bot gs st b h5)
      by (eapply settled_ext; [exists hist; eauto | exact Hext5]).
    apply wp_bind. eapply wp_mono; [eapply getGameState_spec; exact Hok5|].
    intros snap h7 [Hsnap Hext7]. cbv beta.
    apply wp_bind. eapply wp_readState; [exact Hsnap|].
    assert (Hsm : scratchMate b st move = isCheckmate st)
      by (unfold scratchMate; now rewrite Hp).
    assert (Hsb : scratchBoard b move = Some b)
      by (unfold scratchBoard; now rewrite Hp).
    cbn [isCheckmate set_board].
    destruct (isCheckmate st) eqn:Em.
    + apply wp_ret. apply Hmate; [exact Hsm | eapply settled_ext; eauto].
    + apply wp_bind.
      eapply wp_mono;
        [eapply getAllLegalMoves_spec; eapply game_ok_ext; [exact Hok5 | exact Hext7]|].
      intros ms h8 [-> Hext8]. cbv beta.
      apply Hcont; [exact Hsb | exact Hsm | exact Hrows|].
      eapply settled_ext; [|exact Hext8]. eapply settled_ext; eauto.
Qed.

(** The loops. *)
Lemma wp_maxLoop (rec : Move -> num -> num -> M num) (recP : Move -> num -> num -> num) ms :
  Forall onBoard ms ->
  (forall m a c h, onBoard m -> settled bot gs st b h ->
                   wp (rec m a c) h (fun r h' => r = recP m a c /\ settled bot gs st b h')) ->
  forall M a c h,
    settled bot gs st b h ->
    wp (ChessBot.maxLoop rec ms M a c) h
       (fun r h' => r = pureMaxLoop recP ms M a c /\ settled bot gs st b h').
Proof.
  intros Hall Hrec. induction Hall as [|m rest Hm Hrest IH]; intros M a c h Hset.
  - apply wp_ret. auto.
  - cbn [ChessBot.maxLoop pureMaxLoop].
    apply wp_bind. eapply wp_mono; [apply Hrec; assumption|].
    intros e h1 [-> Hset1]. cbv beta zeta.
    destruct (num_leb c (num_max a (recP m a c))); [apply wp_ret; auto | now apply IH].
Qed.

Lemma wp_minLoop (rec : Move -> num -> num -> M num) (recP : Move -> num -> num -> num) ms :
  Forall onBoard ms ->
  (forall m a c h, onBoard m -> settled bot gs st b h ->
                   wp (rec m a c) h (fun r h' => r = recP m a c /\ settled bot gs st b h')) ->
  forall M a c h,
    settled bot gs st b h ->
    wp (ChessBot.minLoop rec ms M a c) h
       (fun r h' => r = pureMinLoop recP ms M a c /\ settled bot gs st b h').
Proof.
  intros Hall Hrec. induction Hall as [|m rest Hm Hrest IH]; intros M a c h Hset.
  - apply wp_ret. auto.
  - cbn [ChessBot.minLoop pureMinLoop].
    apply wp_bind. eapply wp_mono; [apply Hrec; assumption|].
    intros e h1 [-> Hset1]. cbv beta zeta.
    destruct (num_leb (num_min c (recP m a c)) a); [apply wp_ret; auto | now apply IH].
Qed.

Lemma wp_plainMaxLoop (rec : Move -> num -> num -> M num) (val : Move -> num) ms :
  Forall onBoard ms ->
  (forall m a c h, onBoard m -> settled bot gs st b h ->
                   wp (rec m a c) h (fun r h' => r = val m /\ settled bot gs st b h')) ->
  forall M a c h,
    settled bot gs st b h ->
    wp (ChessBot.plainMaxLoop rec ms M a c) h
       (fun r h' => r = foldl (fun acc m => num_max acc (val m)) M ms /\ settled bot gs st b h').
Proof.
  intros Hall Hrec. induction Hall as [|m rest Hm Hrest IH]; intros M a c h Hset.
  - apply wp_ret. auto.
  - cbn [ChessBot.plainMaxLoop foldl].
    apply wp_bind. eapply wp_mono; [apply Hrec; assumption|].
    intros e h1 [-> Hset1]. cbv beta zeta. now apply IH.
Qed.

Lemma wp_plainMinLoop (rec : Move -> num -> num -> M num) (val : Move -> num) ms :
  Forall onBoard ms ->
  (forall m a c h, onBoard m -> settled bot gs st b h ->
                   wp (rec m a c) h (fun r h' => r = val m /\ settled bot gs st b h')) ->
  forall M a c h,
    settled bot gs st b h ->
    wp (ChessBot.plainMinLoop rec ms M a c) h
       (fun r h' => r = foldl (fun acc m => num_min acc (val m)) M ms /\ settled bot gs st b h').
Proof.
  intros Hall Hrec. induction Hall as [|m rest Hm Hrest IH]; intros M a c h Hset.
  - apply wp_ret. auto.
  - cbn [ChessBot.plainMinLoop foldl].
    apply wp_bind. eapply wp_mono; [apply Hrec; assumption|].
    intros e h1 [-> Hset1]. cbv beta zeta. now apply IH.
Qed.

Lemma wp_minimax depth :
  forall move isMaximizing alpha beta h,
    onBoard move -> settled bot gs st b h ->
    wp (ChessBot.minimax bot move depth isMaximizing alpha beta) h
       (fun r h' => r = alphaBeta b st settledLeaf depth move isMaximizing alpha beta
                    /\ settled bot gs st b h').
Proof.
  induction depth as [|d IH]; intros move isMax alpha beta h Hm Hset.
  - cbn [ChessBot.minimax alphaBeta].
    apply wp_bind. eapply wp_mono; [now apply wp_leaf|].
    intros v h' [-> Hset']. apply wp_ret. split; [reflexivity | exact Hset'].
  - cbn [ChessBot.minimax alphaBeta]. cbv zeta.
    destruct isMax.
    + eapply wp_searchNode with (side := white); [exact Hset | exact Hm | |].
      * intros Hmate h' Hset'.
        destruct Hset as (hist & Hok & _).
        destruct (scratchBoard_total b move (ok_rows _ _ _ _ _ _ Hok) Hm) as [b' ->].
        rewrite Hmate. split; [reflexivity | exact Hset'].
      * intros b' h' Hsb Hsm Hrows Hset'. rewrite Hsb, Hsm.
        apply wp_maxLoop; [now apply allLegalOn_onBoard | | exact Hset'].
        intros m a c h0 Hm0 Hset0. now apply IH.
    + eapply wp_searchNode with (side := black); [exact Hset | exact Hm | |].
      * intros Hmate h' Hset'.
        destruct Hset as (hist & Hok & _).
        destruct (scratchBoard_total b move (ok_rows _ _ _ _ _ _ Hok) Hm) as [b' ->].
        rewrite Hmate. split; [reflexivity | exact Hset'].
      * intros b' h' Hsb Hsm Hrows Hset'. rewrite Hsb, Hsm.
        apply wp_minLoop; [now apply allLegalOn_onBoard | | exact Hset'].
        intros m a c h0 Hm0 Hset0. now apply IH.
Qed.

Lemma wp_plainMinimax depth :
  forall move isMaximizing alpha beta h,
    onBoard move -> settled bot gs st b h ->
    wp (ChessBot.plainMinimax bot move depth isMaximizing alpha beta) h
       (fun r h' => r = plainSearch b st settledLeaf depth move isMaximizing
                    /\ settled bot gs st b h').
Proof.
  induction depth as [|d IH]; intros move isMax alpha beta h Hm Hset.
  - cbn [ChessBot.plainMinimax plainSearch].
    apply wp_bind. eapply wp_mono; [now apply wp_leaf|].
    intros v h' [-> Hset']. apply wp_ret. split; [reflexivity | exact Hset'].
  - cbn [ChessBot.plainMinimax plainSearch]. cbv zeta.
    destruct isMax.
    + eapply wp_searchNode with (side := white); [exact Hset | exact Hm | |].
      * intros Hmate h' Hset'.
        destruct Hset as (hist & Hok & _).
        destruct (scratchBoard_total b move (ok_rows _ _ _ _ _ _ Hok) Hm) as [b' ->].
        rewrite Hmate. split; [reflexivity | exact Hset'].
      * intros b' h' Hsb Hsm Hrows Hset'. rewrite Hsb, Hsm.
        apply wp_plainMaxLoop; [now apply allLegalOn_onBoard | | exact Hset'].
        intros m a c h0 Hm0 Hset0. now apply IH.
    + eapply wp_searchNode with (side := black); [exact Hset | exact Hm | |].
      * intros Hmate h' Hset'.
        destruct Hset as (hist & Hok & _).
        destruct (scratchBoard_total b move (ok_rows _ _ _ _ _ _ Hok) Hm) as [b' ->].
        rewrite Hmate. split; [reflexivity | exact Hset'].
      * intros b' h' Hsb Hsm Hrows Hset'. rewrite Hsb, Hsm.
        apply wp_plainMinLoop; [now apply allLegalOn_onBoard | | exact Hset'].
        intros m a c h0 Hm0 Hset0. now apply IH.
Qed.

Lemma wp_bestLoop (score : Move -> M num) (scoreP : Move -> num) moves :
  Forall onBoard moves ->
  (forall m h, onBoard m -> settled bot gs st b h ->
               wp (score m) h (fun r h' => r = scoreP m /\ settled bot gs st b h')) ->
  forall bestMove bestScore h,
    settled bot gs st b h ->
    wp (ChessBot.bestLoop score moves bestMove bestScore) h
       (fun r h' => r = pureBestLoop scoreP moves bestMove bestScore /\ settled bot gs st b h').
Proof.
  intros Hall Hscore. induction Hall as [|m rest Hm Hrest IH]; intros bm bs h Hset.
  - apply wp_ret. auto.
  - cbn [ChessBot.bestLoop pureBestLoop].
    apply wp_bind. eapply wp_mono; [apply Hscore; assumption|].
    intros s h1 [-> Hset1]. cbv beta.
    destruct (num_ltb bs (scoreP m)); now apply IH.
Qed.

End Refinement.

Lemma pureBestLoop_ext (f g : Move -> num) moves bestMove bestScore :
  (forall m, f m = g m) ->
  pureBestLoop f moves bestMove bestScore = pureBestLoop g moves bestMove bestScore.
Proof.
  intros Hfg. revert bestMove bestScore.
  induction moves as [|m rest IH]; intros bm bs; [reflexivity|].
  cbn [pureBestLoop]. rewrite Hfg. destruct (num_ltb bs (g m)); apply IH.
Qed.

(** ** The further theorems at work *)

Lemma heapAt_ok b player :
  rows_ok b -> game_ok (heapAt b player) 5%positive 4%positive (stateAt player) b [].
Proof. intros Hr. split; try reflexivity. exact Hr. Qed.

Lemma createInitialBoard_rows : rows_ok createInitialBoard.
Proof. unfold rows_ok. simpl. lia. Qed.

Lemma fourPieces_rows : rows_ok fourPieces.
Proof. unfold rows_ok. simpl. lia. Qed.

Lemma stalemated_rows : rows_ok stalemated.
Proof. unfold rows_ok. simpl. lia. Qed.

Lemma half_isDraw : isDraw (1 # 2).
Proof. split; [discriminate | split; [reflexivity | vm_compute; reflexivity]]. Qed.

Lemma quarter_isDraw : isDraw (1 # 4).
Proof. split; [discriminate | split; [reflexivity | vm_compute; reflexivity]]. Qed.

Lemma generators_stay_on_board_witness :
  rows_ok createInitialBoard
  /\ rd createInitialBoard (sq 7 1) = Some (mk knight white)
  /\ exists ms, movesByType createInitialBoard (sq 7 1) knight = Some ms
                /\ forall m, m ∈ ms -> isValidPosition m = true /\ m <> sq 7 1.
Proof.
  split; [exact createInitialBoard_rows|]. split; [reflexivity|].
  destruct (generators_stay_on_board createInitialBoard (sq 7 1)
              {| type := knight; color := white; hasMoved := false |} knight
              createInitialBoard_rows eq_refl) as (ms & E & H).
  exists ms. split; [exact E|]. intros m Hm. destruct (H m Hm) as (Hv & Hne & _).
  split; [exact Hv | exact Hne].
Defined.

Lemma knight_moves_exact_witness :
  rows_ok createInitialBoard
  /\ rd createInitialBoard (sq 7 1) = Some (mk knight white)
  /\ exists ms, getKnightMoves createInitialBoard (sq 7 1) = Some ms
                /\ sq 5 2 ∈ ms /\ sq 6 3 ∉ ms.
Proof.
  split; [exact createInitialBoard_rows|]. split; [reflexivity|].
  destruct (knight_moves_exact createInitialBoard (sq 7 1)
              {| type := knight; color := white; hasMoved := false |}
              createInitialBoard_rows eq_refl) as (ms & E & H).
  exists ms. split; [exact E|]. split.
  - apply H. split; [split; [reflexivity | exact I]|]. right. split; reflexivity.
  - intros Hin. apply H in Hin as [[_ Hown] _]. apply Hown. reflexivity.
Defined.

Lemma king_moves_exact_witness :
  rows_ok fourPieces
  /\ rd fourPieces (sq 5 4) = Some bk
  /\ exists ms, getKingMoves fourPieces (sq 5 4) = Some ms
                /\ sq 4 4 ∈ ms /\ sq 3 4 ∉ ms.
Proof.
  split; [exact fourPieces_rows|]. split; [reflexivity|].
  destruct (king_moves_exact fourPieces (sq 5 4)
              {| type := king; color := black; hasMoved := true |}
              fourPieces_rows eq_refl) as (ms & E & H).
  exists ms. split; [exact E|]. split.
  - apply H. split; [split; [reflexivity | exact I]|].
    split; [discriminate|]. split; discriminate.
  - intros Hin. apply H in Hin as (_ & _ & Hr & _). apply Hr. reflexivity.
Defined.

Lemma sliding_moves_exact_witness :
  rows_ok createInitialBoard
  /\ rd createInitialBoard (sq 7 0) = Some (mk rook white)
  /\ exists rs ds,
       getRookMoves createInitialBoard (sq 7 0) = Some rs
       /\ getQueenMoves createInitialBoard (sq 7 0) = Some (rs ++ ds)
       /\ sq 6 0 ∉ rs.
Proof.
  split; [exact createInitialBoard_rows|]. split; [reflexivity|].
  destruct (sliding_moves_exact createInitialBoard (sq 7 0)
              {| type := rook; color := white; hasMoved := false |}
              createInitialBoard_rows eq_refl) as (rs & ds & Er & _ & Eq & Hr & _).
  exists rs, ds. split; [exact Er|]. split; [exact Eq|].
  intros Hin. apply Hr in Hin as (d & i & _ & _ & _ & _ & _ & Hown).
  exact (Hown eq_refl).
Defined.

Lemma pawn_moves_exact_witness :
  rows_ok createInitialBoard
  /\ rd createInitialBoard (sq 6 4) = Some (mk pawn white)
  /\ exists ms, getPawnMoves createInitialBoard (sq 6 4) = Some ms /\ sq 4 4 ∈ ms.
Proof.
  split; [exact createInitialBoard_rows|]. split; [reflexivity|].
  destruct (pawn_moves_exact createInitialBoard (sq 6 4)
              {| type := pawn; color := white; hasMoved := false |}
              createInitialBoard_rows eq_refl) as (ms & E & H).
  exists ms. split; [exact E|]. apply H. right. left. repeat split.
Defined.

Lemma getAllLegalMoves_exact_witness :
  game_ok freshHeap 5%positive 4%positive freshState createInitialBoard []
  /\ exists ms h',
       getAllLegalMoves 5%positive white freshHeap = Some (ms, h')
       /\ forall m, m ∈ ms -> color (piece m) = white /\ capturedPiece m = None.
Proof.
  split; [exact freshHeap_ok|].
  destruct (getAllLegalMoves_exact freshHeap 5%positive 4%positive freshState
              createInitialBoard [] white freshHeap_ok) as (ms & h' & E & H & Hc).
  exists ms, h'. split; [exact E|]. intros m Hm. split; [now apply H|].
  destruct (capturedPiece m) as [x|] eqn:Ex; [|reflexivity].
  assert (Hs : Forall (fun m => capturedPiece m = None) ms)
    by (vm_compute in E; injection E as <- _; repeat constructor).
  rewrite Forall_forall in Hs. rewrite <- Ex. now apply Hs.
Defined.

Lemma makeMove_sets_status_witness :
  game_ok freshHeap 5%positive 4%positive freshState createInitialBoard []
  /\ rd createInitialBoard (sq 6 4) = Some (mk pawn white)
  /\ isValidPosition (sq 4 4) = true
  /\ exists h' st',
       makeMove 5%positive (sq 6 4) (sq 4 4) freshHeap = Some (true, h')
       /\ cells h' !! 4%positive = Some (CState st')
       /\ exists chk h1, isKingInCheck 5%positive (currentPlayer st') None h' = Some (chk, h1)
                         /\ isCheck st' = chk.
Proof.
  split; [exact freshHeap_ok|]. split; [reflexivity|]. split; [reflexivity|].
  destruct (makeMove_sets_status freshHeap 5%positive 4%positive freshState
              createInitialBoard [] (sq 6 4) (sq 4 4)
              {| type := pawn; color := white; hasMoved := false |}
              freshHeap_ok eq_refl eq_refl)
    as (h' & st' & chk & h1 & ms & h2 & E & _ & Hs & Ec & _ & Hchk & _).
  exists h', st'. split; [exact E|]. split; [exact Hs|].
  exists chk, h1. split; [exact Ec | exact Hchk].
Defined.

Lemma makeMove_keeps_gameOver_meaning_witness :
  game_ok freshHeap 5%positive 4%positive freshState createInitialBoard []
  /\ isValidPosition (sq 6 4) = true
  /\ isValidPosition (sq 4 4) = true
  /\ gameOver freshState = isCheckmate freshState || isStalemate freshState
  /\ exists r h' st',
       makeMove 5%positive (sq 6 4) (sq 4 4) freshHeap = Some (r, h')
       /\ cells h' !! 4%positive = Some (CState st')
       /\ gameOver st' = isCheckmate st' || isStalemate st'.
Proof.
  split; [exact freshHeap_ok|]. split; [reflexivity|]. split; [reflexivity|].
  split; [reflexivity|].
  destruct (makeMove_keeps_gameOver_meaning freshHeap 5%positive 4%positive freshState
              createInitialBoard [] (sq 6 4) (sq 4 4) freshHeap_ok eq_refl eq_refl eq_refl)
    as (r & h' & st' & E & _ & Hs & Hg).
  exists r, h', st'. split; [exact E|]. split; [exact Hs | exact Hg].
Defined.

Lemma selectSquare_ignored_witness :
  game_ok (heapAt fourPieces black) 5%positive 4%positive (stateAt black) fourPieces []
  /\ currentPlayer (stateAt black) = black
  /\ selectSquare 5%positive (sq 5 4) (heapAt fourPieces black)
     = Some (tt, heapAt fourPieces black).
Proof.
  split; [exact (heapAt_ok fourPieces black fourPieces_rows)|]. split; [reflexivity|].
  exact (selectSquare_ignored (heapAt fourPieces black) 5%positive 4%positive (stateAt black)
           fourPieces [] (sq 5 4) (heapAt_ok fourPieces black fourPieces_rows)
           (or_intror eq_refl)).
Defined.

Lemma freshHeap_selection : selection_ok freshHeap freshState createInitialBoard.
Proof. split; reflexivity. Qed.

Lemma selectSquare_keeps_selection_witness :
  game_ok freshHeap 5%positive 4%positive freshState createInitialBoard []
  /\ selection_ok freshHeap freshState createInitialBoard
  /\ isValidPosition (sq 6 4) = true
  /\ exists h' st' b' hist',
       selectSquare 5%positive (sq 6 4) freshHeap = Some (tt, h')
       /\ game_ok h' 5%positive 4%positive st' b' hist'
       /\ selection_ok h' st' b'.
Proof.
  split; [exact freshHeap_ok|]. split; [exact freshHeap_selection|]. split; [reflexivity|].
  destruct (selectSquare_keeps_selection freshHeap 5%positive 4%positive freshState
              createInitialBoard [] (sq 6 4) freshHeap_ok freshHeap_selection eq_refl)
    as (h' & st' & b' & hist' & E & Hok & Hsel & _).
  exists h', st', b', hist'. split; [exact E|]. split; [exact Hok | exact Hsel].
Defined.

Lemma selectSquare_first_click_witness :
  game_ok freshHeap 5%positive 4%positive freshState createInitialBoard []
  /\ isValidPosition (sq 6 4) = true
  /\ gameOver freshState = false
  /\ currentPlayer freshState = white
  /\ selectedSquare freshState = None
  /\ exists h' st' ls,
       selectSquare 5%positive (sq 6 4) freshHeap = Some (tt, h')
       /\ selectedSquare st' = Some (sq 6 4)
       /\ cells h' !! legalMoves st' = Some (CSquares ls).
Proof.
  split; [exact freshHeap_ok|]. repeat (split; [reflexivity|]).
  pose proof (selectSquare_first_click freshHeap 5%positive 4%positive freshState
                createInitialBoard [] (sq 6 4) freshHeap_ok eq_refl eq_refl eq_refl eq_refl)
    as H.
  change (rd createInitialBoard (sq 6 4)) with (Some (mk pawn white)) in H.
  destruct H as (h' & st' & ls & h1 & E & _ & Hsel & _ & Hls & _).
  exists h', st', ls. split; [exact E|]. split; [exact Hsel | exact Hls].
Defined.

Lemma resetGame_fresh_witness :
  cells freshHeap !! 5%positive = Some (CGame 4%positive)
  /\ (5 < next freshHeap)%positive
  /\ cells freshHeap !! 4%positive = Some (CState freshState)
  /\ exists h1 h' gs st,
       setDifficulty 5%positive hard freshHeap = Some (tt, h1)
       /\ resetGame 5%positive h1 = Some (tt, h')
       /\ game_ok h' 5%positive gs st createInitialBoard []
       /\ difficulty st = medium.
Proof.
  split; [reflexivity|]. split; [reflexivity|]. split; [reflexivity|].
  destruct (resetGame_fresh freshHeap 5%positive 4%positive hard eq_refl eq_refl
              (ex_intro _ freshState eq_refl))
    as (h1 & h' & gs & st & E1 & E2 & Hok & _ & _ & _ & _ & _ & _ & _ & Hd & _).
  exists h1, h', gs, st. split; [exact E1|]. split; [exact E2|]. split; [exact Hok | exact Hd].
Defined.

Lemma evaluateMove_reads_history_only_witness :
  let bot := {| ChessBot.game := 5%positive; ChessBot.difficulty := medium |} in
  let move := {| from := sq 1 4; to := sq 3 4;
                 piece := {| type := pawn; color := black; hasMoved := false |};
                 capturedPiece := None; promotion := None |} in
  game_ok freshHeap (ChessBot.game bot) 4%positive freshState createInitialBoard []
  /\ isValidPosition (to move) = true
  /\ exists h', ChessBot.evaluateMove bot move freshHeap = Some (pts 20 + 25, h')
                /\ heap_ext freshHeap h'.
Proof.
  intros bot move. split; [exact freshHeap_ok|]. split; [reflexivity|].
  destruct (evaluateMove_reads_history_only freshHeap bot 4%positive freshState
              createInitialBoard [] move freshHeap_ok eq_refl)
    as (v & h' & E & Hext & Hv & _).
  exists h'. injection Hv as <-. split; [exact E | exact Hext].
Defined.

Lemma getHardMove_first_best_witness :
  let bot := {| ChessBot.game := 5%positive; ChessBot.difficulty := hard |} in
  let e5 := {| from := sq 1 4; to := sq 3 4;
               piece := {| type := pawn; color := black; hasMoved := false |};
               capturedPiece := None; promotion := None |} in
  let a6 := {| from := sq 1 0; to := sq 2 0;
               piece := {| type := pawn; color := black; hasMoved := false |};
               capturedPiece := None; promotion := None |} in
  [a6; e5; e5] <> []
  /\ exists scores h',
       collectM (fun move =>
                   let! s := ChessBot.minimax bot move (1 - 1) false NegInf PosInf in
                   ret [s]) [a6; e5; e5] freshHeap = Some (scores, h')
       /\ ChessBot.getHardMove bot [a6; e5; e5] 1 freshHeap = Some (Some e5, h').
Proof.
  intros bot e5 a6. split; [discriminate|].
  destruct (collectM (fun move =>
                        let! s := ChessBot.minimax bot move (1 - 1) false NegInf PosInf in
                        ret [s]) [a6; e5; e5] freshHeap) as [[scores h']|] eqn:E;
    [|vm_compute in E; discriminate].
  exists scores, h'. split; [reflexivity|].
  destruct (getHardMove_first_best bot [a6; e5; e5] 1 freshHeap scores h' E
              ltac:(discriminate)) as (i & m & s & Eh & Hm & Hs & Hall & _).
  rewrite Eh. do 3 f_equal.
  assert (Hsc : scores = [Fin 10; Fin (pts 20 + 25); Fin (pts 20 + 25)])
    by (vm_compute in E; injection E as <- _; reflexivity).
  subst scores.
  destruct i as [|[|[|i]]]; simpl in Hm, Hs; try discriminate.
  - injection Hs as <-. specialize (Hall 1%nat _ eq_refl). discriminate.
  - now injection Hm as <-.
  - now injection Hm as <-.
Defined.

Lemma getBestMove_without_moves_witness :
  let bot := {| ChessBot.game := 5%positive; ChessBot.difficulty := very_hard |} in
  game_ok (heapAt stalemated black) (ChessBot.game bot) 4%positive (stateAt black) stalemated []
  /\ exists h1 h',
       getAllLegalMoves (ChessBot.game bot) black (heapAt stalemated black) = Some ([], h1)
       /\ ChessBot.getBestMove bot (1 # 2) (1 # 4) (heapAt stalemated black) = Some (None, h').
Proof.
  intros bot. split; [exact (heapAt_ok stalemated black stalemated_rows)|].
  destruct (getAllLegalMoves (ChessBot.game bot) black (heapAt stalemated black))
    as [[ms h1]|] eqn:E; [|vm_compute in E; discriminate].
  assert (Hms : ms = []) by (pose proof E as E'; vm_compute in E'; injection E' as <- _;
                             reflexivity).
  subst ms.
  destruct (getBestMove_without_moves (heapAt stalemated black) bot 4%positive (stateAt black)
              stalemated [] (1 # 2) (1 # 4) h1
              (heapAt_ok stalemated black stalemated_rows) E) as (h' & Eb & _).
  exists h1, h'. split; [reflexivity | exact Eb].
Defined.

Lemma noWhiteKing_rows : rows_ok noWhiteKing.
Proof. unfold rows_ok. simpl. lia. Qed.

Lemma random_tiers_play_legal_moves_witness :
  let bot := {| ChessBot.game := 5%positive; ChessBot.difficulty := easy |} in
  game_ok (heapAt noWhiteKing black) (ChessBot.game bot) 4%positive (stateAt black)
          noWhiteKing []
  /\ isDraw (1 # 2) /\ isDraw (1 # 4)
  /\ (1 # 2 < roundDouble (6 # 10))%Q
  /\ exists m h' ms h1,
       ChessBot.getBestMove bot (1 # 2) (1 # 4) (heapAt noWhiteKing black) = Some (Some m, h')
       /\ getAllLegalMoves (ChessBot.game bot) black (heapAt noWhiteKing black)
          = Some (ms, h1)
       /\ m ∈ ms
       /\ (exists c, c ∈ ms /\ is_Some (capturedPiece c))
       /\ is_Some (capturedPiece m).
Proof.
  intros bot. split; [exact (heapAt_ok noWhiteKing black noWhiteKing_rows)|].
  split; [exact half_isDraw|]. split; [exact quarter_isDraw|].
  assert (Hlt : (1 # 2 < roundDouble (6 # 10))%Q) by (vm_compute; reflexivity).
  split; [exact Hlt|].
  destruct (random_tiers_play_legal_moves (heapAt noWhiteKing black) bot 4%positive
              (stateAt black) noWhiteKing [] (1 # 2) (1 # 4)
              (heapAt_ok noWhiteKing black noWhiteKing_rows) (or_intror eq_refl)
              half_isDraw quarter_isDraw) as (r & h' & ms & h1 & E & _ & Ea & H).
  assert (Hcap : exists c, c ∈ ms /\ is_Some (capturedPiece c)).
  { pose proof Ea as Ea'. vm_compute in Ea'. injection Ea' as <- _.
    eexists. split; [do 14 right; left|].
    eexists. reflexivity. }
  destruct r as [m|].
  - destruct H as [Hin Hsome]. exists m, h', ms, h1.
    split; [exact E|]. split; [exact Ea|]. split; [exact Hin|]. split; [exact Hcap|].
    exact (Hsome eq_refl Hlt Hcap).
  - exfalso. destruct Hcap as (c & Hc & _). rewrite H in Hc. now apply elem_of_nil in Hc.
Defined.

Lemma medium_tier_within_fifty_witness :
  let bot := {| ChessBot.game := 5%positive; ChessBot.difficulty := medium |} in
  game_ok freshHeap (ChessBot.game bot) 4%positive freshState createInitialBoard []
  /\ isDraw (1 # 2)
  /\ exists r h' ms h1,
       ChessBot.getBestMove bot (1 # 2) (1 # 4) freshHeap = Some (r, h')
       /\ getAllLegalMoves (ChessBot.game bot) black freshHeap = Some (ms, h1)
       /\ match r with None => ms = [] | Some m => m ∈ ms end.
Proof.
  intros bot. split; [exact freshHeap_ok|]. split; [exact half_isDraw|].
  destruct (medium_tier_within_fifty freshHeap bot 4%positive freshState
              createInitialBoard [] (1 # 2) (1 # 4) freshHeap_ok eq_refl half_isDraw)
    as (r & h' & ms & h1 & E & _ & Ea & H).
  exists r, h', ms, h1. split; [exact E|]. split; [exact Ea|].
  destruct r as [m|]; [exact (proj1 H) | exact H].
Defined.

Lemma makeMove_relocates_piece_witness :
  game_ok freshHeap 5%positive 4%positive freshState createInitialBoard []
  /\ rd createInitialBoard (sq 6 4) = Some (mk pawn white)
  /\ isValidPosition (sq 4 4) = true
  /\ sq 6 4 <> sq 4 4
  /\ exists h' st' b' m,
       makeMove 5%positive (sq 6 4) (sq 4 4) freshHeap = Some (true, h')
       /\ game_ok h' 5%positive 4%positive st' b' [m]
       /\ rd b' (sq 6 4) = Some None
       /\ capturedPiece m = None.
Proof.
  split; [exact freshHeap_ok|]. split; [reflexivity|]. split; [reflexivity|].
  split; [discriminate|].
  destruct (makeMove_relocates_piece freshHeap 5%positive 4%positive freshState
              createInitialBoard [] (sq 6 4) (sq 4 4)
              {| type := pawn; color := white; hasMoved := false |}
              freshHeap_ok eq_refl eq_refl ltac:(discriminate))
    as (h' & st' & b' & m & E & Hok & Hsrc & _ & _ & Hcap & _).
  exists h', st', b', m. split; [exact E|]. split; [exact Hok|]. split; [exact Hsrc|].
  now injection Hcap as <-.
Defined.

Lemma makeMove_onto_own_square_witness :
  game_ok freshHeap 5%positive 4%positive freshState createInitialBoard []
  /\ rd createInitialBoard (sq 6 4) = Some (mk pawn white)
  /\ isValidPosition (sq 6 4) = true
  /\ exists h' st' b' m,
       makeMove 5%positive (sq 6 4) (sq 6 4) freshHeap = Some (true, h')
       /\ game_ok h' 5%positive 4%positive st' b' [m]
       /\ currentPlayer st' = black
       /\ rd b' (sq 6 4) = Some None.
Proof.
  split; [exact freshHeap_ok|]. split; [reflexivity|]. split; [reflexivity|].
  destruct (makeMove_onto_own_square freshHeap 5%positive 4%positive freshState
              createInitialBoard [] (sq 6 4)
              {| type := pawn; color := white; hasMoved := false |}
              freshHeap_ok eq_refl eq_refl)
    as (h' & st' & b' & m & E & Hok & Hcp & Hsq & _).
  exists h', st', b', m. split; [exact E|]. split; [exact Hok|].
  split; [exact Hcp | exact Hsq].
Defined.

Lemma two_moves_return_the_turn_witness :
  game_ok freshHeap 5%positive 4%positive freshState createInitialBoard []
  /\ rd createInitialBoard (sq 6 4) = Some (mk pawn white)
  /\ isValidPosition (sq 4 4) = true
  /\ isValidPosition (sq 4 3) = true
  /\ exists h1 h2 st2 b2 m1 m2,
       makeMove 5%positive (sq 6 4) (sq 4 4) freshHeap = Some (true, h1)
       /\ makeMove 5%positive (sq 6 3) (sq 4 3) h1 = Some (true, h2)
       /\ game_ok h2 5%positive 4%positive st2 b2 [m1; m2]
       /\ color (piece m2) = white
       /\ currentPlayer st2 = white.
Proof.
  split; [exact freshHeap_ok|]. split; [reflexivity|]. split; [reflexivity|].
  split; [reflexivity|].
  destruct (two_moves_return_the_turn freshHeap 5%positive 4%positive freshState
              createInitialBoard [] (sq 6 4) (sq 4 4)
              {| type := pawn; color := white; hasMoved := false |} (sq 6 3) (sq 4 3)
              freshHeap_ok eq_refl eq_refl eq_refl)
    as (h1 & st1 & b1 & m1 & E1 & _ & Hrest & Hnext).
  assert (Hp2 : rd b1 (sq 6 3) = Some (mk pawn white))
    by (rewrite Hrest; [reflexivity | discriminate | discriminate]).
  destruct (Hnext _ Hp2) as (h2 & st2 & b2 & m2 & E2 & Hok2 & Hpiece & Hcp).
  exists h1, h2, st2, b2, m1, m2. split; [exact E1|]. split; [exact E2|].
  split; [exact Hok2|]. split; [now rewrite Hpiece | exact Hcp].
Defined.

Lemma evaluateMove_mirror_witness :
  let bot := {| ChessBot.game := 5%positive; ChessBot.difficulty := medium |} in
  let d5 := {| from := sq 1 3; to := sq 3 3;
               piece := {| type := pawn; color := black; hasMoved := false |};
               capturedPiece := None; promotion := None |} in
  let e5 := {| from := sq 1 3; to := sq 3 4;
               piece := {| type := pawn; color := black; hasMoved := false |};
               capturedPiece := None; promotion := None |} in
  game_ok freshHeap (ChessBot.game bot) 4%positive freshState createInitialBoard []
  /\ isValidPosition (to d5) = true
  /\ exists v h1 h2,
       ChessBot.evaluateMove bot d5 freshHeap = Some (v, h1)
       /\ ChessBot.evaluateMove bot e5 freshHeap = Some (v, h2).
Proof.
  intros bot d5 e5. split; [exact freshHeap_ok|]. split; [reflexivity|].
  exact (evaluateMove_mirror freshHeap bot 4%positive freshState createInitialBoard [] d5
           freshHeap_ok eq_refl).
Defined.

Lemma mateInOne_rows : rows_ok mateInOne.
Proof. unfold rows_ok. simpl. lia. Qed.

Lemma mateInOne_mates :
  exists h1 st1,
    makeMove 5%positive (sq 1 7) (sq 1 1) (heapAt mateInOne white) = Some (true, h1)
    /\ cells h1 !! 4%positive = Some (CState st1)
    /\ isCheckmate st1 = true.
Proof.
  destruct (makeMove 5%positive (sq 1 7) (sq 1 1) (heapAt mateInOne white))
    as [[r h1]|] eqn:E; [|vm_compute in E; discriminate].
  vm_compute in E. injection E as <- <-.
  eexists _, _. split; [reflexivity|]. split; reflexivity.
Qed.

Lemma minimax_scores_checkmate_witness :
  let bot := {| ChessBot.game := 5%positive; ChessBot.difficulty := hard |} in
  let move := {| from := sq 1 7; to := sq 1 1;
                 piece := {| type := queen; color := white; hasMoved := true |};
                 capturedPiece := None; promotion := None |} in
  game_ok (heapAt mateInOne white) (ChessBot.game bot) 4%positive (stateAt white) mateInOne []
  /\ isValidPosition (from move) = true
  /\ isValidPosition (to move) = true
  /\ exists h1 st1 h',
       makeMove (ChessBot.game bot) (from move) (to move) (heapAt mateInOne white)
       = Some (true, h1)
       /\ cells h1 !! 4%positive = Some (CState st1)
       /\ isCheckmate st1 = true
       /\ ChessBot.minimax bot move 3 false NegInf PosInf (heapAt mateInOne white)
          = Some (Fin (pts 10000), h').
Proof.
  intros bot move. split; [exact (heapAt_ok mateInOne white mateInOne_rows)|].
  split; [reflexivity|]. split; [reflexivity|].
  destruct mateInOne_mates as (h1 & st1 & E & Hst & Hmate).
  destruct (minimax_scores_checkmate (heapAt mateInOne white) bot 4%positive (stateAt white)
              mateInOne [] move h1 st1 2 false NegInf PosInf
              (heapAt_ok mateInOne white mateInOne_rows) eq_refl eq_refl E Hst Hmate)
    as (h' & m & Em & _).
  exists h1, st1, h'. split; [exact E|]. split; [exact Hst|]. split; [exact Hmate | exact Em].
Defined.

(** A scan of the sixty-four squares that finds no king of [side] shows
    that an eight by eight board has none. *)
Lemma findKing_None b side sqs pos p :
  findKing b side sqs = Some None ->
  pos ∈ sqs -> rd b pos = Some (Some p) -> ~ (type p = king /\ color p = side).
Proof.
  induction sqs as [|pos' rest IH]; intros Hf Hin Hrd; [now apply elem_of_nil in Hin|].
  cbn [findKing] in Hf. apply elem_of_cons in Hin as [->|Hin].
  - rewrite Hrd, obind_Some in Hf. intros [Hk Hc].
    rewrite (bool_decide_eq_true_2 _ Hk), (bool_decide_eq_true_2 _ Hc) in Hf. discriminate.
  - destruct (rd b pos') as [[p'|]|]; [| |discriminate]; rewrite obind_Some in Hf.
    + destruct (bool_decide (type p' = king) && bool_decide (color p' = side));
        [discriminate | auto].
    + auto.
Qed.

Lemma no_king_by_scan b side :
  length b = 8%nat -> Forall (fun rw => length rw = 8%nat) b ->
  findKing b side allSquares = Some None -> ~ hasKing b side.
Proof.
  intros Hlen Hrows Hf (pos & p & Hrd & Hk & Hc).
  apply (findKing_None b side allSquares pos p Hf); [|exact Hrd | auto].
  apply allSquares_complete, isValidPosition_spec.
  unfold rd in Hrd.
  destruct (Z.ltb_spec (row pos) 0); [discriminate|].
  destruct (b !! Z.to_nat (row pos)) as [rw|] eqn:Erw; [|discriminate].
  destruct (Z.ltb_spec (col pos) 0); [discriminate|].
  destruct (rw !! Z.to_nat (col pos)) as [t|] eqn:Et; [|discriminate].
  apply lookup_lt_Some in Et. pose proof (lookup_lt_Some _ _ _ Erw) as Hr.
  rewrite Forall_forall in Hrows.
  rewrite (Hrows rw) in Et by (eapply list_elem_of_lookup_2; eauto). lia.
Qed.


Lemma getSquareColor_alternates_witness :
  Z.abs 3 < 2 ^ 52 /\ Z.abs (-4) < 2 ^ 52
  /\ getSquareColor 3 (-4 + 1) <> getSquareColor 3 (-4)
  /\ getSquareColor (3 + 1) (-4) <> getSquareColor 3 (-4).
Proof.
  split; [reflexivity|]. split; [reflexivity|].
  exact (getSquareColor_alternates 3 (-4) eq_refl eq_refl).
Defined.

